(** * Option pricing calculator: pricing engine, Greeks and strategies

    A shallow embedding of the pricing core of the repository
    ([models/base_model.py], [models/black_scholes.py],
    [models/binomial_tree.py], [models/monte_carlo.py],
    [calculations/greeks.py], [strategies/options.py]) together with the
    properties its specification states about it and, in the last part,
    further properties of the same code.

    Numbers.  Python floats are modelled by exact numbers: real numbers
    ([R]) in the pricers, which need [exp], [ln] and [sqrt], and exact
    rationals ([Q]) in the strategy layer, which only adds, multiplies,
    divides and compares, so that strategies can be evaluated by
    computation.  Rounding, overflow, infinities and NaN are outside the
    model; where the Python code would produce a NaN (the mean of an empty
    array, the logarithm of a negative number) the statements below carry
    the hypotheses that exclude it.

    Library functions.  [scipy.stats.norm.cdf] is the standard normal
    distribution function, defined here by its Maclaurin series;
    [numpy.random] and [scipy.stats.norm.ppf] are parameters of the
    Monte Carlo section. *)

From Stdlib Require Import Reals Lra Lia Factorial ZArith List String Ascii Bool.
From Stdlib Require Import QArith Qminmax Qabs Psatz Sorted.
Import ListNotations.

Local Open Scope R_scope.

(** ** Python values, exceptions and results *)

(** A value interpolated into an f-string. *)
Inductive pyvalue : Type :=
| PyFloat (x : R)
| PyStr (s : string).

(** The exceptions the modelled code can raise.  [ValueError prefix v] is
    the exception whose message is the f-string [prefix ++ format v]. *)
Inductive exn : Type :=
| ValueError (message : string) (got : pyvalue)
| ZeroDivisionError
| IndexError
| NegativeDimensions.

Inductive result (A : Type) : Type :=
| Ok (a : A)
| Raise (e : exn).
Arguments Ok {A} a.
Arguments Raise {A} e.

Definition bind {A B : Type} (m : result A) (k : A -> result B) : result B :=
  match m with
  | Ok a => k a
  | Raise e => Raise e
  end.

Notation "x <- m ;; k" := (bind m (fun x => k))
  (at level 61, m at next level, right associativity).

(** Float comparisons as booleans. *)
Definition Rleb (x y : R) : bool := if Rle_dec x y then true else false.
Definition Rltb (x y : R) : bool := if Rlt_dec x y then true else false.

(** ** Strings: [str.lower] and [str.strip] on ASCII text *)

Definition lower_ascii (c : ascii) : ascii :=
  let n := nat_of_ascii c in
  if (65 <=? n)%nat && (n <=? 90)%nat then ascii_of_nat (n + 32) else c.

Fixpoint lower (s : string) : string :=
  match s with
  | EmptyString => EmptyString
  | String c s' => String (lower_ascii c) (lower s')
  end.

Definition is_space (c : ascii) : bool :=
  let n := nat_of_ascii c in
  ((9 <=? n)%nat && (n <=? 13)%nat) || ((28 <=? n)%nat && (n <=? 32)%nat).

Fixpoint lstrip (s : string) : string :=
  match s with
  | EmptyString => EmptyString
  | String c s' => if is_space c then lstrip s' else s
  end.

Fixpoint rstrip (s : string) : string :=
  match s with
  | EmptyString => EmptyString
  | String c s' =>
      match rstrip s' with
      | EmptyString => if is_space c then EmptyString else String c EmptyString
      | r => String c r
      end
  end.

Definition strip (s : string) : string := rstrip (lstrip s).

Fixpoint str_in (s : string) (l : list string) : bool :=
  match l with
  | [] => false
  | x :: l' => if string_dec s x then true else str_in s l'
  end.

(** ** The standard normal distribution ([scipy.stats.norm]) *)

(** Coefficients of the Maclaurin series of the distribution function:
    [norm_cdf x = 1/2 + (1/sqrt(2 pi)) * sum_n (-1)^n x^(2n+1) / (2^n n! (2n+1))]. *)
Definition cdf_coef (n : nat) : R :=
  (-1) ^ n / (2 ^ n * INR (fact n) * INR (2 * n + 1)).

Lemma INR_odd (n : nat) : INR (2 * n + 1) = 2 * INR n + 1.
Proof. rewrite plus_INR, mult_INR. simpl. ring. Qed.

Lemma cdf_coef_neq_0 : forall n, cdf_coef n <> 0.
Proof.
  intro n. unfold cdf_coef.
  assert (H1 : (-1) ^ n <> 0) by (apply pow_nonzero; lra).
  assert (H2 : 2 ^ n <> 0) by (apply pow_nonzero; lra).
  assert (H3 : INR (fact n) <> 0) by apply INR_fact_neq_0.
  assert (H4 : INR (2 * n + 1) <> 0) by (apply not_0_INR; lia).
  unfold Rdiv. apply Rmult_integral_contrapositive_currified; auto.
  apply Rinv_neq_0_compat.
  repeat apply Rmult_integral_contrapositive_currified; auto.
Qed.

Lemma cdf_coef_ratio : forall n,
  Rabs (cdf_coef (S n) / cdf_coef n) <= / INR (S n).
Proof.
  intro n. unfold cdf_coef.
  assert (H2 : 2 ^ n <> 0) by (apply pow_nonzero; lra).
  assert (H3 : INR (fact n) <> 0) by apply INR_fact_neq_0.
  assert (Hn : 0 <= INR n) by apply pos_INR.
  rewrite !INR_odd, S_INR.
  replace (2 * (INR n + 1) + 1) with (2 * INR n + 3) by ring.
  rewrite fact_simpl, mult_INR, S_INR. simpl pow.
  assert (H1 : (-1) ^ n <> 0) by (apply pow_nonzero; lra).
  replace (-1 * (-1) ^ n / (2 * 2 ^ n * ((INR n + 1) * INR (fact n)) * (2 * INR n + 3)) /
           ((-1) ^ n / (2 ^ n * INR (fact n) * (2 * INR n + 1))))
    with (- ((2 * INR n + 1) / (2 * (INR n + 1) * (2 * INR n + 3))))
    by (field; repeat split; auto; lra).
  rewrite Rabs_Ropp, Rabs_pos_eq.
  - apply Rmult_le_reg_l with (INR n + 1); [lra|].
    rewrite Rinv_r by lra.
    replace ((INR n + 1) * ((2 * INR n + 1) / (2 * (INR n + 1) * (2 * INR n + 3))))
      with ((2 * INR n + 1) / (2 * (2 * INR n + 3))) by (field; lra).
    apply Rmult_le_reg_r with (2 * (2 * INR n + 3)); [lra|].
    unfold Rdiv. rewrite Rmult_assoc, Rinv_l by lra. lra.
  - apply Rmult_le_pos; [lra|]. apply Rlt_le, Rinv_0_lt_compat.
    apply Rmult_lt_0_compat; [|lra]. lra.
Qed.

(** The ratio test: the series converges for every argument. *)
Lemma cdf_coef_Alembert : Un_cv (fun n => Rabs (cdf_coef (S n) / cdf_coef n)) 0.
Proof.
  intros eps Heps.
  destruct (archimed (/ eps)) as [Ha _].
  assert (Hie : 0 < / eps) by (apply Rinv_0_lt_compat; exact Heps).
  exists (Z.to_nat (up (/ eps))). intros n Hn.
  unfold Rdist. rewrite Rminus_0_r, Rabs_Rabsolu.
  apply Rle_lt_trans with (/ INR (S n)); [apply cdf_coef_ratio|].
  assert (Hup : IZR (up (/ eps)) <= INR n).
  { rewrite INR_IZR_INZ. apply IZR_le.
    assert (0 < up (/ eps))%Z by (apply lt_IZR; lra). lia. }
  rewrite S_INR.
  rewrite <- (Rinv_inv eps).
  apply Rinv_lt_contravar; [|lra].
  apply Rmult_lt_0_compat; lra.
Qed.

(** [cdf_series y = sum_n cdf_coef n * y^n]. *)
Definition cdf_series (y : R) : R :=
  proj1_sig (Alembert_C3 cdf_coef y cdf_coef_neq_0 cdf_coef_Alembert).

(** [scipy.stats.norm.cdf]. *)
Definition norm_cdf (x : R) : R :=
  / 2 + x * cdf_series (x * x) / sqrt (2 * PI).

(** [scipy.stats.norm.pdf]. *)
Definition norm_pdf (x : R) : R :=
  exp (- (x * x) / 2) / sqrt (2 * PI).

(** ** models/base_model.py: [OptionPricingModel] *)

Module BaseModel.

(** [validate_inputs]: the shared precondition checks, in source order. *)
Definition validate_inputs
    (spot strike time_to_maturity risk_free_rate volatility : R)
    (option_type : string) : result bool :=
  if Rleb spot 0 then
    Raise (ValueError "Spot price must be positive. Got: " (PyFloat spot))
  else if Rleb strike 0 then
    Raise (ValueError "Strike price must be positive. Got: " (PyFloat strike))
  else if Rleb time_to_maturity 0 then
    Raise (ValueError "Time to maturity must be positive. Got: "
             (PyFloat time_to_maturity))
  else if Rleb volatility 0 then
    Raise (ValueError "Volatility must be positive. Got: " (PyFloat volatility))
  else if Rltb risk_free_rate (-0.1) || Rltb 0.5 risk_free_rate then
    Raise (ValueError "Risk-free rate must be between -0.1 and 0.5. Got: "
             (PyFloat risk_free_rate))
  else if negb (str_in (lower option_type) ["call"; "put"]%string) then
    Raise (ValueError "Option type must be 'call' or 'put'. Got: "
             (PyStr option_type))
  else Ok true.

(** [_get_option_type]. *)
Definition _get_option_type (option_type : string) : string :=
  strip (lower option_type).

End BaseModel.

(** ** models/black_scholes.py: [BlackScholesModel] *)

Module BlackScholes.
Import BaseModel.

(** [spot / strike] on Python floats raises when the divisor is zero. *)
Definition _calculate_d1
    (spot strike time_to_maturity risk_free_rate volatility : R) : result R :=
  if Req_dec_T strike 0 then Raise ZeroDivisionError
  else
    let numerator :=
      ln (spot / strike) +
      (risk_free_rate + 0.5 * volatility ^ 2) * time_to_maturity in
    let denominator := volatility * sqrt time_to_maturity in
    Ok (numerator / denominator).

Definition _calculate_d2 (d1 volatility time_to_maturity : R) : R :=
  d1 - volatility * sqrt time_to_maturity.

Definition _calculate_call_price
    (spot strike time_to_maturity risk_free_rate d1 d2 : R) : R :=
  spot * norm_cdf d1 -
  strike * exp (- risk_free_rate * time_to_maturity) * norm_cdf d2.

Definition _calculate_put_price
    (spot strike time_to_maturity risk_free_rate d1 d2 : R) : R :=
  strike * exp (- risk_free_rate * time_to_maturity) * norm_cdf (- d2) -
  spot * norm_cdf (- d1).

Definition calculate_price
    (spot strike time_to_maturity risk_free_rate volatility : R)
    (option_type : string) : result R :=
  _ <- validate_inputs spot strike time_to_maturity risk_free_rate
         volatility option_type ;;
  let option_type := _get_option_type option_type in
  d1 <- _calculate_d1 spot strike time_to_maturity risk_free_rate volatility ;;
  let d2 := _calculate_d2 d1 volatility time_to_maturity in
  if string_dec option_type "call" then
    Ok (_calculate_call_price spot strike time_to_maturity risk_free_rate d1 d2)
  else
    Ok (_calculate_put_price spot strike time_to_maturity risk_free_rate d1 d2).

End BlackScholes.

(** ** numpy arrays and [for] loops *)

(** A two-dimensional array: its shape and its cells.  The loops of the
    modelled code only touch indices inside the shape. *)
Record ndarray (A : Type) : Type := mk_ndarray {
  nrows : nat;
  ncols : nat;
  cell : nat -> nat -> A
}.
Arguments mk_ndarray {A} _ _ _.
Arguments nrows {A} _.
Arguments ncols {A} _.
Arguments cell {A} _ _ _.

(** [np.zeros((rows, cols))] (with [zero] the zero of the dtype). *)
Definition np_zeros {A : Type} (rows cols : nat) (zero : A) : ndarray A :=
  mk_ndarray rows cols (fun _ _ => zero).

(** [a[i][j] = v]. *)
Definition setitem {A : Type} (a : ndarray A) (i j : nat) (v : A) : ndarray A :=
  mk_ndarray (nrows a) (ncols a)
    (fun i' j' => if (i' =? i)%nat && (j' =? j)%nat then v else cell a i' j').

(** [for k in range(n): s = body k s]. *)
Definition for_range {St : Type} (n : nat) (body : nat -> St -> St) (s : St) : St :=
  fold_left (fun s k => body k s) (seq 0 n) s.

(** [for k in range(n - 1, -1, -1): s = body k s]. *)
Definition for_range_down {St : Type} (n : nat) (body : nat -> St -> St) (s : St) : St :=
  fold_left (fun s k => body k s) (rev (seq 0 n)) s.

(** ** models/binomial_tree.py: [BinomialTreeModel] *)

Module BinomialTree.
Import BaseModel.

Record BinomialTreeModel : Type := mk_model {
  num_steps : Z;
  american : bool;
  _last_price_tree : option (ndarray R);
  _last_option_tree : option (ndarray R);
  _last_exercise_tree : option (ndarray bool)
}.

(** [__init__]. *)
Definition init (num_steps : Z) (american : bool) : BinomialTreeModel :=
  mk_model num_steps american None None None.

(** "Store trees for visualization". *)
Definition store_trees (self : BinomialTreeModel)
    (price_tree option_tree : ndarray R) (exercise_tree : ndarray bool)
    : BinomialTreeModel :=
  mk_model (num_steps self) (american self)
    (Some price_tree) (Some option_tree) (Some exercise_tree).

(** The CRR parameters computed at the top of [calculate_price]. *)
Record crr : Type := mk_crr {
  crr_dt : R;
  crr_u : R;
  crr_d : R;
  crr_p : R;
  crr_discount : R
}.

Definition crr_parameters
    (time_to_maturity risk_free_rate volatility : R) (num_steps : Z) : crr :=
  let dt := time_to_maturity / IZR num_steps in
  let u := exp (volatility * sqrt dt) in
  let d := 1 / u in
  let p := (exp (risk_free_rate * dt) - d) / (u - d) in
  let discount := exp (- risk_free_rate * dt) in
  mk_crr dt u d p discount.

(** "Build asset price tree (forward)". *)
Definition build_price_tree (n : nat) (spot u d : R) : ndarray R :=
  for_range (n + 1)
    (fun i price_tree =>
       for_range (i + 1)
         (fun j price_tree =>
            setitem price_tree i j (spot * u ^ j * d ^ (i - j)))
         price_tree)
    (np_zeros (n + 1) (n + 1) 0).

(** [max(0, price - strike)] for a call, [max(0, strike - price)] otherwise. *)
Definition exercise_payoff (option_type : string) (strike price : R) : R :=
  if string_dec option_type "call" then Rmax 0 (price - strike)
  else Rmax 0 (strike - price).

(** "Calculate option values at expiration (terminal nodes)". *)
Definition terminal_values (n : nat) (option_type : string) (strike : R)
    (price_tree option_tree : ndarray R) : ndarray R :=
  for_range (n + 1)
    (fun j option_tree =>
       setitem option_tree n j
         (exercise_payoff option_type strike (cell price_tree n j)))
    option_tree.

(** The body of the inner loop of the backward induction, at node [(i, j)]. *)
Definition backward_node (american : bool) (option_type : string)
    (strike p discount : R) (price_tree : ndarray R) (i j : nat)
    (trees : ndarray R * ndarray bool) : ndarray R * ndarray bool :=
  let '(option_tree, exercise_tree) := trees in
  let continuation_value :=
    discount * (p * cell option_tree (i + 1) (j + 1) +
                (1 - p) * cell option_tree (i + 1) j) in
  if american then
    let exercise_value := exercise_payoff option_type strike (cell price_tree i j) in
    if Rltb continuation_value exercise_value then
      (setitem option_tree i j exercise_value, setitem exercise_tree i j true)
    else
      (setitem option_tree i j continuation_value, exercise_tree)
  else
    (setitem option_tree i j continuation_value, exercise_tree).

(** "Backward induction: calculate option values at earlier nodes". *)
Definition backward_induction (n : nat) (american : bool) (option_type : string)
    (strike p discount : R) (price_tree : ndarray R)
    (trees : ndarray R * ndarray bool) : ndarray R * ndarray bool :=
  for_range_down n
    (fun i trees =>
       for_range (i + 1)
         (backward_node american option_type strike p discount price_tree i)
         trees)
    trees.

(** [calculate_price]: the result and the instance with its stored trees.
    A zero step count makes [time_to_maturity / num_steps] raise; a step
    count below [-1] makes [np.zeros] raise; with [-1] the arrays are empty
    and reading [option_tree[0][0]] raises after the trees were stored. *)
Definition calculate_price (self : BinomialTreeModel)
    (spot strike time_to_maturity risk_free_rate volatility : R)
    (option_type : string) : result R * BinomialTreeModel :=
  match validate_inputs spot strike time_to_maturity risk_free_rate
          volatility option_type with
  | Raise e => (Raise e, self)
  | Ok _ =>
    let option_type := _get_option_type option_type in
    if (num_steps self =? 0)%Z then (Raise ZeroDivisionError, self)
    else if (num_steps self <? -1)%Z then (Raise NegativeDimensions, self)
    else if (num_steps self =? -1)%Z then
      (Raise IndexError,
       store_trees self (np_zeros 0 0 0) (np_zeros 0 0 0) (np_zeros 0 0 false))
    else
      let n := Z.to_nat (num_steps self) in
      let c := crr_parameters time_to_maturity risk_free_rate volatility
                 (num_steps self) in
      let price_tree := build_price_tree n spot (crr_u c) (crr_d c) in
      let option_tree := np_zeros (n + 1) (n + 1) 0 in
      let exercise_tree := np_zeros (n + 1) (n + 1) false in
      let option_tree :=
        terminal_values n option_type strike price_tree option_tree in
      let '(option_tree, exercise_tree) :=
        backward_induction n (american self) option_type strike
          (crr_p c) (crr_discount c) price_tree (option_tree, exercise_tree) in
      (Ok (cell option_tree 0 0),
       store_trees self price_tree option_tree exercise_tree)
  end.

End BinomialTree.

(** ** One-dimensional arrays and their statistics *)

(** [np.sum], [np.mean] and [np.std] (population standard deviation) of a
    one-dimensional array, held as a list. *)
Definition np_sum (l : list R) : R := fold_right Rplus 0 l.

Definition np_mean (l : list R) : R := np_sum l / INR (List.length l).

Definition np_std (l : list R) : R :=
  sqrt (np_mean (map (fun x => (x - np_mean l) ^ 2) l)).

(** Row [t] of a two-dimensional array. *)
Definition row (a : ndarray R) (t : nat) : list R :=
  map (cell a t) (seq 0 (ncols a)).

(** [a[t] = v], with [v] a row. *)
Definition setrow (a : ndarray R) (t : nat) (v : nat -> R) : ndarray R :=
  mk_ndarray (nrows a) (ncols a)
    (fun t' k => if (t' =? t)%nat then v k else cell a t' k).

(** [np.concatenate([a, -a], axis=1)]. *)
Definition concatenate_negated (a : ndarray R) : ndarray R :=
  mk_ndarray (nrows a) (ncols a + ncols a)
    (fun t k => if (k <? ncols a)%nat then cell a t k
                else - cell a t (k - ncols a)).

(** [for k in range(lo, hi): s = body k s]. *)
Definition for_range_from {St : Type} (lo hi : nat) (body : nat -> St -> St) (s : St) : St :=
  fold_left (fun s k => body k s) (seq lo (hi - lo)) s.

(** ** models/monte_carlo.py: [MonteCarloModel] *)

Module MonteCarlo.
Import BaseModel.

Record MonteCarloModel : Type := mk_model {
  num_simulations : Z;
  num_steps : Z;
  seed : option Z;
  antithetic : bool
}.

Definition set_num_simulations (self : MonteCarloModel) (n : Z) : MonteCarloModel :=
  mk_model n (num_steps self) (seed self) (antithetic self).

(** The dictionary returned by [calculate_price_with_confidence]. *)
Record ConfidenceResult : Type := mk_confidence {
  price : R;
  std_error : R;
  lower_bound : R;
  upper_bound : R;
  confidence_level : R
}.

Section Generator.

(** numpy's global generator: its state, [np.random.seed] and
    [np.random.standard_normal((rows, cols))], which returns the drawn
    matrix and the advanced state. *)
Variable rng : Type.
Variable np_random_seed : Z -> rng.
Variable standard_normal : rng -> nat -> nat -> (nat -> nat -> R) * rng.

(** [scipy.stats.norm.ppf], the standard normal quantile function. *)
Variable norm_ppf : R -> R.

(** [__init__]: stores the configuration and seeds the global generator
    when a seed is given. *)
Definition init (num_simulations num_steps : Z) (seed : option Z)
    (antithetic : bool) (g : rng) : MonteCarloModel * rng :=
  (mk_model num_simulations num_steps seed antithetic,
   match seed with
   | Some s => np_random_seed s
   | None => g
   end).

(** "Simulate price paths using geometric Brownian motion". *)
Definition simulate_paths (steps : nat) (spot drift diffusion : R)
    (random_numbers : ndarray R) : ndarray R :=
  let price_paths := np_zeros (steps + 1) (ncols random_numbers) 0 in
  let price_paths := setrow price_paths 0 (fun _ => spot) in
  for_range_from 1 (steps + 1)
    (fun t price_paths =>
       setrow price_paths t
         (fun k => cell price_paths (t - 1) k *
                   exp (drift + diffusion * cell random_numbers (t - 1) k)))
    price_paths.

(** [np.maximum(final_prices - strike, 0)] or [np.maximum(strike - final_prices, 0)]. *)
Definition payoffs (option_type : string) (strike : R) (final_prices : list R)
    : list R :=
  if string_dec option_type "call" then
    map (fun s => Rmax (s - strike) 0) final_prices
  else
    map (fun s => Rmax (strike - s) 0) final_prices.

(** [calculate_price]: the result and the state of the global generator.
    [//] is floor division; a zero step count makes the division raise and a
    negative dimension makes [standard_normal] raise. *)
Definition calculate_price (self : MonteCarloModel)
    (spot strike time_to_maturity risk_free_rate volatility : R)
    (option_type : string) (g : rng) : result R * rng :=
  match validate_inputs spot strike time_to_maturity risk_free_rate
          volatility option_type with
  | Raise e => (Raise e, g)
  | Ok _ =>
    let option_type := _get_option_type option_type in
    if (num_steps self =? 0)%Z then (Raise ZeroDivisionError, g)
    else
      let dt := time_to_maturity / IZR (num_steps self) in
      let num_sims :=
        if antithetic self then (num_simulations self / 2)%Z
        else num_simulations self in
      if (num_steps self <? 0)%Z || (num_sims <? 0)%Z then
        (Raise NegativeDimensions, g)
      else
        let steps := Z.to_nat (num_steps self) in
        let '(z, g') := standard_normal g steps (Z.to_nat num_sims) in
        let random_numbers := mk_ndarray steps (Z.to_nat num_sims) z in
        let random_numbers :=
          if antithetic self then concatenate_negated random_numbers
          else random_numbers in
        let drift := (risk_free_rate - 0.5 * volatility ^ 2) * dt in
        let diffusion := volatility * sqrt dt in
        let price_paths :=
          simulate_paths steps spot drift diffusion random_numbers in
        let final_prices := row price_paths (nrows price_paths - 1) in
        let payoffs := payoffs option_type strike final_prices in
        let option_price :=
          exp (- risk_free_rate * time_to_maturity) * np_mean payoffs in
        (Ok option_price, g')
  end.

(** One iteration of the batch loop of [calculate_price_with_confidence]:
    the batch prices so far (or the exception being propagated), the
    instance and the generator state. *)
Definition batch_step (batch_size : Z)
    (spot strike time_to_maturity risk_free_rate volatility : R)
    (option_type : string)
    (st : result (list R) * MonteCarloModel * rng)
    : result (list R) * MonteCarloModel * rng :=
  match st with
  | (Raise e, self, g) => (Raise e, self, g)
  | (Ok batch_prices, self, g) =>
    let original_sims := num_simulations self in
    let self := set_num_simulations self batch_size in
    match calculate_price self spot strike time_to_maturity risk_free_rate
            volatility option_type g with
    | (Raise e, g') => (Raise e, self, g')
    | (Ok price, g') =>
      (Ok (batch_prices ++ [price]),
       set_num_simulations self original_sims, g')
    end
  end.

Definition calculate_price_with_confidence (self : MonteCarloModel)
    (spot strike time_to_maturity risk_free_rate volatility : R)
    (option_type : string) (confidence_level : R) (g : rng)
    : result ConfidenceResult * MonteCarloModel * rng :=
  let num_batches := 10%nat in
  let batch_size := (num_simulations self / 10)%Z in
  match for_range num_batches
          (fun _ => batch_step batch_size spot strike time_to_maturity
                      risk_free_rate volatility option_type)
          (Ok [], self, g) with
  | (Raise e, self, g') => (Raise e, self, g')
  | (Ok batch_prices, self, g') =>
    let mean_price := np_mean batch_prices in
    let std_error := np_std batch_prices / sqrt (INR num_batches) in
    let z_score := norm_ppf ((1 + confidence_level) / 2) in
    let margin := z_score * std_error in
    (Ok (mk_confidence mean_price std_error (mean_price - margin)
           (mean_price + margin) confidence_level),
     self, g')
  end.

End Generator.

End MonteCarlo.

(** ** calculations/greeks.py: [GreeksCalculator] *)

Module Greeks.

(** [_calculate_d1]: the calculator's own copy of the formula. *)
Definition _calculate_d1
    (spot strike time_to_maturity risk_free_rate volatility : R) : result R :=
  if Req_dec_T strike 0 then Raise ZeroDivisionError
  else
    let numerator :=
      ln (spot / strike) +
      (risk_free_rate + 0.5 * volatility ^ 2) * time_to_maturity in
    let denominator := volatility * sqrt time_to_maturity in
    Ok (numerator / denominator).

Definition delta (spot strike time_to_maturity risk_free_rate volatility : R)
    (option_type : string) : result R :=
  d1 <- _calculate_d1 spot strike time_to_maturity risk_free_rate volatility ;;
  if string_dec (lower option_type) "call" then Ok (norm_cdf d1)
  else Ok (norm_cdf d1 - 1).

Definition gamma (spot strike time_to_maturity risk_free_rate volatility : R)
    : result R :=
  d1 <- _calculate_d1 spot strike time_to_maturity risk_free_rate volatility ;;
  Ok (norm_pdf d1 / (spot * volatility * sqrt time_to_maturity)).

Definition theta (spot strike time_to_maturity risk_free_rate volatility : R)
    (option_type : string) : result R :=
  d1 <- _calculate_d1 spot strike time_to_maturity risk_free_rate volatility ;;
  let d2 := d1 - volatility * sqrt time_to_maturity in
  let term1 :=
    - (spot * norm_pdf d1 * volatility) / (2 * sqrt time_to_maturity) in
  let theta :=
    if string_dec (lower option_type) "call" then
      let term2 :=
        risk_free_rate * strike * exp (- risk_free_rate * time_to_maturity) *
        norm_cdf d2 in
      term1 - term2
    else
      let term2 :=
        risk_free_rate * strike * exp (- risk_free_rate * time_to_maturity) *
        norm_cdf (- d2) in
      term1 + term2 in
  Ok (theta / 365).

Definition vega (spot strike time_to_maturity risk_free_rate volatility : R)
    : result R :=
  d1 <- _calculate_d1 spot strike time_to_maturity risk_free_rate volatility ;;
  Ok (spot * norm_pdf d1 * sqrt time_to_maturity / 100).

Definition rho (spot strike time_to_maturity risk_free_rate volatility : R)
    (option_type : string) : result R :=
  d1 <- _calculate_d1 spot strike time_to_maturity risk_free_rate volatility ;;
  let d2 := d1 - volatility * sqrt time_to_maturity in
  let rho :=
    if string_dec (lower option_type) "call" then
      strike * time_to_maturity *
      exp (- risk_free_rate * time_to_maturity) * norm_cdf d2
    else
      - strike * time_to_maturity *
      exp (- risk_free_rate * time_to_maturity) * norm_cdf (- d2) in
  Ok (rho / 100).

(** The dictionary returned by [calculate_all_greeks]. *)
Record GreeksBundle : Type := mk_greeks {
  Delta : R;
  Gamma : R;
  Theta : R;
  Vega : R;
  Rho : R
}.

Definition calculate_all_greeks
    (spot strike time_to_maturity risk_free_rate volatility : R)
    (option_type : string) : result GreeksBundle :=
  de <- delta spot strike time_to_maturity risk_free_rate volatility option_type ;;
  ga <- gamma spot strike time_to_maturity risk_free_rate volatility ;;
  th <- theta spot strike time_to_maturity risk_free_rate volatility option_type ;;
  ve <- vega spot strike time_to_maturity risk_free_rate volatility ;;
  rh <- rho spot strike time_to_maturity risk_free_rate volatility option_type ;;
  Ok (mk_greeks de ga th ve rh).

End Greeks.

(** ** strategies/options.py: [OptionLeg] and [OptionStrategy] *)

Module Strategy.
Local Open Scope Q_scope.

Record OptionLeg : Type := mk_leg {
  option_type : string;
  strike : Q;
  position : string;
  quantity : Z;
  premium : Q
}.

(** [OptionLeg.payoff]. *)
Definition payoff (self : OptionLeg) (spot : Q) : Q :=
  let intrinsic :=
    if string_dec (option_type self) "call" then Qmax (spot - strike self) 0
    else Qmax (strike self - spot) 0 in
  if string_dec (position self) "long" then
    (intrinsic - premium self) * inject_Z (quantity self)
  else
    (premium self - intrinsic) * inject_Z (quantity self).

(** The builtin [sum] of a sequence of floats. *)
Definition py_sum (l : list Q) : Q := fold_left Qplus l 0.

(** [OptionStrategy.calculate_payoff]. *)
Definition calculate_payoff (legs : list OptionLeg) (spot_range : list Q) : list Q :=
  map (fun spot => py_sum (map (fun leg => payoff leg spot) legs)) spot_range.

(** [OptionStrategy.net_premium]. *)
Definition net_premium (legs : list OptionLeg) : Q :=
  fold_left
    (fun net leg =>
       if string_dec (position leg) "long" then
         net - premium leg * inject_Z (quantity leg)
       else
         net + premium leg * inject_Z (quantity leg))
    legs 0.

(** [np.linspace(start, stop, num)]: [num] evenly spaced samples
    [start + k * step] with [step = (stop - start) / (num - 1)]. *)
Definition linspace (start stop : Q) (num : nat) : list Q :=
  let step := (stop - start) / inject_Z (Z.of_nat num - 1) in
  map (fun k => start + inject_Z (Z.of_nat k) * step) (seq 0 num).

(** The builtins [min] and [max] of a list; they raise on an empty list. *)
Definition py_min (l : list Q) : result Q :=
  match l with
  | [] => Raise (ValueError "min() arg is an empty sequence" (PyStr ""))
  | x :: l' => Ok (fold_left Qmin l' x)
  end.

Definition py_max (l : list Q) : result Q :=
  match l with
  | [] => Raise (ValueError "max() arg is an empty sequence" (PyStr ""))
  | x :: l' => Ok (fold_left Qmax l' x)
  end.

(** [OptionStrategy._get_analysis_range]. *)
Definition _get_analysis_range (legs : list OptionLeg) : result (list Q) :=
  let strikes := map strike legs in
  min_strike <- py_min strikes ;;
  max_strike <- py_max strikes ;;
  let range_width := max_strike - min_strike in
  let start := Qmax (min_strike - 0.5 * range_width) 0.01 in
  let end_ := max_strike + 0.5 * range_width in
  Ok (linspace start end_ 1000).

(** [np.max] and [np.min] of a non-empty array. *)
Definition np_max (l : list Q) : Q := fold_left Qmax (tl l) (hd 0 l).
Definition np_min (l : list Q) : Q := fold_left Qmin (tl l) (hd 0 l).

(** [OptionStrategy.max_profit] and [OptionStrategy.max_loss]. *)
Definition max_profit (legs : list OptionLeg) : result Q :=
  spot_range <- _get_analysis_range legs ;;
  let payoffs := calculate_payoff legs spot_range in
  Ok (np_max payoffs).

Definition max_loss (legs : list OptionLeg) : result Q :=
  spot_range <- _get_analysis_range legs ;;
  let payoffs := calculate_payoff legs spot_range in
  Ok (np_min payoffs).

(** The linear interpolation of the zero crossing between samples [i] and [i + 1]. *)
Definition interpolate (spot_range payoffs : list Q) (i : nat) : Q :=
  nth i spot_range 0 -
  nth i payoffs 0 * (nth (i + 1) spot_range 0 - nth i spot_range 0) /
  (nth (i + 1) payoffs 0 - nth i payoffs 0).

(** The scan of [break_even_points] over given samples. *)
Definition scan_break_evens (spot_range payoffs : list Q) : list Q :=
  for_range (List.length payoffs - 1)
    (fun i break_evens =>
       if Qlt_le_dec (nth i payoffs 0 * nth (i + 1) payoffs 0) 0 then
         break_evens ++ [interpolate spot_range payoffs i]
       else break_evens)
    [].

(** [OptionStrategy.break_even_points]. *)
Definition break_even_points (legs : list OptionLeg) : result (list Q) :=
  spot_range <- _get_analysis_range legs ;;
  let payoffs := calculate_payoff legs spot_range in
  Ok (scan_break_evens spot_range payoffs).

End Strategy.

(** * Properties *)

(** ** Parameter validation *)

Lemma Rleb_true (x y : R) : Rleb x y = true <-> x <= y.
Proof. unfold Rleb. destruct (Rle_dec x y); split; intros; try lra; discriminate. Qed.

Lemma Rleb_false (x y : R) : Rleb x y = false <-> y < x.
Proof. unfold Rleb. destruct (Rle_dec x y); split; intros; try lra; discriminate. Qed.

Lemma Rltb_true (x y : R) : Rltb x y = true <-> x < y.
Proof. unfold Rltb. destruct (Rlt_dec x y); split; intros; try lra; discriminate. Qed.

Lemma Rltb_false (x y : R) : Rltb x y = false <-> y <= x.
Proof. unfold Rltb. destruct (Rlt_dec x y); split; intros; try lra; discriminate. Qed.

(** The checks as the specification lists them: the name of the field, the
    condition that must hold, and the value that is reported. *)
Definition field_checks
    (spot strike time_to_maturity risk_free_rate volatility : R)
    (option_type : string) : list (string * bool * pyvalue) :=
  [ ("Spot price"%string, Rltb 0 spot, PyFloat spot);
    ("Strike price"%string, Rltb 0 strike, PyFloat strike);
    ("Time to maturity"%string, Rltb 0 time_to_maturity, PyFloat time_to_maturity);
    ("Volatility"%string, Rltb 0 volatility, PyFloat volatility);
    ("Risk-free rate"%string,
     Rleb (-0.1) risk_free_rate && Rleb risk_free_rate 0.5,
     PyFloat risk_free_rate);
    ("Option type"%string,
     str_in (lower option_type) ["call"; "put"]%string,
     PyStr option_type) ].

(** The first check of the list that fails, if any. *)
Definition first_violation
    (spot strike time_to_maturity risk_free_rate volatility : R)
    (option_type : string) : option (string * bool * pyvalue) :=
  find (fun c => negb (snd (fst c)))
    (field_checks spot strike time_to_maturity risk_free_rate volatility
       option_type).

(** All six conditions hold. *)
Definition valid_inputs
    (spot strike time_to_maturity risk_free_rate volatility : R)
    (option_type : string) : Prop :=
  0 < spot /\ 0 < strike /\ 0 < time_to_maturity /\ 0 < volatility /\
  -0.1 <= risk_free_rate <= 0.5 /\
  (lower option_type = "call"%string \/ lower option_type = "put"%string).

Lemma Rltb_pos_Rleb (x : R) : Rltb 0 x = negb (Rleb x 0).
Proof.
  unfold Rltb, Rleb. destruct (Rlt_dec 0 x), (Rle_dec x 0); simpl; try reflexivity; lra.
Qed.

Lemma rate_check (r : R) :
  Rleb (-0.1) r && Rleb r 0.5 = negb (Rltb r (-0.1) || Rltb 0.5 r).
Proof.
  unfold Rltb, Rleb.
  destruct (Rle_dec (-0.1) r), (Rle_dec r 0.5), (Rlt_dec r (-0.1)), (Rlt_dec 0.5 r);
    simpl; try reflexivity; lra.
Qed.

Lemma validate_inputs_ok_iff spot strike T r vol ot :
  BaseModel.validate_inputs spot strike T r vol ot = Ok true <->
  valid_inputs spot strike T r vol ot.
Proof.
  unfold BaseModel.validate_inputs, valid_inputs.
  destruct (Rleb spot 0) eqn:E1.
  { split; [discriminate|]. apply Rleb_true in E1. lra. }
  destruct (Rleb strike 0) eqn:E2.
  { split; [discriminate|]. apply Rleb_true in E2. lra. }
  destruct (Rleb T 0) eqn:E3.
  { split; [discriminate|]. apply Rleb_true in E3. lra. }
  destruct (Rleb vol 0) eqn:E4.
  { split; [discriminate|]. apply Rleb_true in E4. lra. }
  apply Rleb_false in E1, E2, E3, E4.
  destruct (Rltb r (-0.1)) eqn:E5.
  { split; [discriminate|]. apply Rltb_true in E5. simpl. lra. }
  destruct (Rltb 0.5 r) eqn:E6.
  { split; [discriminate|]. apply Rltb_true in E6. simpl. lra. }
  apply Rltb_false in E5, E6. simpl.
  destruct (string_dec (lower ot) "call") as [Hc|Hc]; simpl.
  { split; intros; [|reflexivity]. repeat split; auto; lra. }
  destruct (string_dec (lower ot) "put") as [Hp|Hp]; simpl.
  { split; intros; [|reflexivity]. repeat split; auto; lra. }
  split; [discriminate|]. intros (_ & _ & _ & _ & _ & [H|H]); contradiction.
Qed.

Lemma validate_inputs_result spot strike T r vol ot :
  BaseModel.validate_inputs spot strike T r vol ot = Ok true \/
  exists msg v, BaseModel.validate_inputs spot strike T r vol ot =
                Raise (ValueError msg v).
Proof.
  unfold BaseModel.validate_inputs.
  repeat match goal with
         | |- context [if ?b then _ else _] => destruct b; eauto
         end.
Qed.

(** C2: in each of the three pricers the preconditions are checked first
    and in the order spot, strike, time to maturity, volatility, rate,
    option type (lowercased); the first one that fails raises a
    [ValueError] whose message starts with the name of that field and ends
    with its value; nothing else has happened by then (the stored trees of
    the binomial model and the state of the random generator are
    untouched); when none fails, validation returns [True].  In particular
    a spot of [-1] is reported as the spot price and the option type
    [straddle] as the option type. *)
Theorem validation_first_violation_raises :
  (forall spot strike T r vol ot,
     match first_violation spot strike T r vol ot with
     | None => BaseModel.validate_inputs spot strike T r vol ot = Ok true
     | Some (name, _, v) =>
       exists msg,
         prefix name msg = true /\
         BaseModel.validate_inputs spot strike T r vol ot =
           Raise (ValueError msg v) /\
         BlackScholes.calculate_price spot strike T r vol ot =
           Raise (ValueError msg v) /\
         (forall self,
            BinomialTree.calculate_price self spot strike T r vol ot =
              (Raise (ValueError msg v), self)) /\
         (forall rng standard_normal self (g : rng),
            MonteCarlo.calculate_price rng standard_normal self
              spot strike T r vol ot g = (Raise (ValueError msg v), g))
     end) /\
  (forall strike T r vol ot,
     first_violation (-1) strike T r vol ot =
       Some ("Spot price"%string, false, PyFloat (-1)) /\
     BlackScholes.calculate_price (-1) strike T r vol ot =
       Raise (ValueError "Spot price must be positive. Got: " (PyFloat (-1)))) /\
  (first_violation 100 100 1 0.05 0.2 "straddle" =
     Some ("Option type"%string, false, PyStr "straddle") /\
   BlackScholes.calculate_price 100 100 1 0.05 0.2 "straddle" =
     Raise (ValueError "Option type must be 'call' or 'put'. Got: "
              (PyStr "straddle"))).
Proof.
  split; [|split].
  - intros spot strike T r vol ot.
    unfold first_violation, field_checks, find, fst, snd.
    unfold BlackScholes.calculate_price, BinomialTree.calculate_price,
      MonteCarlo.calculate_price, BaseModel.validate_inputs.
    rewrite !Rltb_pos_Rleb, rate_check, !negb_involutive.
    destruct (Rleb spot 0); [eexists; repeat split; reflexivity|].
    destruct (Rleb strike 0); [eexists; repeat split; reflexivity|].
    destruct (Rleb T 0); [eexists; repeat split; reflexivity|].
    destruct (Rleb vol 0); [eexists; repeat split; reflexivity|].
    destruct (Rltb r (-0.1) || Rltb 0.5 r); [eexists; repeat split; reflexivity|].
    destruct (str_in (lower ot) ["call"%string; "put"%string]);
      [reflexivity | eexists; repeat split; reflexivity].
  - intros strike T r vol ot.
    unfold first_violation, field_checks, find, fst, snd,
      BlackScholes.calculate_price, BaseModel.validate_inputs.
    assert (H1 : Rltb 0 (-1) = false) by (apply Rltb_false; lra).
    assert (H2 : Rleb (-1) 0 = true) by (apply Rleb_true; lra).
    rewrite H1, H2. split; reflexivity.
  - unfold first_violation, field_checks, find, fst, snd,
      BlackScholes.calculate_price, BaseModel.validate_inputs.
    assert (H1 : Rltb 0 100 = true) by (apply Rltb_true; lra).
    assert (H2 : Rltb 0 1 = true) by (apply Rltb_true; lra).
    assert (H3 : Rltb 0 0.2 = true) by (apply Rltb_true; lra).
    assert (H4 : Rleb (-0.1) 0.05 = true) by (apply Rleb_true; lra).
    assert (H5 : Rleb 0.05 0.5 = true) by (apply Rleb_true; lra).
    assert (H6 : Rleb 100 0 = false) by (apply Rleb_false; lra).
    assert (H7 : Rleb 1 0 = false) by (apply Rleb_false; lra).
    assert (H8 : Rleb 0.2 0 = false) by (apply Rleb_false; lra).
    assert (H9 : Rltb 0.05 (-0.1) = false) by (apply Rltb_false; lra).
    assert (H10 : Rltb 0.5 0.05 = false) by (apply Rltb_false; lra).
    rewrite H1, H2, H3, H4, H5, H6, H7, H8, H9, H10. split; reflexivity.
Qed.

(** ** Loops and arrays *)

Lemma for_range_0 {St : Type} (body : nat -> St -> St) (s : St) :
  for_range 0 body s = s.
Proof. reflexivity. Qed.

Lemma for_range_S {St : Type} (n : nat) (body : nat -> St -> St) (s : St) :
  for_range (S n) body s = body n (for_range n body s).
Proof. unfold for_range. rewrite seq_S, fold_left_app. reflexivity. Qed.

Lemma for_range_down_S {St : Type} (n : nat) (body : nat -> St -> St) (s : St) :
  for_range_down (S n) body s = for_range_down n body (body n s).
Proof. unfold for_range_down. rewrite seq_S, rev_app_distr. reflexivity. Qed.

(** A loop that fills row [i] with values that do not depend on the array. *)
Lemma for_range_setitem_row {A : Type} (f : nat -> A) (i m : nat) (a : ndarray A)
    (i' j' : nat) :
  cell (for_range m (fun j a => setitem a i j (f j)) a) i' j' =
  if (i' =? i)%nat && (j' <? m)%nat then f j' else cell a i' j'.
Proof.
  induction m as [|m IH].
  - rewrite for_range_0. rewrite andb_false_r. reflexivity.
  - rewrite for_range_S. unfold setitem at 1. cbn [cell]. rewrite IH.
    destruct (Nat.eqb_spec i' i) as [Hi|Hi]; simpl; [|reflexivity].
    destruct (Nat.eqb_spec j' m) as [Hj|Hj].
    + subst j'. replace (m <? S m)%nat with true
        by (symmetry; apply Nat.ltb_lt; lia). reflexivity.
    + destruct (Nat.ltb_spec j' m), (Nat.ltb_spec j' (S m)); try reflexivity; lia.
Qed.

(** ** The binomial lattice *)

Module BinomialTreeFacts.
Import BinomialTree.

Lemma build_price_tree_cell (n : nat) (spot u d : R) (i j : nat) :
  (i <= n)%nat -> (j <= i)%nat ->
  cell (build_price_tree n spot u d) i j = spot * u ^ j * d ^ (i - j).
Proof.
  intros Hi Hj. unfold build_price_tree.
  assert (Hinv : forall m, (i < m)%nat ->
    cell (for_range m
            (fun i0 price_tree =>
               for_range (i0 + 1)
                 (fun j0 price_tree =>
                    setitem price_tree i0 j0 (spot * u ^ j0 * d ^ (i0 - j0)))
                 price_tree)
            (np_zeros (n + 1) (n + 1) 0)) i j = spot * u ^ j * d ^ (i - j)).
  { induction m as [|m IH]; intros Hm; [lia|].
    rewrite for_range_S.
    rewrite (for_range_setitem_row (fun j0 => spot * u ^ j0 * d ^ (m - j0))).
    destruct (Nat.eqb_spec i m) as [E|E]; simpl.
    - subst m. replace (j <? i + 1)%nat with true
        by (symmetry; apply Nat.ltb_lt; lia). reflexivity.
    - apply IH. lia. }
  apply Hinv. lia.
Qed.

Lemma terminal_values_cell (n : nat) (ot : string) (strike : R)
    (price_tree option_tree : ndarray R) (i j : nat) :
  cell (terminal_values n ot strike price_tree option_tree) i j =
  if (i =? n)%nat && (j <? n + 1)%nat
  then exercise_payoff ot strike (cell price_tree n j)
  else cell option_tree i j.
Proof.
  unfold terminal_values.
  apply (for_range_setitem_row
           (fun j0 => exercise_payoff ot strike (cell price_tree n j0))).
Qed.

(** The value the backward induction writes at a node, from the values of
    its two successors and the underlying price at the node. *)
Definition node_value (american : bool) (ot : string) (strike p discount : R)
    (v_up v_down price : R) : R :=
  let continuation_value := discount * (p * v_up + (1 - p) * v_down) in
  if american then
    let exercise_value := exercise_payoff ot strike price in
    if Rltb continuation_value exercise_value then exercise_value
    else continuation_value
  else continuation_value.

Lemma backward_node_option_tree american ot strike p discount price_tree i j o e :
  fst (backward_node american ot strike p discount price_tree i j (o, e)) =
  setitem o i j
    (node_value american ot strike p discount
       (cell o (i + 1) (j + 1)) (cell o (i + 1) j) (cell price_tree i j)).
Proof.
  unfold backward_node, node_value.
  destruct american; [|reflexivity].
  destruct (Rltb _ _); reflexivity.
Qed.

(** The inner loop of the backward induction fills row [i] from row [i + 1]. *)
Lemma backward_row_cell american ot strike p discount price_tree i m trees i' j' :
  cell (fst (for_range m
               (backward_node american ot strike p discount price_tree i)
               trees)) i' j' =
  if (i' =? i)%nat && (j' <? m)%nat then
    node_value american ot strike p discount
      (cell (fst trees) (i + 1) (j' + 1)) (cell (fst trees) (i + 1) j')
      (cell price_tree i j')
  else cell (fst trees) i' j'.
Proof.
  revert i' j'. induction m as [|m IH]; intros i' j'.
  - rewrite for_range_0, andb_false_r. reflexivity.
  - rewrite for_range_S.
    destruct (for_range m _ trees) as [o e] eqn:E.
    rewrite backward_node_option_tree. unfold setitem. cbn [cell fst] in *.
    destruct (Nat.eqb_spec i' i) as [Hi|Hi]; simpl.
    + destruct (Nat.eqb_spec j' m) as [Hj|Hj].
      * subst j'. replace (m <? S m)%nat with true
          by (symmetry; apply Nat.ltb_lt; lia).
        rewrite !IH.
        replace (i + 1 =? i)%nat with false
          by (symmetry; apply Nat.eqb_neq; lia).
        reflexivity.
      * rewrite IH. subst i'. rewrite Nat.eqb_refl. simpl.
        destruct (Nat.ltb_spec j' m), (Nat.ltb_spec j' (S m)); try reflexivity; lia.
    + rewrite IH.
      replace (i' =? i)%nat with false by (symmetry; apply Nat.eqb_neq; lia).
      reflexivity.
Qed.

Section Lattice.

Variables (n : nat) (american : bool) (ot : string).
Variables (spot strike u d p discount : R).

(** The recurrence of the lattice: [lattice_value k i j] is the value at
    node [(i, j)] when [k] steps remain to expiration. *)
Fixpoint lattice_value (k i j : nat) : R :=
  match k with
  | O => exercise_payoff ot strike (spot * u ^ j * d ^ (i - j))
  | S k' =>
    node_value american ot strike p discount
      (lattice_value k' (i + 1) (j + 1)) (lattice_value k' (i + 1) j)
      (spot * u ^ j * d ^ (i - j))
  end.

Let price_tree := build_price_tree n spot u d.

Lemma backward_induction_cell (m : nat) (trees : ndarray R * ndarray bool) :
  (m <= n)%nat ->
  (forall i j, (m <= i <= n)%nat -> (j <= i)%nat ->
     cell (fst trees) i j = lattice_value (n - i) i j) ->
  forall i j, (i <= n)%nat -> (j <= i)%nat ->
    cell (fst (for_range_down m
                 (fun i trees =>
                    for_range (i + 1)
                      (backward_node american ot strike p discount price_tree i)
                      trees)
                 trees)) i j = lattice_value (n - i) i j.
Proof.
  revert trees. induction m as [|m IH]; intros trees Hm Hrows i j Hi Hj.
  - unfold for_range_down. simpl. apply Hrows; lia.
  - rewrite for_range_down_S. apply IH; try lia.
    intros i0 j0 Hi0 Hj0. rewrite backward_row_cell.
    destruct (Nat.eqb_spec i0 m) as [E|E]; simpl.
    + subst i0. replace (j0 <? m + 1)%nat with true
        by (symmetry; apply Nat.ltb_lt; lia).
      rewrite !Hrows by lia.
      unfold price_tree. rewrite build_price_tree_cell by lia.
      replace (n - m)%nat with (S (n - (m + 1))) by lia. reflexivity.
    + apply Hrows; lia.
Qed.

(** The option tree after the terminal payoffs and the backward induction. *)
Lemma option_tree_cell (e : ndarray bool) (i j : nat) :
  (i <= n)%nat -> (j <= i)%nat ->
  cell (fst (backward_induction n american ot strike p discount price_tree
               (terminal_values n ot strike price_tree
                  (np_zeros (n + 1) (n + 1) 0), e))) i j =
  lattice_value (n - i) i j.
Proof.
  intros Hi Hj. unfold backward_induction.
  apply backward_induction_cell; try lia.
  intros i0 j0 Hi0 Hj0. cbn [fst]. rewrite terminal_values_cell.
  assert (i0 = n) by lia. subst i0. rewrite Nat.eqb_refl.
  replace (j0 <? n + 1)%nat with true by (symmetry; apply Nat.ltb_lt; lia).
  simpl. unfold price_tree. rewrite build_price_tree_cell by lia.
  rewrite Nat.sub_diag. reflexivity.
Qed.

End Lattice.

(** On valid inputs and a positive step count, [calculate_price] returns the
    root of the lattice and stores the option tree. *)
Lemma calculate_price_lattice (self : BinomialTreeModel) spot strike T r vol ot :
  valid_inputs spot strike T r vol ot ->
  (1 <= num_steps self)%Z ->
  let n := Z.to_nat (num_steps self) in
  let c := crr_parameters T r vol (num_steps self) in
  let V := lattice_value (american self) (BaseModel._get_option_type ot)
             spot strike (crr_u c) (crr_d c) (crr_p c) (crr_discount c) in
  exists self',
    calculate_price self spot strike T r vol ot = (Ok (V n 0 0)%nat, self') /\
    exists option_tree,
      _last_option_tree self' = Some option_tree /\
      forall i j, (i <= n)%nat -> (j <= i)%nat ->
        cell option_tree i j = V (n - i)%nat i j.
Proof.
  intros Hvalid Hsteps n c V.
  unfold calculate_price.
  apply validate_inputs_ok_iff in Hvalid. rewrite Hvalid.
  replace (num_steps self =? 0)%Z with false by (symmetry; apply Z.eqb_neq; lia).
  replace (num_steps self <? -1)%Z with false by (symmetry; apply Z.ltb_ge; lia).
  replace (num_steps self =? -1)%Z with false by (symmetry; apply Z.eqb_neq; lia).
  fold n. fold c.
  destruct (backward_induction n (american self) (BaseModel._get_option_type ot)
              strike (crr_p c) (crr_discount c)
              (build_price_tree n spot (crr_u c) (crr_d c))
              (terminal_values n (BaseModel._get_option_type ot) strike
                 (build_price_tree n spot (crr_u c) (crr_d c))
                 (np_zeros (n + 1) (n + 1) 0),
               np_zeros (n + 1) (n + 1) false)) as [o e] eqn:E.
  assert (Hcell : forall i j, (i <= n)%nat -> (j <= i)%nat ->
                    cell o i j = V (n - i)%nat i j).
  { intros i j Hi Hj.
    pose proof (option_tree_cell n (american self) (BaseModel._get_option_type ot)
                  spot strike (crr_u c) (crr_d c) (crr_p c) (crr_discount c)
                  (np_zeros (n + 1) (n + 1) false) i j Hi Hj) as H.
    rewrite E in H. exact H. }
  eexists. split.
  - rewrite (Hcell 0%nat 0%nat) by lia. rewrite Nat.sub_0_r. reflexivity.
  - exists o. split; [reflexivity|exact Hcell].
Qed.

End BinomialTreeFacts.

(** ** Elementary bounds on the exponential *)

Lemma exp_lower (x : R) : 1 + x <= exp x.
Proof. apply exp_ineq1_le. Qed.

Lemma exp_upper (x : R) : x < 1 -> exp x <= / (1 - x).
Proof.
  intro Hx.
  pose proof (exp_ineq1_le (- x)) as H.
  pose proof (exp_pos x) as Hp.
  assert (E : exp x * exp (- x) = 1)
    by (rewrite <- exp_plus, Rplus_opp_r; apply exp_0).
  apply Rmult_le_reg_r with (1 - x); [lra|].
  rewrite Rinv_l by lra.
  replace 1 with (exp x * exp (- x)) at 2 by exact E.
  apply Rmult_le_compat_l; lra.
Qed.

Lemma exp_neg_inv (x : R) : exp (- x) = 1 / exp x.
Proof. rewrite exp_Ropp. lra. Qed.

(** ** American and European prices on the lattice *)

Module BinomialTreeProperties.
Import BinomialTree BinomialTreeFacts.




Lemma node_value_american_ge_european ot strike p discount a_up a_down e_up e_down price :
  0 <= p <= 1 -> 0 <= discount -> e_up <= a_up -> e_down <= a_down ->
  node_value false ot strike p discount e_up e_down price <=
  node_value true ot strike p discount a_up a_down price.
Proof.
  intros Hp Hd Hup Hdown. unfold node_value.
  assert (Hc : discount * (p * e_up + (1 - p) * e_down) <=
               discount * (p * a_up + (1 - p) * a_down)).
  { apply Rmult_le_compat_l; [exact Hd|].
    apply Rplus_le_compat; apply Rmult_le_compat_l; lra. }
  destruct (Rltb _ _) eqn:E; [|exact Hc].
  apply Rltb_true in E. lra.
Qed.

Lemma lattice_value_american_ge_european ot spot strike u d p discount k :
  0 <= p <= 1 -> 0 <= discount ->
  forall i j,
    lattice_value false ot spot strike u d p discount k i j <=
    lattice_value true ot spot strike u d p discount k i j.
Proof.
  intros Hp Hd. induction k as [|k IH]; intros i j; simpl.
  - lra.
  - apply node_value_american_ge_european; auto.
Qed.

Lemma crr_discount_pos T r vol steps :
  0 < crr_discount (crr_parameters T r vol steps).
Proof. unfold crr_parameters. cbn [crr_discount]. apply exp_pos. Qed.

(** The prices of the two exercise styles, on valid inputs. *)
Lemma calculate_price_init spot strike T r vol ot steps am :
  valid_inputs spot strike T r vol ot -> (1 <= steps)%Z ->
  let c := crr_parameters T r vol steps in
  fst (calculate_price (init steps am) spot strike T r vol ot) =
  Ok (lattice_value am (BaseModel._get_option_type ot) spot strike
        (crr_u c) (crr_d c) (crr_p c) (crr_discount c)
        (Z.to_nat steps) 0 0).
Proof.
  intros Hv Hs c.
  destruct (calculate_price_lattice (init steps am) spot strike T r vol ot Hv Hs)
    as (self' & Hc & _).
  rewrite Hc. reflexivity.
Qed.

(** Where the code is right: for valid parameters and a positive step
    count for which the risk-neutral probability [p] computed by the code
    lies in [[0, 1]], the price with [american=True] is at least the price
    with [american=False]. *)
Theorem american_ge_european_when_p_is_probability :
  forall spot strike T r vol ot steps,
    valid_inputs spot strike T r vol ot ->
    (1 <= steps)%Z ->
    0 <= crr_p (crr_parameters T r vol steps) <= 1 ->
    exists a e,
      fst (calculate_price (init steps true) spot strike T r vol ot) = Ok a /\
      fst (calculate_price (init steps false) spot strike T r vol ot) = Ok e /\
      e <= a.
Proof.
  intros spot strike T r vol ot steps Hv Hs Hp.
  do 2 eexists. split; [|split].
  - apply calculate_price_init; assumption.
  - apply calculate_price_init; assumption.
  - apply lattice_value_american_ge_european; [exact Hp|].
    apply Rlt_le, crr_discount_pos.
Qed.

(** *** A valid input for which [p] is not a probability

    With [r = 0.5], [sigma = 0.1] and a unit time step, [exp(r dt)]
    exceeds the up factor [u = exp(sigma sqrt(dt))], and [p > 1]. *)

Lemma valid_put_example (T : R) :
  0 < T -> valid_inputs 100 100 T 0.5 0.1 "put".
Proof.
  intro HT. unfold valid_inputs. simpl. repeat split; try lra.
  right; reflexivity.
Qed.

Lemma crr_unit_step (T : R) (steps : Z) :
  T / IZR steps = 1 ->
  crr_parameters T 0.5 0.1 steps =
  mk_crr 1 (exp 0.1) (1 / exp 0.1)
    ((exp 0.5 - 1 / exp 0.1) / (exp 0.1 - 1 / exp 0.1)) (exp (- (0.5))).
Proof.
  intro Hdt. unfold crr_parameters. rewrite Hdt, sqrt_1.
  replace (0.1 * 1) with 0.1 by lra.
  replace (0.5 * 1) with 0.5 by lra.
  replace (- (0.5) * 1) with (- (0.5)) by lra.
  reflexivity.
Qed.

Lemma example_factors :
  let u := exp 0.1 in let a := exp 0.5 in
  1.1 <= u <= 10 / 9 /\ 1.5 <= a <= 2 /\ 9 / 10 <= 1 / u <= 10 / 11 /\
  exp (- (0.5)) = 1 / a /\
  9 / 5 <= (a - u) / (u - 1 / u) /\
  (a - 1 / u) / (u - 1 / u) = 1 + (a - u) / (u - 1 / u).
Proof.
  intros u a.
  assert (Hu : 1.1 <= u <= 10 / 9).
  { split.
    - pose proof (exp_lower 0.1). unfold u. lra.
    - pose proof (exp_upper 0.1). unfold u. lra. }
  assert (Ha : 1.5 <= a <= 2).
  { split.
    - pose proof (exp_lower 0.5). unfold a. lra.
    - pose proof (exp_upper 0.5). unfold a. lra. }
  assert (Hw : 9 / 10 <= 1 / u <= 10 / 11).
  { split.
    - apply Rmult_le_reg_r with u; [lra|]. unfold Rdiv at 2.
      rewrite Rmult_1_l, Rinv_l by lra. lra.
    - apply Rmult_le_reg_r with u; [lra|]. unfold Rdiv at 1.
      rewrite Rmult_1_l, Rinv_l by lra. lra. }
  repeat split; try lra.
  - unfold a. apply exp_neg_inv.
  - apply Rmult_le_reg_r with (u - 1 / u); [lra|].
    unfold Rdiv at 3. rewrite Rmult_assoc, Rinv_l by lra. lra.
  - field. split; [lra|]. intro H.
    assert (u * u = 1) by (field_simplify in H; lra). nra.
Qed.

(** Two steps over two years: the European put is worth more than 1 ... *)
Lemma european_put_two_steps :
  exists e,
    fst (calculate_price (init 2 false) 100 100 2 0.5 0.1 "put") = Ok e /\
    1 < e.
Proof.
  eexists. split.
  - apply calculate_price_init; [apply valid_put_example; lra | lia].
  - rewrite (crr_unit_step 2 2) by lra.
    cbn [crr_u crr_d crr_p crr_discount].
    change (BaseModel._get_option_type "put") with "put"%string.
    change (Z.to_nat 2) with 2%nat.
    cbn [lattice_value node_value Nat.add Nat.sub pow].
    unfold exercise_payoff.
    destruct (string_dec "put" "call") as [E|_]; [discriminate E|].
    destruct example_factors as (Hu & Ha & Hw & HD & Hq & HP).
    rewrite HD, HP.
    set (u := exp 0.1) in *. set (a := exp 0.5) in *.
    set (q := (a - u) / (u - 1 / u)) in *.
    set (w := 1 / u) in *.
    assert (Huw : u * w = 1) by (unfold w; field; lra).
    rewrite (Rmax_left 0 (100 - 100 * (u * (u * 1)) * 1)) by nra.
    rewrite (Rmax_left 0 (100 - 100 * (u * 1) * (w * 1))) by nra.
    rewrite (Rmax_right 0 (100 - 100 * 1 * (w * (w * 1)))) by nra.
    set (D := 1 / a).
    assert (HDb : 1 / 2 <= D).
    { unfold D. apply Rmult_le_reg_r with a; [lra|].
      unfold Rdiv at 2. rewrite Rmult_1_l, Rinv_l by lra. lra. }
    assert (H1 : / 4 <= D * D) by nra.
    assert (H2 : 3 <= q * q) by nra.
    assert (H3 : 17 <= 100 - 100 * 1 * (w * (w * 1))) by nra.
    set (X := 100 - 100 * 1 * (w * (w * 1))) in *.
    replace (D * ((1 + q) * (D * ((1 + q) * 0 + (1 - (1 + q)) * 0)) +
                  (1 - (1 + q)) * (D * ((1 + q) * 0 + (1 - (1 + q)) * X))))
      with ((D * D) * ((q * q) * X)) by ring.
    assert (H4 : 51 <= q * q * X) by nra.
    nra.
Qed.

Lemma node_value_exercise ot strike p discount v_up v_down price :
  discount * (p * v_up + (1 - p) * v_down) < exercise_payoff ot strike price ->
  node_value true ot strike p discount v_up v_down price =
  exercise_payoff ot strike price.
Proof.
  intro H. unfold node_value.
  destruct (Rltb _ _) eqn:E; [reflexivity|]. apply Rltb_false in E. lra.
Qed.

Lemma node_value_continue ot strike p discount v_up v_down price :
  exercise_payoff ot strike price <= discount * (p * v_up + (1 - p) * v_down) ->
  node_value true ot strike p discount v_up v_down price =
  discount * (p * v_up + (1 - p) * v_down).
Proof.
  intro H. unfold node_value.
  destruct (Rltb _ _) eqn:E; [|reflexivity]. apply Rltb_true in E. lra.
Qed.

Lemma put_payoff strike price :
  exercise_payoff "put" strike price = Rmax 0 (strike - price).
Proof.
  unfold exercise_payoff.
  destruct (string_dec "put" "call") as [E|_]; [discriminate E|reflexivity].
Qed.

(** ... while the American put on the same lattice is worth 0. *)
Lemma american_put_two_steps :
  fst (calculate_price (init 2 true) 100 100 2 0.5 0.1 "put") = Ok 0.
Proof.
  rewrite calculate_price_init; [|apply valid_put_example; lra | lia].
  f_equal.
  rewrite (crr_unit_step 2 2) by lra.
  cbn [crr_u crr_d crr_p crr_discount].
  change (BaseModel._get_option_type "put") with "put"%string.
  change (Z.to_nat 2) with 2%nat.
  cbn [lattice_value Nat.add Nat.sub pow].
  rewrite !put_payoff.
  destruct example_factors as (Hu & Ha & Hw & HD & Hq & HP).
  rewrite HD, HP.
  set (u := exp 0.1) in *. set (a := exp 0.5) in *.
  set (q := (a - u) / (u - 1 / u)) in *.
  set (w := 1 / u) in *.
  assert (Huw : u * w = 1) by (unfold w; field; lra).
  assert (HD0 : 0 < 1 / a).
  { apply Rdiv_lt_0_compat; lra. }
  rewrite (Rmax_left 0 (100 - 100 * (u * (u * 1)) * 1)) by nra.
  rewrite (Rmax_left 0 (100 - 100 * (u * 1) * (w * 1))) by nra.
  rewrite (Rmax_right 0 (100 - 100 * 1 * (w * (w * 1)))) by nra.
  set (D := 1 / a) in *.
  assert (N1 : node_value true "put" 100 (1 + q) D 0 0 (100 * (u * 1) * 1) = 0).
  { rewrite node_value_continue.
    - ring.
    - rewrite put_payoff, Rmax_left by lra. lra. }
  assert (N2 : node_value true "put" 100 (1 + q) D 0
                 (100 - 100 * 1 * (w * (w * 1))) (100 * 1 * (w * 1)) =
               100 - 100 * w).
  { rewrite node_value_exercise.
    - rewrite put_payoff, Rmax_right by lra. ring.
    - rewrite put_payoff, Rmax_right by lra.
      assert (0 < 100 - 100 * 1 * (w * (w * 1))) by nra.
      assert (0 < D * (q * (100 - 100 * 1 * (w * (w * 1))))).
      { apply Rmult_lt_0_compat; [lra|]. apply Rmult_lt_0_compat; lra. }
      lra. }
  rewrite N1, N2.
  rewrite node_value_exercise.
  - rewrite put_payoff. apply Rmax_left. lra.
  - rewrite put_payoff, Rmax_left by lra.
    assert (0 < D * (q * (100 - 100 * w))).
    { apply Rmult_lt_0_compat; [lra|]. apply Rmult_lt_0_compat; lra. }
    lra.
Qed.

(** C3: the code breaks the claim.  With [spot = strike = 100], [T = 2],
    [r = 0.5], [sigma = 0.1] (all accepted by [validate_inputs]) and two
    steps, the value the code computes as the risk-neutral probability
    exceeds 1 and is used unchecked: the American put is priced at 0 and the
    European put above 1, beyond the tolerance of 0.01 of the repository's
    own check that the American price is at least the European one. *)
Theorem american_below_european_example :
  valid_inputs 100 100 2 0.5 0.1 "put" /\
  1 < crr_p (crr_parameters 2 0.5 0.1 2) /\
  exists a e,
    fst (calculate_price (init 2 true) 100 100 2 0.5 0.1 "put") = Ok a /\
    fst (calculate_price (init 2 false) 100 100 2 0.5 0.1 "put") = Ok e /\
    a = 0 /\ a + 1 < e.
Proof.
  split; [apply valid_put_example; lra|]. split.
  - rewrite (crr_unit_step 2 2) by lra.
    destruct example_factors as (Hu & Ha & Hw & HD & Hq & HP).
    cbn [crr_p]. rewrite HP. lra.
  - destruct european_put_two_steps as (e & He & Hlt).
    exists 0, e. split; [apply american_put_two_steps|]. split; [exact He|].
    split; [reflexivity | lra].
Qed.

(** [p] is a probability as soon as [|r| sqrt(dt) <= sigma]. *)
Lemma crr_p_probability T r vol steps :
  0 < T -> 0 < vol -> (1 <= steps)%Z ->
  Rabs r * sqrt (T / IZR steps) <= vol ->
  0 <= crr_p (crr_parameters T r vol steps) <= 1.
Proof.
  intros HT Hvol Hsteps Hr. unfold crr_parameters. cbn [crr_p].
  assert (Hn : 0 < IZR steps) by (apply IZR_lt; lia).
  assert (Hdt : 0 < T / IZR steps) by (apply Rdiv_lt_0_compat; assumption).
  set (dt := T / IZR steps) in *.
  assert (Hs : 0 < sqrt dt) by (apply sqrt_lt_R0; exact Hdt).
  assert (Hss : sqrt dt * sqrt dt = dt) by (apply sqrt_sqrt; lra).
  set (s := sqrt dt) in *.
  assert (Hrdt : - (vol * s) <= r * dt <= vol * s).
  { rewrite <- Hss.
    assert (Rabs r * s * s <= vol * s) by (apply Rmult_le_compat_r; lra).
    destruct (Rcase_abs r) as [Hneg|Hpos].
    - rewrite (Rabs_left r Hneg) in H. nra.
    - rewrite (Rabs_right r Hpos) in H. nra. }
  assert (Hu : 1 < exp (vol * s)).
  { rewrite <- exp_0. apply exp_increasing. apply Rmult_lt_0_compat; lra. }
  assert (Hd : 1 / exp (vol * s) = exp (- (vol * s)))
    by (symmetry; apply exp_neg_inv).
  rewrite Hd.
  assert (Hlo : exp (- (vol * s)) <= exp (r * dt)).
  { destruct (proj1 Hrdt) as [H|H]; [left; apply exp_increasing; exact H|].
    rewrite H. lra. }
  assert (Hhi : exp (r * dt) <= exp (vol * s)).
  { destruct (proj2 Hrdt) as [H|H]; [left; apply exp_increasing; exact H|].
    rewrite H. lra. }
  assert (Hden : 0 < exp (vol * s) - exp (- (vol * s))).
  { assert (exp (- (vol * s)) < exp (vol * s)).
    { apply exp_increasing. assert (0 < vol * s) by (apply Rmult_lt_0_compat; lra).
      lra. }
    lra. }
  split.
  - apply Rmult_le_pos; [lra|]. apply Rlt_le, Rinv_0_lt_compat, Hden.
  - apply Rmult_le_reg_r with (exp (vol * s) - exp (- (vol * s))); [exact Hden|].
    unfold Rdiv. rewrite Rmult_assoc, Rinv_l by lra. lra.
Qed.

Lemma american_ge_european_witness :
  (valid_inputs 100 100 1 0.05 0.2 "call" /\ (1 <= 100)%Z /\
   0 <= crr_p (crr_parameters 1 0.05 0.2 100) <= 1) /\
  exists a e,
    fst (calculate_price (init 100 true) 100 100 1 0.05 0.2 "call") = Ok a /\
    fst (calculate_price (init 100 false) 100 100 1 0.05 0.2 "call") = Ok e /\
    e <= a.
Proof.
  assert (Hv : valid_inputs 100 100 1 0.05 0.2 "call").
  { unfold valid_inputs. simpl. repeat split; try lra. left; reflexivity. }
  assert (Hp : 0 <= crr_p (crr_parameters 1 0.05 0.2 100) <= 1).
  { apply crr_p_probability; try lra; try lia.
    rewrite Rabs_right by lra.
    assert (H : sqrt (1 / 100) <= sqrt 1) by (apply sqrt_le_1_alt; lra).
    rewrite sqrt_1 in H. lra. }
  split; [repeat split; try (apply Hv); try (apply Hp); lia|].
  apply (american_ge_european_when_p_is_probability
           100 100 1 0.05 0.2 "call" 100 Hv); [lia | exact Hp].
Defined.




End BinomialTreeProperties.

(** ** The normal distribution function: symmetry and numerical bounds *)

Lemma norm_cdf_symmetry (x : R) : norm_cdf (- x) = 1 - norm_cdf x.
Proof.
  unfold norm_cdf. replace (- x * - x) with (x * x) by ring. field.
  apply Rgt_not_eq, sqrt_lt_R0. pose proof PI_RGT_0. lra.
Qed.

(** Squeezing a non-negative sequence below one that tends to 0. *)
Lemma Un_cv_0_le (U V : nat -> R) :
  (forall n, 0 <= U n <= V n) -> Un_cv V 0 -> Un_cv U 0.
Proof.
  intros Hle HV eps Heps. destruct (HV eps Heps) as [N HN].
  exists N. intros n Hn. specialize (HN n Hn). specialize (Hle n).
  unfold Rdist in *. rewrite Rminus_0_r in *.
  rewrite Rabs_pos_eq by lra.
  apply Rle_lt_trans with (V n); [lra|].
  rewrite Rabs_pos_eq in HN by lra. exact HN.
Qed.

(** The absolute value of the [n]-th term of the series of [cdf_series y]. *)
Definition cdf_term (y : R) (n : nat) : R :=
  y ^ n / (2 ^ n * INR (fact n) * INR (2 * n + 1)).

Lemma cdf_term_pos y n : 0 <= y -> 0 <= cdf_term y n.
Proof.
  intro Hy. unfold cdf_term. apply Rmult_le_pos; [apply pow_le; exact Hy|].
  apply Rlt_le, Rinv_0_lt_compat.
  repeat apply Rmult_lt_0_compat.
  - apply pow_lt; lra.
  - apply INR_fact_lt_0.
  - apply lt_0_INR; lia.
Qed.

Lemma cdf_term_decreasing y : 0 <= y <= 1 -> Un_decreasing (cdf_term y).
Proof.
  intros Hy n.
  assert (H2 : 0 < 2 ^ n) by (apply pow_lt; lra).
  assert (H3 : 0 < INR (fact n)) by apply INR_fact_lt_0.
  assert (Hn : 0 <= INR n) by apply pos_INR.
  assert (Hyn : 0 <= y ^ n) by (apply pow_le; lra).
  replace (cdf_term y (S n)) with
    (cdf_term y n * (y * (2 * INR n + 1) / (2 * (INR n + 1) * (2 * INR n + 3)))).
  - rewrite <- (Rmult_1_r (cdf_term y n)) at 2.
    apply Rmult_le_compat_l; [apply cdf_term_pos; lra|].
    apply Rmult_le_reg_r with (2 * (INR n + 1) * (2 * INR n + 3)); [nra|].
    unfold Rdiv. rewrite Rmult_assoc, Rinv_l by nra. nra.
  - unfold cdf_term. rewrite !INR_odd, S_INR, fact_simpl, mult_INR, S_INR.
    simpl pow. field. repeat split; lra.
Qed.

Lemma cdf_term_cv_0 y : 0 <= y -> Un_cv (cdf_term y) 0.
Proof.
  intro Hy. apply Un_cv_0_le with (V := fun n => y ^ n / INR (fact n)).
  - intro n. split; [apply cdf_term_pos; exact Hy|].
    unfold cdf_term.
    assert (H2 : 1 <= 2 ^ n) by (apply pow_R1_Rle; lra).
    assert (H3 : 0 < INR (fact n)) by apply INR_fact_lt_0.
    assert (H4 : 1 <= INR (2 * n + 1)).
    { rewrite INR_odd. pose proof (pos_INR n). lra. }
    assert (Hyn : 0 <= y ^ n) by (apply pow_le; lra).
    unfold Rdiv. apply Rmult_le_compat_l; [exact Hyn|].
    apply Rinv_le_contravar; [exact H3|].
    assert (H5 : INR (fact n) <= 2 ^ n * INR (fact n)) by nra.
    assert (H6 : 2 ^ n * INR (fact n) * 1 <= 2 ^ n * INR (fact n) * INR (2 * n + 1))
      by (apply Rmult_le_compat_l; [nra|exact H4]).
    lra.
  - apply cv_speed_pow_fact.
Qed.

Lemma cdf_series_cv y :
  Un_cv (fun N => sum_f_R0 (tg_alt (cdf_term y)) N) (cdf_series y).
Proof.
  unfold cdf_series.
  destruct (Alembert_C3 cdf_coef y cdf_coef_neq_0 cdf_coef_Alembert) as [l Hl].
  simpl. unfold Pser, infinite_sum in Hl.
  intros eps Heps. destruct (Hl eps Heps) as [N HN]. exists N. intros n Hn.
  replace (sum_f_R0 (tg_alt (cdf_term y)) n)
    with (sum_f_R0 (fun n0 => cdf_coef n0 * y ^ n0) n); [apply HN; exact Hn|].
  apply sum_eq. intros i _. unfold tg_alt, cdf_term, cdf_coef. 
  unfold Rdiv. ring.
Qed.

(** The partial sums of the alternating series bracket its sum. *)
Lemma cdf_series_bracket y N :
  0 <= y <= 1 ->
  sum_f_R0 (tg_alt (cdf_term y)) (S (2 * N)) <= cdf_series y <=
  sum_f_R0 (tg_alt (cdf_term y)) (2 * N).
Proof.
  intro Hy. apply alternated_series_ineq.
  - apply cdf_term_decreasing; exact Hy.
  - apply cdf_term_cv_0; lra.
  - apply cdf_series_cv.
Qed.

Definition exp_term (t : R) (n : nat) : R := t ^ n / INR (fact n).

Lemma exp_neg_bracket t N :
  0 <= t <= 1 ->
  sum_f_R0 (tg_alt (exp_term t)) (S (2 * N)) <= exp (- t) <=
  sum_f_R0 (tg_alt (exp_term t)) (2 * N).
Proof.
  intro Ht. apply alternated_series_ineq.
  - intro n. unfold exp_term.
    assert (H3 : 0 < INR (fact n)) by apply INR_fact_lt_0.
    assert (Hn : 0 <= INR n) by apply pos_INR.
    assert (Htn : 0 <= t ^ n) by (apply pow_le; lra).
    rewrite fact_simpl, mult_INR, S_INR. simpl pow.
    apply Rmult_le_reg_r with ((INR n + 1) * INR (fact n)); [nra|].
    unfold Rdiv. rewrite Rmult_assoc, Rinv_l by nra.
    replace (t ^ n * / INR (fact n) * ((INR n + 1) * INR (fact n)))
      with (t ^ n * (INR n + 1)) by (field; lra).
    nra.
  - apply cv_speed_pow_fact.
  - unfold exp. destruct (exist_exp (- t)) as [l Hl]. simpl.
    unfold exp_in, infinite_sum in Hl.
    intros eps Heps. destruct (Hl eps Heps) as [M HM]. exists M. intros n Hn.
    replace (sum_f_R0 (tg_alt (exp_term t)) n)
      with (sum_f_R0 (fun i => / INR (fact i) * (- t) ^ i) n);
      [apply HM; exact Hn|].
    apply sum_eq. intros i _. unfold tg_alt, exp_term.
    replace (- t) with (-1 * t) by ring. rewrite Rpow_mult_distr.
    unfold Rdiv. ring.
Qed.

Lemma PI_bounds : 3.141592 < PI < 3.141593.
Proof.
  pose proof (PI_2_3_7_ineq 3) as H.
  unfold sum_f_R0, tg_alt, PI_2_3_7_tg, Ratan_seq in H.
  cbn [Nat.mul Nat.add] in H.
  repeat rewrite S_INR in H. change (INR 0) with 0 in H.
  simpl pow in H.
  split; lra.
Qed.

Ltac eval_alt_sum H :=
  unfold sum_f_R0, tg_alt, cdf_term, exp_term in H;
  cbn [Nat.mul Nat.add fact] in H;
  repeat rewrite INR_IZR_INZ in H;
  cbn [Z.of_nat Pos.of_succ_nat Pos.succ] in H;
  simpl pow in H.

Lemma cdf_series_035 :
  0.9799530 < cdf_series (0.35 * 0.35) < 0.9799531.
Proof.
  pose proof (cdf_series_bracket (0.35 * 0.35) 2) as H.
  eval_alt_sum H.
  assert (Hy : 0 <= 0.35 * 0.35 <= 1) by lra.
  specialize (H Hy). split; lra.
Qed.

Lemma cdf_series_015 :
  0.9962626 < cdf_series (0.15 * 0.15) < 0.9962627.
Proof.
  pose proof (cdf_series_bracket (0.15 * 0.15) 2) as H.
  eval_alt_sum H.
  assert (Hy : 0 <= 0.15 * 0.15 <= 1) by lra.
  specialize (H Hy). split; lra.
Qed.

Lemma exp_neg_005 : 0.9512294 < exp (- (0.05)) < 0.9512295.
Proof.
  pose proof (exp_neg_bracket 0.05 2) as H.
  eval_alt_sum H.
  assert (Hy : 0 <= 0.05 <= 1) by lra.
  specialize (H Hy). split; lra.
Qed.

Lemma sqrt_2PI_bounds : 2.506628 < sqrt (2 * PI) < 2.506629.
Proof.
  destruct PI_bounds as [Hl Hu].
  split.
  - rewrite <- (sqrt_square 2.506628) by lra.
    apply sqrt_lt_1_alt. lra.
  - rewrite <- (sqrt_square 2.506629) by lra.
    apply sqrt_lt_1_alt. lra.
Qed.

(** A quotient of two bracketed positive numbers. *)
Lemma quotient_bounds (a b c d x s : R) :
  0 < a -> a < x < b -> 0 < c -> c < s < d ->
  a / d < x / s < b / c.
Proof.
  intros Ha Hx Hc Hs.
  assert (Hs0 : 0 < s) by lra.
  assert (Hd0 : 0 < d) by lra.
  split.
  - apply Rmult_lt_reg_r with (d * s); [nra|].
    replace (a / d * (d * s)) with (a * s) by (field; lra).
    replace (x / s * (d * s)) with (x * d) by (field; lra).
    nra.
  - apply Rmult_lt_reg_r with (c * s); [nra|].
    replace (x / s * (c * s)) with (x * c) by (field; lra).
    replace (b / c * (c * s)) with (b * s) by (field; lra).
    nra.
Qed.

Lemma norm_cdf_035 : 0.6368305 < norm_cdf 0.35 < 0.6368307.
Proof.
  unfold norm_cdf.
  assert (H : 0.9799530 / 2.506629 <
              cdf_series (0.35 * 0.35) / sqrt (2 * PI) <
              0.9799531 / 2.506628).
  { apply quotient_bounds;
      [lra | apply cdf_series_035 | lra | apply sqrt_2PI_bounds]. }
  replace (0.35 * cdf_series (0.35 * 0.35) / sqrt (2 * PI))
    with (0.35 * (cdf_series (0.35 * 0.35) / sqrt (2 * PI)))
    by (unfold Rdiv; ring).
  lra.
Qed.

Lemma norm_cdf_015 : 0.5596176 < norm_cdf 0.15 < 0.5596178.
Proof.
  unfold norm_cdf.
  assert (H : 0.9962626 / 2.506629 <
              cdf_series (0.15 * 0.15) / sqrt (2 * PI) <
              0.9962627 / 2.506628).
  { apply quotient_bounds;
      [lra | apply cdf_series_015 | lra | apply sqrt_2PI_bounds]. }
  replace (0.15 * cdf_series (0.15 * 0.15) / sqrt (2 * PI))
    with (0.15 * (cdf_series (0.15 * 0.15) / sqrt (2 * PI)))
    by (unfold Rdiv; ring).
  lra.
Qed.

(** ** Black-Scholes prices *)

Module BlackScholesProperties.
Import BlackScholes.

Lemma strip_call : strip "call" = "call"%string.
Proof. reflexivity. Qed.

Lemma strip_put : strip "put" = "put"%string.
Proof. reflexivity. Qed.

(** The closed form returned on valid inputs. *)
Lemma calculate_price_closed_form spot strike T r vol ot :
  valid_inputs spot strike T r vol ot ->
  let d1 := (ln (spot / strike) + (r + 0.5 * vol ^ 2) * T) / (vol * sqrt T) in
  let d2 := d1 - vol * sqrt T in
  calculate_price spot strike T r vol ot =
  Ok (if string_dec (lower ot) "call"
      then spot * norm_cdf d1 - strike * exp (- r * T) * norm_cdf d2
      else strike * exp (- r * T) * norm_cdf (- d2) - spot * norm_cdf (- d1)).
Proof.
  intros Hv d1 d2. unfold calculate_price.
  pose proof Hv as Hv'. apply validate_inputs_ok_iff in Hv'. rewrite Hv'.
  cbn [bind]. unfold _calculate_d1.
  destruct Hv as (_ & Hk & _ & _ & _ & Hot).
  destruct (Req_dec_T strike 0) as [E|_]; [lra|]. cbn [bind].
  unfold BaseModel._get_option_type.
  destruct Hot as [Hot|Hot]; rewrite Hot.
  - rewrite strip_call.
    destruct (string_dec "call" "call") as [_|N]; [reflexivity|contradiction].
  - rewrite strip_put.
    destruct (string_dec "put" "call") as [E|_]; [discriminate E|reflexivity].
Qed.

Lemma valid_numbers spot strike T r vol ot :
  0 < spot -> 0 < strike -> 0 < T -> 0 < vol -> -0.1 <= r <= 0.5 ->
  (ot = "call" \/ ot = "put")%string ->
  valid_inputs spot strike T r vol ot.
Proof.
  intros. unfold valid_inputs. repeat split; try assumption; try lra.
  destruct H4; subst ot; [left|right]; reflexivity.
Qed.

(** The reference scenario: [d1 = 0.35] and [d2 = 0.15]. *)
Lemma reference_d1 :
  (ln (100 / 100) + (0.05 + 0.5 * 0.2 ^ 2) * 1) / (0.2 * sqrt 1) = 0.35.
Proof.
  replace (100 / 100) with 1 by lra. rewrite ln_1, sqrt_1. lra.
Qed.

Lemma reference_call_price :
  Rabs (100 * norm_cdf 0.35 - 100 * exp (- (0.05)) * norm_cdf 0.15 - 10.4506)
  < 0.00005.
Proof.
  pose proof norm_cdf_035 as H1. pose proof norm_cdf_015 as H2.
  pose proof exp_neg_005 as H3.
  assert (H4 : 0.9512294 * 0.5596176 < exp (- (0.05)) * norm_cdf 0.15) by nra.
  assert (H5 : exp (- (0.05)) * norm_cdf 0.15 < 0.9512295 * 0.5596178) by nra.
  apply Rabs_def1; lra.
Qed.

Lemma reference_put_price :
  Rabs (100 * exp (- (0.05)) * norm_cdf (- (0.15)) - 100 * norm_cdf (- (0.35))
        - 5.5735) < 0.00005.
Proof.
  rewrite !norm_cdf_symmetry.
  pose proof norm_cdf_035 as H1. pose proof norm_cdf_015 as H2.
  pose proof exp_neg_005 as H3.
  assert (H4 : 0.9512294 * (1 - 0.5596178) < exp (- (0.05)) * (1 - norm_cdf 0.15))
    by nra.
  assert (H5 : exp (- (0.05)) * (1 - norm_cdf 0.15) < 0.9512295 * (1 - 0.5596176))
    by nra.
  apply Rabs_def1; lra.
Qed.

(** C1: on every valid parameter set [calculate_price] returns
    [S Phi(d1) - K exp(-rT) Phi(d2)] for a call and
    [K exp(-rT) Phi(-d2) - S Phi(-d1)] for a put, with
    [d1 = (ln(S/K) + (r + sigma^2/2) T) / (sigma sqrt(T))] and
    [d2 = d1 - sigma sqrt(T)]; and for [S = K = 100], [T = 1], [r = 0.05],
    [sigma = 0.20] the call price is 10.4506 and the put price 5.5735, both
    to within half a unit of the fourth decimal place. *)
Theorem black_scholes_closed_form :
  (forall spot strike T r vol,
     0 < spot -> 0 < strike -> 0 < T -> 0 < vol -> -0.1 <= r <= 0.5 ->
     let d1 := (ln (spot / strike) + (r + vol ^ 2 / 2) * T) / (vol * sqrt T) in
     let d2 := d1 - vol * sqrt T in
     calculate_price spot strike T r vol "call" =
       Ok (spot * norm_cdf d1 - strike * exp (- r * T) * norm_cdf d2) /\
     calculate_price spot strike T r vol "put" =
       Ok (strike * exp (- r * T) * norm_cdf (- d2) - spot * norm_cdf (- d1))) /\
  (exists call put,
     calculate_price 100 100 1 0.05 0.2 "call" = Ok call /\
     calculate_price 100 100 1 0.05 0.2 "put" = Ok put /\
     Rabs (call - 10.4506) < 0.00005 /\
     Rabs (put - 5.5735) < 0.00005).
Proof.
  split.
  - intros spot strike T r vol Hs Hk HT Hv Hr d1 d2.
    assert (Hd : d1 = (ln (spot / strike) + (r + 0.5 * vol ^ 2) * T) /
                      (vol * sqrt T)).
    { unfold d1. f_equal. f_equal. f_equal. lra. }
    split.
    + rewrite calculate_price_closed_form
        by (apply valid_numbers; auto).
      cbn [lower lower_ascii]. unfold d2. rewrite Hd. reflexivity.
    + rewrite calculate_price_closed_form
        by (apply valid_numbers; auto).
      unfold d2. rewrite Hd. reflexivity.
  - do 2 eexists. split; [|split].
    + apply calculate_price_closed_form. apply valid_numbers; auto; lra.
    + apply calculate_price_closed_form. apply valid_numbers; auto; lra.
    + split.
      * change (if string_dec (lower "call") "call" then ?a else ?b) with a.
        rewrite reference_d1, sqrt_1.
        replace (0.35 - 0.2 * 1) with 0.15 by lra.
        replace (- (0.05) * 1) with (- (0.05)) by lra.
        apply reference_call_price.
      * change (if string_dec (lower "put") "call" then ?a else ?b) with b.
        rewrite reference_d1, sqrt_1.
        replace (0.35 - 0.2 * 1) with 0.15 by lra.
        replace (- (0.05) * 1) with (- (0.05)) by lra.
        apply reference_put_price.
Qed.

Lemma black_scholes_closed_form_witness :
  (0 < 100 /\ 0 < 100 /\ 0 < 1 /\ 0 < 0.2 /\ -0.1 <= 0.05 <= 0.5) /\
  calculate_price 100 100 1 0.05 0.2 "call" =
    Ok (100 * norm_cdf 0.35 - 100 * exp (- (0.05)) * norm_cdf 0.15).
Proof.
  split; [lra|].
  destruct (proj1 black_scholes_closed_form 100 100 1 0.05 0.2) as [Hc _];
    try lra.
  rewrite Hc. f_equal.
  replace (0.2 ^ 2 / 2) with (0.5 * 0.2 ^ 2) by lra.
  rewrite reference_d1, sqrt_1.
  replace (0.35 - 0.2 * 1) with 0.15 by lra.
  replace (- (0.05) * 1) with (- (0.05)) by lra.
  reflexivity.
Defined.

(** C9: put-call parity.  On every valid parameter set the call price
    minus the put price is [spot - strike exp(-r T)]. *)
Theorem put_call_parity :
  forall spot strike T r vol,
    0 < spot -> 0 < strike -> 0 < T -> 0 < vol -> -0.1 <= r <= 0.5 ->
    exists call put,
      calculate_price spot strike T r vol "call" = Ok call /\
      calculate_price spot strike T r vol "put" = Ok put /\
      call - put = spot - strike * exp (- r * T).
Proof.
  intros spot strike T r vol Hs Hk HT Hv Hr.
  do 2 eexists. split; [|split].
  - apply calculate_price_closed_form. apply valid_numbers; auto.
  - apply calculate_price_closed_form. apply valid_numbers; auto.
  - change (if string_dec (lower "call") "call" then ?a else ?b) with a.
    change (if string_dec (lower "put") "call" then ?a else ?b) with b.
    rewrite !norm_cdf_symmetry. ring.
Qed.

Lemma put_call_parity_witness :
  (0 < 100 /\ 0 < 100 /\ 0 < 1 /\ 0 < 0.2 /\ -0.1 <= 0.05 <= 0.5) /\
  exists call put,
    calculate_price 100 100 1 0.05 0.2 "call" = Ok call /\
    calculate_price 100 100 1 0.05 0.2 "put" = Ok put /\
    call - put = 100 - 100 * exp (- (0.05) * 1).
Proof.
  split; [lra|].
  apply (put_call_parity 100 100 1 0.05 0.2); lra.
Defined.

End BlackScholesProperties.

(** ** Strategies: payoff extremes and break-even points *)

Module StrategyProperties.
Import Strategy.
Local Open Scope Q_scope.

(** The total payoff of a strategy at one terminal spot price:
    [calculate_payoff legs [s] = [total legs s]]. *)
Definition total (legs : list OptionLeg) (s : Q) : Q :=
  py_sum (map (fun leg => payoff leg s) legs).

Lemma calculate_payoff_single legs s :
  calculate_payoff legs [s] = [total legs s].
Proof. reflexivity. Qed.

Lemma calculate_payoff_length legs spots :
  List.length (calculate_payoff legs spots) = List.length spots.
Proof. unfold calculate_payoff. apply length_map. Qed.

Lemma calculate_payoff_nth legs spots i :
  (i < List.length spots)%nat ->
  nth i (calculate_payoff legs spots) 0 = total legs (nth i spots 0).
Proof.
  intro Hi. unfold calculate_payoff.
  rewrite (nth_indep _ 0 (total legs 0)) by (rewrite length_map; exact Hi).
  apply (map_nth (total legs)).
Qed.

Lemma linspace_length a b n : List.length (linspace a b n) = n.
Proof. unfold linspace. rewrite length_map. apply length_seq. Qed.

Lemma linspace_nth a b n k :
  (k < n)%nat ->
  nth k (linspace a b n) 0 =
  a + inject_Z (Z.of_nat k) * ((b - a) / inject_Z (Z.of_nat n - 1)).
Proof.
  intro Hk. unfold linspace.
  set (f := fun k0 => a + inject_Z (Z.of_nat k0) *
                          ((b - a) / inject_Z (Z.of_nat n - 1))).
  rewrite (nth_indep _ 0 (f 0%nat)) by (rewrite length_map, length_seq; exact Hk).
  rewrite (map_nth f). rewrite seq_nth by exact Hk. reflexivity.
Qed.

(** Maxima and minima of lists. *)
Lemma Qmax_cases (x y : Q) : Qmax x y = x \/ Qmax x y = y.
Proof.
  unfold Qmax, GenericMinMax.gmax. destruct (x ?= y); auto.
Qed.

Lemma Qmin_cases (x y : Q) : Qmin x y = x \/ Qmin x y = y.
Proof.
  unfold Qmin, GenericMinMax.gmin. destruct (x ?= y); auto.
Qed.

Lemma fold_max_spec (l : list Q) (x : Q) :
  In (fold_left Qmax l x) (x :: l) /\
  forall y, In y (x :: l) -> y <= fold_left Qmax l x.
Proof.
  revert x. induction l as [|z l IH]; intro x; simpl.
  - split; [auto|]. intros y [<-|[]]. apply Qle_refl.
  - destruct (IH (Qmax x z)) as [Hin Hle]. split.
    + destruct Hin as [H|H]; [|auto].
      rewrite <- H. destruct (Qmax_cases x z) as [E|E]; rewrite E; auto.
    + intros y [<-|[<-|Hy]].
      * eapply Qle_trans; [apply Q.le_max_l|]. apply Hle. left. reflexivity.
      * eapply Qle_trans; [apply Q.le_max_r|]. apply Hle. left. reflexivity.
      * apply Hle. right. exact Hy.
Qed.

Lemma fold_min_spec (l : list Q) (x : Q) :
  In (fold_left Qmin l x) (x :: l) /\
  forall y, In y (x :: l) -> fold_left Qmin l x <= y.
Proof.
  revert x. induction l as [|z l IH]; intro x; simpl.
  - split; [auto|]. intros y [<-|[]]. apply Qle_refl.
  - destruct (IH (Qmin x z)) as [Hin Hle]. split.
    + destruct Hin as [H|H]; [|auto].
      rewrite <- H. destruct (Qmin_cases x z) as [E|E]; rewrite E; auto.
    + intros y [<-|[<-|Hy]].
      * eapply Qle_trans; [|apply Q.le_min_l]. apply Hle. left. reflexivity.
      * eapply Qle_trans; [|apply Q.le_min_r]. apply Hle. left. reflexivity.
      * apply Hle. right. exact Hy.
Qed.

Lemma np_max_spec (l : list Q) :
  l <> [] -> In (np_max l) l /\ forall y, In y l -> y <= np_max l.
Proof.
  destruct l as [|x l]; [congruence|]. intros _. apply fold_max_spec.
Qed.

Lemma np_min_spec (l : list Q) :
  l <> [] -> In (np_min l) l /\ forall y, In y l -> np_min l <= y.
Proof.
  destruct l as [|x l]; [congruence|]. intros _. apply fold_min_spec.
Qed.

(** The bounds of the analysis range and its samples. *)
Definition range_start (lo hi : Q) : Q := Qmax (lo - 0.5 * (hi - lo)) 0.01.
Definition range_stop (lo hi : Q) : Q := hi + 0.5 * (hi - lo).
Definition sample (lo hi : Q) (k : nat) : Q :=
  range_start lo hi +
  inject_Z (Z.of_nat k) * ((range_stop lo hi - range_start lo hi) / 999).

(** The least and the greatest strike of a non-empty strategy. *)
Definition strike_bounds (legs : list OptionLeg) (lo hi : Q) : Prop :=
  In lo (map strike legs) /\ (forall k, In k (map strike legs) -> lo <= k) /\
  In hi (map strike legs) /\ (forall k, In k (map strike legs) -> k <= hi).

Lemma analysis_range_samples legs :
  legs <> [] ->
  exists lo hi spots,
    strike_bounds legs lo hi /\
    _get_analysis_range legs = Ok spots /\
    List.length spots = 1000%nat /\
    forall k, (k < 1000)%nat -> nth k spots 0 = sample lo hi k.
Proof.
  intro Hne. destruct legs as [|leg legs]; [congruence|].
  unfold _get_analysis_range. cbn [map py_min py_max bind].
  destruct (fold_min_spec (map strike legs) (strike leg)) as [Hmin1 Hmin2].
  destruct (fold_max_spec (map strike legs) (strike leg)) as [Hmax1 Hmax2].
  set (lo := fold_left Qmin (map strike legs) (strike leg)) in *.
  set (hi := fold_left Qmax (map strike legs) (strike leg)) in *.
  exists lo, hi. eexists. split; [|split; [reflexivity|split]].
  - repeat split; assumption.
  - apply linspace_length.
  - intros k Hk. rewrite linspace_nth by exact Hk. reflexivity.
Qed.


Lemma sample_first lo hi : sample lo hi 0 == range_start lo hi.
Proof. unfold sample. simpl. field. Qed.

Lemma sample_last lo hi : sample lo hi 999 == range_stop lo hi.
Proof. unfold sample. simpl. field. Qed.

(** C5 (as amended): for every non-empty leg list, [max_profit] is the
    maximum and [max_loss] the minimum of the total payoff over the 1000
    evenly spaced samples that run from
    [max(min_strike - 0.5 (max_strike - min_strike), 0.01)] to
    [max_strike + 0.5 (max_strike - min_strike)]. *)
Theorem max_profit_max_loss_over_analysis_range :
  forall legs,
    legs <> [] ->
    exists lo hi M m,
      strike_bounds legs lo hi /\
      sample lo hi 0 == Qmax (lo - 0.5 * (hi - lo)) 0.01 /\
      sample lo hi 999 == hi + 0.5 * (hi - lo) /\
      max_profit legs = Ok M /\
      max_loss legs = Ok m /\
      (exists k, (k < 1000)%nat /\ M = total legs (sample lo hi k)) /\
      (exists k, (k < 1000)%nat /\ m = total legs (sample lo hi k)) /\
      (forall k, (k < 1000)%nat ->
         m <= total legs (sample lo hi k) <= M).
Proof.
  intros legs Hne.
  destruct (analysis_range_samples legs Hne)
    as (lo & hi & spots & Hb & Hr & Hlen & Hnth).
  exists lo, hi.
  exists (np_max (calculate_payoff legs spots)),
         (np_min (calculate_payoff legs spots)).
  assert (Hpne : calculate_payoff legs spots <> []).
  { intro E. apply (f_equal (@List.length Q)) in E.
    rewrite calculate_payoff_length, Hlen in E. discriminate E. }
  destruct (np_max_spec _ Hpne) as [HMin HMle].
  destruct (np_min_spec _ Hpne) as [Hmin Hmle].
  assert (Hsample : forall k, (k < 1000)%nat ->
            nth k (calculate_payoff legs spots) 0 = total legs (sample lo hi k)).
  { intros k Hk. rewrite calculate_payoff_nth by lia. rewrite Hnth by exact Hk.
    reflexivity. }
  assert (Hat : forall y, In y (calculate_payoff legs spots) ->
            exists k, (k < 1000)%nat /\ y = total legs (sample lo hi k)).
  { intros y Hy. destruct (In_nth _ _ 0 Hy) as (k & Hk & E).
    rewrite calculate_payoff_length, Hlen in Hk.
    exists k. split; [exact Hk|]. rewrite <- E. apply Hsample. exact Hk. }
  split; [exact Hb|].
  split; [apply sample_first|]. split; [apply sample_last|].
  unfold max_profit, max_loss. rewrite Hr. cbn [bind].
  split; [reflexivity|]. split; [reflexivity|].
  split; [apply Hat; exact HMin|]. split; [apply Hat; exact Hmin|].
  intros k Hk. rewrite <- Hsample by exact Hk.
  assert (Hin : In (nth k (calculate_payoff legs spots) 0)
                   (calculate_payoff legs spots)).
  { apply nth_In. rewrite calculate_payoff_length, Hlen. exact Hk. }
  split; [apply Hmle | apply HMle]; exact Hin.
Qed.

Lemma max_profit_max_loss_witness :
  let legs := [mk_leg "call" 95 "long" 1 13.5; mk_leg "call" 105 "short" 1 8] in
  legs <> [] /\
  exists lo hi M m,
    strike_bounds legs lo hi /\
    sample lo hi 0 == Qmax (lo - 0.5 * (hi - lo)) 0.01 /\
    sample lo hi 999 == hi + 0.5 * (hi - lo) /\
    max_profit legs = Ok M /\
    max_loss legs = Ok m /\
    (exists k, (k < 1000)%nat /\ M = total legs (sample lo hi k)) /\
    (exists k, (k < 1000)%nat /\ m = total legs (sample lo hi k)) /\
    (forall k, (k < 1000)%nat ->
       m <= total legs (sample lo hi k) <= M).
Proof.
  intro legs. split; [discriminate|].
  apply (max_profit_max_loss_over_analysis_range legs). discriminate.
Defined.

(** The range the specification describes: from 50% below the least
    strike to 50% above the greatest strike, 1000 samples. *)
Definition claimed_analysis_range (legs : list OptionLeg) : result (list Q) :=
  let strikes := map strike legs in
  min_strike <- py_min strikes ;;
  max_strike <- py_max strikes ;;
  Ok (linspace (0.5 * min_strike) (1.5 * max_strike) 1000).

(** C5 (as stated) fails: for a long strangle, a long put struck at 95
    (premium 3.5) and a long call struck at 105 (premium 8), the analysis
    range of the code runs from 90 to 110 and [max_profit] is -6.5, while
    the maximum of the payoff over the range from 47.5 to 157.5 is 41. *)
Lemma max_profit_not_over_claimed_range :
  let legs := [mk_leg "put" 95 "long" 1 3.5; mk_leg "call" 105 "long" 1 8] in
  exists M spots claimed,
    max_profit legs = Ok M /\
    _get_analysis_range legs = Ok spots /\
    nth 0 spots 0 == 90 /\ nth 999 spots 0 == 110 /\
    claimed_analysis_range legs = Ok claimed /\
    nth 0 claimed 0 == 47.5 /\ nth 999 claimed 0 == 157.5 /\
    M == - 6.5 /\
    np_max (calculate_payoff legs claimed) == 41 /\
    ~ M == np_max (calculate_payoff legs claimed).
Proof.
  intro legs. do 3 eexists.
  split; [reflexivity|]. split; [reflexivity|].
  split; [vm_compute; reflexivity|]. split; [vm_compute; reflexivity|].
  split; [reflexivity|].
  split; [vm_compute; reflexivity|]. split; [vm_compute; reflexivity|].
  split; [vm_compute; reflexivity|].
  split; [vm_compute; reflexivity|].
  vm_compute. discriminate.
Qed.


(** *** Break-even points *)

(** The test of the scan: the payoffs at samples [i] and [i + 1] have
    opposite signs. *)
Definition sign_change (payoffs : list Q) (i : nat) : bool :=
  if Qlt_le_dec (nth i payoffs 0 * nth (i + 1) payoffs 0) 0 then true else false.

Lemma scan_break_evens_filter spots pays :
  scan_break_evens spots pays =
  map (interpolate spots pays)
    (filter (sign_change pays) (seq 0 (List.length pays - 1))).
Proof.
  unfold scan_break_evens.
  induction (List.length pays - 1)%nat as [|n IH].
  - reflexivity.
  - rewrite for_range_S, IH, seq_S, filter_app, map_app. cbn [filter Nat.add].
    change (sign_change pays n)
      with (if Qlt_le_dec (nth n pays 0 * nth (n + 1) pays 0) 0
            then true else false).
    destruct (Qlt_le_dec _ _); [reflexivity|].
    cbn [map]. rewrite app_nil_r. reflexivity.
Qed.

(** Ascending lists obtained by mapping over ascending indices. *)
Lemma filter_seq_sorted (P : nat -> bool) (a n : nat) :
  StronglySorted lt (filter P (seq a n)).
Proof.
  revert a. induction n as [|n IH]; intro a; cbn [seq filter].
  - constructor.
  - destruct (P a); [|apply IH].
    constructor; [apply IH|].
    apply Forall_forall. intros x Hx. apply filter_In in Hx.
    destruct Hx as [Hx _]. apply in_seq in Hx. lia.
Qed.

Lemma map_sorted (f : nat -> Q) (l : list nat) :
  StronglySorted lt l ->
  (forall i j, In i l -> In j l -> (i < j)%nat -> f i < f j) ->
  StronglySorted Qlt (map f l).
Proof.
  induction 1 as [|x l Hs IH Hall]; intro Hf; cbn [map].
  - constructor.
  - constructor.
    + apply IH. intros i j Hi Hj. apply Hf; right; assumption.
    + apply Forall_forall. intros y Hy. apply in_map_iff in Hy.
      destruct Hy as (j & <- & Hj).
      apply Hf; [left; reflexivity | right; exact Hj|].
      rewrite Forall_forall in Hall. apply Hall. exact Hj.
Qed.

(** The interpolated point is a strict convex combination of the two
    bracketing samples. *)
Lemma interpolation_convex (s s' p p' : Q) :
  p * p' < 0 ->
  exists t, 0 < t /\ t < 1 /\
    s - p * (s' - s) / (p' - p) == s + t * (s' - s).
Proof.
  intro Hpp.
  assert (Hd : ~ p' - p == 0) by (intro E; nra).
  exists (p / (p - p')).
  assert (Hd' : ~ p - p' == 0) by (intro E; nra).
  assert (Ht : p / (p - p') * (p - p') == p) by (field; exact Hd').
  set (t := p / (p - p')) in *.
  split; [|split].
  - destruct (Qlt_le_dec 0 t) as [H|H]; [exact H|]. exfalso.
    destruct (Qlt_le_dec 0 p); nra.
  - destruct (Qlt_le_dec t 1) as [H|H]; [exact H|]. exfalso.
    destruct (Qlt_le_dec 0 p); nra.
  - unfold t. field. split; assumption.
Qed.

(** On an interval with no strike in its interior every leg, and hence
    the whole strategy, is affine. *)
Definition strike_free (legs : list OptionLeg) (a b : Q) : Prop :=
  forall leg, In leg legs -> strike leg <= a \/ b <= strike leg.

Lemma payoff_affine leg a b :
  strike leg <= a \/ b <= strike leg ->
  exists A B, forall s, a <= s <= b -> payoff leg s == A * s + B.
Proof.
  intro Hk. unfold payoff.
  destruct (string_dec (option_type leg) "call") as [Hc|Hc];
    destruct (string_dec (position leg) "long") as [Hl|Hl];
    destruct Hk as [Hk|Hk].
  - exists (inject_Z (quantity leg)),
           ((- strike leg - premium leg) * inject_Z (quantity leg)).
    intros s Hs. rewrite Q.max_l by lra. ring.
  - exists 0, (- premium leg * inject_Z (quantity leg)).
    intros s Hs. rewrite Q.max_r by lra. ring.
  - exists (- inject_Z (quantity leg)),
           ((premium leg + strike leg) * inject_Z (quantity leg)).
    intros s Hs. rewrite Q.max_l by lra. ring.
  - exists 0, (premium leg * inject_Z (quantity leg)).
    intros s Hs. rewrite Q.max_r by lra. ring.
  - exists 0, (- premium leg * inject_Z (quantity leg)).
    intros s Hs. rewrite Q.max_r by lra. ring.
  - exists (- inject_Z (quantity leg)),
           ((strike leg - premium leg) * inject_Z (quantity leg)).
    intros s Hs. rewrite Q.max_l by lra. ring.
  - exists 0, (premium leg * inject_Z (quantity leg)).
    intros s Hs. rewrite Q.max_r by lra. ring.
  - exists (inject_Z (quantity leg)),
           ((premium leg - strike leg) * inject_Z (quantity leg)).
    intros s Hs. rewrite Q.max_l by lra. ring.
Qed.

Lemma fold_left_Qplus (l : list Q) (a : Q) :
  fold_left Qplus l a == a + fold_left Qplus l 0.
Proof.
  revert a. induction l as [|x l IH]; intro a; cbn [fold_left].
  - ring.
  - rewrite (IH (a + x)), (IH (0 + x)). ring.
Qed.

Lemma total_cons leg legs s :
  total (leg :: legs) s == payoff leg s + total legs s.
Proof.
  unfold total, py_sum. cbn [map fold_left].
  rewrite fold_left_Qplus. ring.
Qed.

Lemma total_affine legs a b :
  strike_free legs a b ->
  exists A B, forall s, a <= s <= b -> total legs s == A * s + B.
Proof.
  induction legs as [|leg legs IH]; intro Hfree.
  - exists 0, 0. intros s _. unfold total, py_sum. cbn. ring.
  - destruct (payoff_affine leg a b) as (A1 & B1 & H1).
    { apply Hfree. left. reflexivity. }
    destruct IH as (A2 & B2 & H2).
    { intros l Hl. apply Hfree. right. exact Hl. }
    exists (A1 + A2), (B1 + B2). intros s Hs.
    rewrite total_cons, (H1 s Hs), (H2 s Hs). ring.
Qed.

(** Where the strategy is affine between the two samples, the
    interpolated point is an exact zero of the payoff. *)
Lemma interpolation_exact legs (s s' : Q) :
  total legs s * total legs s' < 0 ->
  strike_free legs (Qmin s s') (Qmax s s') ->
  total legs (s - total legs s * (s' - s) / (total legs s' - total legs s)) == 0.
Proof.
  intros Hpp Hfree.
  destruct (total_affine legs _ _ Hfree) as (A & B & Haff).
  assert (Hs : total legs s == A * s + B).
  { apply Haff. split; [apply Q.le_min_l | apply Q.le_max_l]. }
  assert (Hs' : total legs s' == A * s' + B).
  { apply Haff. split; [apply Q.le_min_r | apply Q.le_max_r]. }
  destruct (interpolation_convex s s' _ _ Hpp) as (t & Ht0 & Ht1 & Hbe).
  set (p := total legs s) in *. set (p' := total legs s') in *.
  set (be := s - p * (s' - s) / (p' - p)) in *.
  assert (Hd : ~ p' - p == 0) by (intro E; nra).
  assert (Hin : Qmin s s' <= be <= Qmax s s').
  { rewrite Hbe.
    destruct (Q.min_spec s s') as [[Hlt' Em]|[Hlt' Em]];
      destruct (Q.max_spec s s') as [[Hlt EM]|[Hlt EM]];
      rewrite Em, EM; split; nra. }
  rewrite (Haff be Hin).
  assert (Hbe2 : (p' - p) * be == (p' - p) * s - p * (s' - s)).
  { unfold be. field. exact Hd. }
  assert (HA : p' - p == A * (s' - s)) by (rewrite Hs, Hs'; ring).
  assert (HAne : ~ A == 0) by (intro E; apply Hd; rewrite HA, E; ring).
  assert (Hz : (p' - p) * (A * be + B) == 0).
  { transitivity (A * ((p' - p) * be) + (p' - p) * B); [ring|].
    rewrite Hbe2, HA, Hs. ring. }
  destruct (Qmult_integral _ _ Hz) as [E|E]; [contradiction|exact E].
Qed.


(** An arithmetic progression changes sign at most once. *)
Lemma arithmetic_single_sign_change (a delta n : Q) :
  0 <= n ->
  a * (a + delta) < 0 ->
  (a + delta + n * delta) * (a + delta + n * delta + delta) < 0 ->
  False.
Proof.
  intros Hn H1 H2.
  destruct (Qlt_le_dec delta 0) as [Hd|Hd].
  - assert (Hnd : n * delta <= 0) by nra.
    assert (Hb : a + delta < 0).
    { destruct (Qlt_le_dec (a + delta) 0) as [H|H]; [exact H|]. nra. }
    set (c := a + delta + n * delta) in *.
    assert (Hc : c < 0) by (unfold c; lra).
    nra.
  - assert (Hnd : 0 <= n * delta) by nra.
    assert (Hb : 0 < a + delta).
    { destruct (Qlt_le_dec 0 (a + delta)) as [H|H]; [exact H|]. nra. }
    set (c := a + delta + n * delta) in *.
    assert (Hc : 0 < c) by (unfold c; lra).
    nra.
Qed.

Lemma inject_nat_le (i j : nat) :
  (i <= j)%nat -> inject_Z (Z.of_nat i) <= inject_Z (Z.of_nat j).
Proof. intro H. rewrite <- Zle_Qle. lia. Qed.

Lemma inject_nat_succ (i : nat) :
  inject_Z (Z.of_nat (i + 1)) == inject_Z (Z.of_nat i) + 1.
Proof. rewrite Nat2Z.inj_add, inject_Z_plus. reflexivity. Qed.

Lemma inject_nat_sub (i j : nat) :
  (i <= j)%nat ->
  inject_Z (Z.of_nat j) == inject_Z (Z.of_nat i) + inject_Z (Z.of_nat (j - i)).
Proof.
  intro H. rewrite <- inject_Z_plus, <- Nat2Z.inj_add.
  replace (i + (j - i))%nat with j by lia. reflexivity.
Qed.

Lemma sample_succ lo hi k :
  sample lo hi (k + 1) ==
  sample lo hi k + (range_stop lo hi - range_start lo hi) / 999.
Proof. unfold sample. rewrite inject_nat_succ. field. Qed.

Lemma sample_le lo hi i j :
  range_start lo hi <= range_stop lo hi -> (i <= j)%nat ->
  sample lo hi i <= sample lo hi j.
Proof.
  intros Hr Hij. unfold sample.
  pose proof (inject_nat_le i j Hij) as H.
  set (step := (range_stop lo hi - range_start lo hi) / 999).
  assert (Hstep : 0 <= step).
  { unfold step. apply Qle_shift_div_l; [reflexivity|]. lra. }
  nra.
Qed.

(** The break-even point located between samples [i] and [i + 1]. *)
Definition break_even_at (legs : list OptionLeg) (lo hi : Q) (i : nat) : Q :=
  sample lo hi i -
  total legs (sample lo hi i) * (sample lo hi (i + 1) - sample lo hi i) /
  (total legs (sample lo hi (i + 1)) - total legs (sample lo hi i)).

(** The payoffs at samples [i] and [i + 1] have opposite signs. *)
Definition crossing (legs : list OptionLeg) (lo hi : Q) (i : nat) : Prop :=
  total legs (sample lo hi i) * total legs (sample lo hi (i + 1)) < 0.

Lemma break_even_between legs lo hi i :
  range_start lo hi < range_stop lo hi ->
  crossing legs lo hi i ->
  sample lo hi i < break_even_at legs lo hi i /\
  break_even_at legs lo hi i < sample lo hi (i + 1).
Proof.
  intros Hr Hc. unfold break_even_at.
  destruct (interpolation_convex (sample lo hi i) (sample lo hi (i + 1)) _ _ Hc)
    as (t & Ht0 & Ht1 & Hbe).
  rewrite Hbe. rewrite sample_succ.
  set (step := (range_stop lo hi - range_start lo hi) / 999).
  assert (Hstep : 0 < step).
  { unfold step. apply Qlt_shift_div_l; [reflexivity|]. lra. }
  split; nra.
Qed.

Lemma strike_bounds_le legs lo hi : strike_bounds legs lo hi -> lo <= hi.
Proof. intros (_ & Hmin & Hhi & _). apply Hmin. exact Hhi. Qed.

(** When the range does not increase, all its samples lie at or above
    every strike and only one crossing is possible. *)
Lemma single_crossing legs lo hi i j :
  strike_bounds legs lo hi ->
  range_stop lo hi <= range_start lo hi ->
  (i < j)%nat -> (j < 999)%nat ->
  crossing legs lo hi i -> crossing legs lo hi j -> False.
Proof.
  intros Hb Hr Hij Hj Hci Hcj.
  pose proof (strike_bounds_le _ _ _ Hb) as Hlohi.
  assert (Hfree : strike_free legs (range_stop lo hi) (range_start lo hi)).
  { intros leg Hleg. left.
    destruct Hb as (_ & _ & _ & Hmax).
    apply Qle_trans with hi.
    - apply Hmax. apply in_map. exact Hleg.
    - unfold range_stop. lra. }
  destruct (total_affine legs _ _ Hfree) as (A & B & Haff).
  set (step := (range_stop lo hi - range_start lo hi) / 999).
  assert (Hstep : step <= 0).
  { unfold step. apply Qle_shift_div_r; [reflexivity|]. lra. }
  assert (Hstep999 : range_start lo hi + 999 * step == range_stop lo hi).
  { unfold step. field. }
  assert (Hin : forall k, (k <= 999)%nat ->
            range_stop lo hi <= sample lo hi k <= range_start lo hi).
  { intros k Hk. unfold sample. fold step.
    pose proof (inject_nat_le k 999 Hk) as H1.
    pose proof (inject_nat_le 0 k ltac:(lia)) as H0.
    change (inject_Z (Z.of_nat 999)) with 999 in H1.
    change (inject_Z (Z.of_nat 0)) with 0 in H0.
    split; nra. }
  unfold crossing in Hci, Hcj.
  rewrite (Haff (sample lo hi i)), (Haff (sample lo hi (i + 1))) in Hci
    by (apply Hin; lia).
  rewrite (Haff (sample lo hi j)), (Haff (sample lo hi (j + 1))) in Hcj
    by (apply Hin; lia).
  rewrite !sample_succ in Hci, Hcj. fold step in Hci, Hcj.
  assert (Hsj : sample lo hi j ==
                sample lo hi i + step +
                inject_Z (Z.of_nat (j - (i + 1))) * step).
  { unfold sample. fold step.
    rewrite (inject_nat_sub (i + 1) j) by lia.
    rewrite inject_nat_succ. ring. }
  rewrite Hsj in Hcj.
  pose proof (inject_nat_le 0 (j - (i + 1)) ltac:(lia)) as Hn.
  change (inject_Z (Z.of_nat 0)) with 0 in Hn.
  set (n := inject_Z (Z.of_nat (j - (i + 1)))) in *.
  apply (arithmetic_single_sign_change
           (A * sample lo hi i + B) (A * step) n Hn).
  - setoid_replace (A * sample lo hi i + B + A * step)
      with (A * (sample lo hi i + step) + B) by ring.
    exact Hci.
  - setoid_replace (A * sample lo hi i + B + A * step + n * (A * step))
      with (A * (sample lo hi i + step + n * step) + B) by ring.
    setoid_replace (A * (sample lo hi i + step + n * step) + B + A * step)
      with (A * (sample lo hi i + step + n * step + step) + B) by ring.
    exact Hcj.
Qed.

Lemma break_evens_ascending legs lo hi i j :
  strike_bounds legs lo hi ->
  (i < j)%nat -> (j < 999)%nat ->
  crossing legs lo hi i -> crossing legs lo hi j ->
  break_even_at legs lo hi i < break_even_at legs lo hi j.
Proof.
  intros Hb Hij Hj Hci Hcj.
  destruct (Qlt_le_dec (range_start lo hi) (range_stop lo hi)) as [Hr|Hr].
  - destruct (break_even_between legs lo hi i Hr Hci) as [_ H1].
    destruct (break_even_between legs lo hi j Hr Hcj) as [H2 _].
    pose proof (sample_le lo hi (i + 1) j ltac:(lra) ltac:(lia)) as H3.
    lra.
  - exfalso. exact (single_crossing legs lo hi i j Hb Hr Hij Hj Hci Hcj).
Qed.


Definition crossingb (legs : list OptionLeg) (lo hi : Q) (i : nat) : bool :=
  if Qlt_le_dec
       (total legs (sample lo hi i) * total legs (sample lo hi (i + 1))) 0
  then true else false.

Lemma crossingb_true legs lo hi i :
  crossingb legs lo hi i = true <-> crossing legs lo hi i.
Proof.
  unfold crossingb, crossing. destruct (Qlt_le_dec _ _) as [H|H]; split; intro H'.
  - exact H.
  - reflexivity.
  - discriminate H'.
  - exfalso. lra.
Qed.

(** C6 (as amended): [break_even_points] returns, in scan order, exactly
    one point for each pair of consecutive samples of the analysis range
    whose payoffs have a negative product (so pairs where a payoff is zero
    are omitted), the point being the linear interpolation between the two
    samples; the points are in strictly ascending order; and a returned
    point is an exact zero of the payoff whenever no leg strike lies
    strictly between its two bracketing samples. *)
Theorem break_even_points_by_interpolation :
  forall legs,
    legs <> [] ->
    exists lo hi bes,
      strike_bounds legs lo hi /\
      break_even_points legs = Ok bes /\
      bes = map (break_even_at legs lo hi)
              (filter (crossingb legs lo hi) (seq 0 999)) /\
      StronglySorted Qlt bes /\
      (forall i, (i < 999)%nat ->
         crossing legs lo hi i ->
         strike_free legs
           (Qmin (sample lo hi i) (sample lo hi (i + 1)))
           (Qmax (sample lo hi i) (sample lo hi (i + 1))) ->
         total legs (break_even_at legs lo hi i) == 0 /\
         Qabs (total legs (break_even_at legs lo hi i)) < 0.01).
Proof.
  intros legs Hne.
  destruct (analysis_range_samples legs Hne)
    as (lo & hi & spots & Hb & Hr & Hlen & Hnth).
  exists lo, hi. eexists. split; [exact Hb|].
  assert (Hpay : forall k, (k < 1000)%nat ->
            nth k (calculate_payoff legs spots) 0 = total legs (sample lo hi k)).
  { intros k Hk. rewrite calculate_payoff_nth by lia. rewrite Hnth by exact Hk.
    reflexivity. }
  assert (Hscan : scan_break_evens spots (calculate_payoff legs spots) =
                  map (break_even_at legs lo hi)
                    (filter (crossingb legs lo hi) (seq 0 999))).
  { rewrite scan_break_evens_filter, calculate_payoff_length, Hlen.
    change (1000 - 1)%nat with 999%nat.
    rewrite (filter_ext_in (sign_change (calculate_payoff legs spots))
               (crossingb legs lo hi)).
    - apply map_ext_in. intros i Hi. apply filter_In in Hi.
      destruct Hi as [Hi _]. apply in_seq in Hi.
      unfold interpolate, break_even_at.
      rewrite !Hpay, !Hnth by lia. reflexivity.
    - intros i Hi. apply in_seq in Hi. unfold sign_change, crossingb.
      rewrite !Hpay by lia. reflexivity. }
  split; [|split; [reflexivity|split]].
  - unfold break_even_points. rewrite Hr. cbn [bind]. rewrite Hscan. reflexivity.
  - apply map_sorted; [apply filter_seq_sorted|].
    intros i j Hi Hj Hij.
    apply filter_In in Hi, Hj. destruct Hi as [_ Hi], Hj as [Hj' Hj].
    apply in_seq in Hj'. apply crossingb_true in Hi, Hj.
    apply break_evens_ascending; try assumption; lia.
  - intros i Hi Hc Hfree.
    assert (Hz : total legs (break_even_at legs lo hi i) == 0)
      by (apply interpolation_exact; assumption).
    split; [exact Hz|]. rewrite Hz. reflexivity.
Qed.

Lemma break_even_points_witness :
  let legs := [mk_leg "call" 95 "long" 1 13.5; mk_leg "call" 105 "short" 1 8] in
  legs <> [] /\
  exists lo hi bes,
    strike_bounds legs lo hi /\
    break_even_points legs = Ok bes /\
    bes = map (break_even_at legs lo hi)
            (filter (crossingb legs lo hi) (seq 0 999)) /\
    StronglySorted Qlt bes /\
    (forall i, (i < 999)%nat ->
       crossing legs lo hi i ->
       strike_free legs
         (Qmin (sample lo hi i) (sample lo hi (i + 1)))
         (Qmax (sample lo hi i) (sample lo hi (i + 1))) ->
       total legs (break_even_at legs lo hi i) == 0 /\
       Qabs (total legs (break_even_at legs lo hi i)) < 0.01).
Proof.
  intro legs. split; [discriminate|].
  apply (break_even_points_by_interpolation legs). discriminate.
Defined.

(** C6 (as stated) fails: for a long call struck at 1000 (premium 1.25)
    and a short call struck at 1999 (premium 1) the samples are 2 apart,
    the strike 1000 lies between the samples 998.5 and 1000.5, and the only
    break-even point returned is 999.5, where the payoff is -0.25. *)
Lemma break_even_inaccurate_example :
  let legs := [mk_leg "call" 1000 "long" 1 1.25;
               mk_leg "call" 1999 "short" 1 1] in
  exists be payoff_at_be,
    break_even_points legs = Ok [be] /\
    calculate_payoff legs [be] = [payoff_at_be] /\
    be == 999.5 /\
    payoff_at_be == - 0.25 /\
    ~ Qabs payoff_at_be < 0.01.
Proof.
  intro legs. do 2 eexists.
  split; [vm_compute; reflexivity|].
  split; [vm_compute; reflexivity|].
  split; [vm_compute; reflexivity|].
  split; [vm_compute; reflexivity|].
  vm_compute. discriminate.
Qed.

End StrategyProperties.

(** ** Greeks *)

Module GreeksProperties.
Import Greeks.
Local Open Scope R_scope.

(** The bundle computed when the strike is not zero. *)
Lemma calculate_all_greeks_result spot strike T r vol ot :
  strike <> 0 ->
  exists g, calculate_all_greeks spot strike T r vol ot = Ok g.
Proof.
  intro Hk. unfold calculate_all_greeks, delta, gamma, theta, vega, rho,
    _calculate_d1.
  destruct (Req_dec_T strike 0) as [E|_]; [contradiction|]. cbn [bind].
  destruct (string_dec (lower ot) "call"); cbn [bind]; eexists; reflexivity.
Qed.

Lemma calculate_all_greeks_zero_strike spot T r vol ot :
  calculate_all_greeks spot 0 T r vol ot = Raise ZeroDivisionError.
Proof.
  unfold calculate_all_greeks, delta, _calculate_d1.
  destruct (Req_dec_T 0 0) as [_|N]; [reflexivity|contradiction].
Qed.

Lemma calculate_all_greeks_side spot strike T r vol ot :
  calculate_all_greeks spot strike T r vol ot =
  calculate_all_greeks spot strike T r vol
    (if string_dec (lower ot) "call" then "call" else "put")%string.
Proof.
  unfold calculate_all_greeks, delta, gamma, theta, vega, rho.
  destruct (string_dec (lower ot) "call") as [E|E].
  - change (lower "call") with "call"%string.
    destruct (string_dec "call" "call") as [_|N]; [reflexivity|contradiction].
  - change (lower "put") with "put"%string.
    destruct (string_dec "put" "call") as [E'|_]; [discriminate E'|reflexivity].
Qed.

(** C8 (as amended): [GreeksCalculator] performs no parameter validation.
    [calculate_all_greeks] never raises the validation error; it raises
    [ZeroDivisionError] when the strike is zero and otherwise returns the
    five Greeks, whatever the other parameters are; an option type whose
    lowercase form is not [call] is computed as a put. *)
Theorem greeks_are_not_validated :
  forall spot strike T r vol ot,
    (forall msg v,
       calculate_all_greeks spot strike T r vol ot <> Raise (ValueError msg v)) /\
    (if Req_dec_T strike 0
     then calculate_all_greeks spot strike T r vol ot = Raise ZeroDivisionError
     else exists g, calculate_all_greeks spot strike T r vol ot = Ok g) /\
    calculate_all_greeks spot strike T r vol ot =
    calculate_all_greeks spot strike T r vol
      (if string_dec (lower ot) "call" then "call" else "put")%string.
Proof.
  intros spot strike T r vol ot.
  assert (H : if Req_dec_T strike 0
              then calculate_all_greeks spot strike T r vol ot =
                   Raise ZeroDivisionError
              else exists g, calculate_all_greeks spot strike T r vol ot = Ok g).
  { destruct (Req_dec_T strike 0) as [E|E].
    - subst strike. apply calculate_all_greeks_zero_strike.
    - apply calculate_all_greeks_result. exact E. }
  split; [|split; [exact H | apply calculate_all_greeks_side]].
  intros msg v Hr. destruct (Req_dec_T strike 0) as [E|E].
  - rewrite H in Hr. discriminate Hr.
  - destruct H as [g Hg]. rewrite Hg in Hr. discriminate Hr.
Qed.

(** C8 (as stated) fails: the option type [straddle] is rejected by
    [validate_inputs], yet [calculate_all_greeks] returns a bundle for it,
    the one of the put. *)
Lemma greeks_accept_unrecognized_option_type :
  BaseModel.validate_inputs 100 100 1 0.05 0.2 "straddle" =
    Raise (ValueError "Option type must be 'call' or 'put'. Got: "
             (PyStr "straddle")) /\
  exists g,
    calculate_all_greeks 100 100 1 0.05 0.2 "straddle" = Ok g /\
    calculate_all_greeks 100 100 1 0.05 0.2 "put" = Ok g.
Proof.
  split.
  - unfold BaseModel.validate_inputs.
    assert (H6 : Rleb 100 0 = false) by (apply Rleb_false; lra).
    assert (H7 : Rleb 1 0 = false) by (apply Rleb_false; lra).
    assert (H8 : Rleb 0.2 0 = false) by (apply Rleb_false; lra).
    assert (H9 : Rltb 0.05 (-0.1) = false) by (apply Rltb_false; lra).
    assert (H10 : Rltb 0.5 0.05 = false) by (apply Rltb_false; lra).
    rewrite H6, H7, H8, H9, H10. reflexivity.
  - destruct (calculate_all_greeks_result 100 100 1 0.05 0.2 "put") as [g Hg];
      [lra|].
    exists g. split; [|exact Hg].
    rewrite calculate_all_greeks_side. exact Hg.
Qed.

End GreeksProperties.

(** ** Monte Carlo *)

Module MonteCarloProperties.
Import MonteCarlo.
Local Open Scope R_scope.

Section Generator.

Variable rng : Type.
Variable np_random_seed : Z -> rng.
Variable standard_normal : rng -> nat -> nat -> (nat -> nat -> R) * rng.
Variable norm_ppf : R -> R.

Local Abbreviation calculate_price := (calculate_price rng standard_normal).
Local Abbreviation calculate_price_with_confidence :=
  (calculate_price_with_confidence rng standard_normal norm_ppf).
Local Abbreviation batch_step := (batch_step rng standard_normal).

(** The number of paths drawn by one call of [calculate_price]. *)
Definition drawn_paths (self : MonteCarloModel) : Z :=
  if antithetic self then (num_simulations self / 2)%Z else num_simulations self.

(** With valid inputs, at least one step and a non-negative number of
    paths, [calculate_price] returns a price. *)
Lemma calculate_price_returns self spot strike T r vol ot g :
  valid_inputs spot strike T r vol ot ->
  (1 <= num_steps self)%Z -> (0 <= drawn_paths self)%Z ->
  exists p g', calculate_price self spot strike T r vol ot g = (Ok p, g').
Proof.
  intros Hv Hs Hn. unfold MonteCarlo.calculate_price.
  apply validate_inputs_ok_iff in Hv. rewrite Hv.
  replace (num_steps self =? 0)%Z with false by (symmetry; apply Z.eqb_neq; lia).
  replace (num_steps self <? 0)%Z with false by (symmetry; apply Z.ltb_ge; lia).
  unfold drawn_paths in Hn.
  replace ((if antithetic self then (num_simulations self / 2)%Z
            else num_simulations self) <? 0)%Z
    with false by (symmetry; apply Z.ltb_ge; exact Hn).
  cbn [orb].
  destruct (standard_normal g _ _) as [z g']. do 2 eexists. reflexivity.
Qed.

(** [n] successive pricings by the same instance, each continuing from
    the generator state left by the previous one. *)
Inductive batch_run (self : MonteCarloModel) (spot strike T r vol : R)
    (ot : string) : nat -> rng -> list R -> rng -> Prop :=
| batch_run_done g : batch_run self spot strike T r vol ot 0 g [] g
| batch_run_next n g p g1 ps g2 :
    calculate_price self spot strike T r vol ot g = (Ok p, g1) ->
    batch_run self spot strike T r vol ot n g1 ps g2 ->
    batch_run self spot strike T r vol ot (S n) g (p :: ps) g2.

Lemma batch_run_exists self spot strike T r vol ot n g :
  valid_inputs spot strike T r vol ot ->
  (1 <= num_steps self)%Z -> (0 <= drawn_paths self)%Z ->
  exists ps g', batch_run self spot strike T r vol ot n g ps g'.
Proof.
  intros Hv Hs Hn. revert g. induction n as [|n IH]; intro g.
  - exists [], g. constructor.
  - destruct (calculate_price_returns self spot strike T r vol ot g Hv Hs Hn)
      as (p & g1 & Hp).
    destruct (IH g1) as (ps & g2 & Hrun).
    exists (p :: ps), g2. econstructor; eassumption.
Qed.

Lemma batch_run_length self spot strike T r vol ot n g ps g' :
  batch_run self spot strike T r vol ot n g ps g' -> List.length ps = n.
Proof. induction 1; simpl; congruence. Qed.

Lemma for_range_constant_body {St : Type} (f : St -> St) (n : nat) (s : St) :
  for_range (S n) (fun _ => f) s = for_range n (fun _ => f) (f s).
Proof.
  unfold for_range. cbn [seq fold_left].
  generalize (f s) as s'. generalize 0%nat as a.
  induction n as [|n IH]; intros a s'; cbn [seq fold_left]; [reflexivity|].
  apply IH.
Qed.

Lemma set_num_simulations_restore self b :
  set_num_simulations (set_num_simulations self b) (num_simulations self) = self.
Proof. destruct self. reflexivity. Qed.

(** The batch loop appends the prices of the successive pricings and
    leaves the instance as it was. *)
Lemma batch_loop self b spot strike T r vol ot n g ps g' acc :
  batch_run (set_num_simulations self b) spot strike T r vol ot n g ps g' ->
  for_range n (fun _ => batch_step b spot strike T r vol ot) (Ok acc, self, g) =
  (Ok (acc ++ ps), self, g').
Proof.
  intro Hrun. revert acc.
  induction Hrun as [g|n g p g1 ps g2 Hp Hrun IH]; intro acc.
  - rewrite for_range_0, app_nil_r. reflexivity.
  - rewrite for_range_constant_body.
    unfold MonteCarlo.batch_step at 2. rewrite Hp.
    rewrite set_num_simulations_restore, IH, <- app_assoc. reflexivity.
Qed.

Lemma np_std_nonneg (l : list R) : 0 <= np_std l.
Proof. unfold np_std. apply sqrt_pos. Qed.

(** C4 (as amended): with valid inputs, a confidence level in [[0, 1)],
    at least one time step and at least one path per batch,
    [calculate_price_with_confidence] prices 10 batches one after the
    other with [num_simulations // 10] simulations each, and returns their
    mean as the price, their (population) standard deviation divided by
    [sqrt 10] as the standard error, and the price minus and plus
    [z * std_error] as the bounds, [z] being the normal quantile at
    [(1 + confidence_level) / 2]; the instance is left unchanged and
    [lower_bound <= price <= upper_bound].  The quantile function enters
    only through its being non-negative from the median upwards. *)
Theorem confidence_interval_from_ten_batches :
  (forall q, 1 / 2 <= q < 1 -> 0 <= norm_ppf q) ->
  forall self spot strike T r vol ot level g,
    valid_inputs spot strike T r vol ot ->
    0 <= level < 1 ->
    (1 <= num_steps self)%Z ->
    (1 <= drawn_paths (set_num_simulations self (num_simulations self / 10)))%Z ->
    exists batch_prices g',
      batch_run (set_num_simulations self (num_simulations self / 10))
        spot strike T r vol ot 10 g batch_prices g' /\
      let z := norm_ppf ((1 + level) / 2) in
      let result :=
        mk_confidence
          (np_mean batch_prices)
          (np_std batch_prices / sqrt 10)
          (np_mean batch_prices - z * (np_std batch_prices / sqrt 10))
          (np_mean batch_prices + z * (np_std batch_prices / sqrt 10))
          level in
      calculate_price_with_confidence self spot strike T r vol ot level g =
        (Ok result, self, g') /\
      lower_bound result <= price result <= upper_bound result.
Proof.
  intros Hppf self spot strike T r vol ot level g Hv Hl Hs Hn.
  destruct (batch_run_exists
              (set_num_simulations self (num_simulations self / 10))
              spot strike T r vol ot 10 g Hv Hs ltac:(lia))
    as (ps & g' & Hrun).
  exists ps, g'. split; [exact Hrun|]. cbn zeta. split.
  - unfold MonteCarlo.calculate_price_with_confidence.
    rewrite (batch_loop self _ spot strike T r vol ot 10 g ps g' [] Hrun).
    cbn [app]. replace (INR 10) with 10 by (simpl; lra). reflexivity.
  - cbn [lower_bound price upper_bound].
    assert (Hz : 0 <= norm_ppf ((1 + level) / 2)) by (apply Hppf; lra).
    assert (Hse : 0 <= np_std ps / sqrt 10).
    { apply Rmult_le_pos; [apply np_std_nonneg|].
      apply Rlt_le, Rinv_0_lt_compat, sqrt_lt_R0. lra. }
    pose proof (Rmult_le_pos _ _ Hz Hse). lra.
Qed.

End Generator.


(** A stand-in for numpy's generator in closed examples: its state counts
    the matrices drawn since seeding, and the matrix drawn in state [k] is
    filled with the value [k]. *)
Definition counter_rng : Type := nat.
Definition counter_seed (s : Z) : counter_rng := 0%nat.
Definition counter_standard_normal (g : counter_rng) (rows cols : nat)
    : (nat -> nat -> R) * counter_rng :=
  (fun _ _ => INR g, S g).

Lemma valid_call_example : valid_inputs 100 1 1 0.05 0.2 "call".
Proof.
  unfold valid_inputs. simpl. repeat split; try lra. left; reflexivity.
Qed.

(** A stand-in for the quantile function: any function that is
    non-negative from the median upwards will do. *)
Definition offset_ppf (q : R) : R := q - 1 / 2.

Lemma confidence_interval_witness :
  let self := mk_model 20 1 None true in
  ((forall q, 1 / 2 <= q < 1 -> 0 <= offset_ppf q) /\
   valid_inputs 100 1 1 0.05 0.2 "call" /\
   0 <= 0.95 < 1 /\
   (1 <= num_steps self)%Z /\
   (1 <= drawn_paths (set_num_simulations self (num_simulations self / 10)))%Z) /\
  exists batch_prices g',
    batch_run counter_rng counter_standard_normal
      (set_num_simulations self (num_simulations self / 10))
      100 1 1 0.05 0.2 "call" 10 0%nat batch_prices g' /\
    let z := offset_ppf ((1 + 0.95) / 2) in
    let result :=
      mk_confidence
        (np_mean batch_prices)
        (np_std batch_prices / sqrt 10)
        (np_mean batch_prices - z * (np_std batch_prices / sqrt 10))
        (np_mean batch_prices + z * (np_std batch_prices / sqrt 10))
        0.95 in
    calculate_price_with_confidence counter_rng counter_standard_normal
      offset_ppf self 100 1 1 0.05 0.2 "call" 0.95 0%nat =
      (Ok result, self, g') /\
    lower_bound result <= price result <= upper_bound result.
Proof.
  intro self.
  assert (Hq : forall q, 1 / 2 <= q < 1 -> 0 <= offset_ppf q)
    by (intros q Hq; unfold offset_ppf; lra).
  assert (Hl : 0 <= 0.95 < 1) by lra.
  assert (Hs : (1 <= num_steps self)%Z) by (cbn; lia).
  assert (Hn : (1 <= drawn_paths
                      (set_num_simulations self (num_simulations self / 10)))%Z)
    by (vm_compute; discriminate).
  split; [repeat split; try assumption; try apply valid_call_example; lra|].
  exact (confidence_interval_from_ten_batches counter_rng counter_standard_normal
           offset_ppf Hq self 100 1 1 0.05 0.2 "call"%string 0.95 0%nat
           valid_call_example Hl Hs Hn).
Defined.

(** One path, one step, no antithetic pairing, on the stand-in generator. *)
Lemma counter_price (sd : option Z) (g : counter_rng) :
  calculate_price counter_rng counter_standard_normal
    (mk_model 1 1 sd false) 100 1 1 0.05 0.2 "call" g =
  (Ok (exp (- (0.05) * 1) * (100 * exp (0.03 + 0.2 * INR g) - 1)), S g).
Proof.
  unfold calculate_price.
  pose proof valid_call_example as Hv. apply validate_inputs_ok_iff in Hv.
  rewrite Hv. cbn [num_steps num_simulations antithetic Z.eqb Z.ltb Z.compare orb].
  change (Z.to_nat 1) with 1%nat.
  cbn [counter_standard_normal].
  unfold simulate_paths, for_range_from.
  cbn [Nat.add Nat.sub seq fold_left ncols nrows np_zeros setrow row map cell
       Nat.eqb].
  change (BaseModel._get_option_type "call") with "call"%string.
  unfold payoffs. destruct (string_dec "call" "call") as [_|N]; [|contradiction].
  cbn [map]. unfold np_mean, np_sum. cbn [fold_right List.length INR].
  replace (1 / 1) with 1 by lra. rewrite sqrt_1.
  replace ((0.05 - 0.5 * 0.2 ^ 2) * 1 + 0.2 * 1 * INR g)
    with (0.03 + 0.2 * INR g) by lra.
  assert (Hx : 1 <= exp (0.03 + 0.2 * INR g)).
  { pose proof (exp_lower (0.03 + 0.2 * INR g)). pose proof (pos_INR g). lra. }
  rewrite Rmax_left by lra.
  do 2 f_equal. lra.
Qed.

Lemma counter_prices_differ :
  exp (- (0.05) * 1) * (100 * exp (0.03 + 0.2 * INR 0) - 1) <>
  exp (- (0.05) * 1) * (100 * exp (0.03 + 0.2 * INR 1) - 1).
Proof.
  intro E.
  pose proof (exp_pos (- (0.05) * 1)) as HD.
  apply Rmult_eq_reg_l in E; [|lra].
  assert (Hlt : exp (0.03 + 0.2 * INR 0) < exp (0.03 + 0.2 * INR 1)).
  { apply exp_increasing. simpl. lra. }
  lra.
Qed.

(** Construct a model while the global generator is in state [g], then
    price once. *)
Definition price_after_construction (rng : Type) (np_random_seed : Z -> rng)
    (standard_normal : rng -> nat -> nat -> (nat -> nat -> R) * rng)
    (num_simulations num_steps : Z) (seed : option Z) (antithetic : bool)
    (spot strike T r vol : R) (ot : string) (g : rng) : result R :=
  let '(model, g0) :=
    init rng np_random_seed num_simulations num_steps seed antithetic g in
  fst (calculate_price rng standard_normal model spot strike T r vol ot g0).

(** C7 (as amended): a pricing performed right after the construction of
    the model with a seed is reproducible: whatever the earlier state of
    the global generator, identical seed, configuration and parameters
    give the identical result.  Without a seed the pricing continues from
    the ambient state of the generator and may differ from run to run. *)
Theorem seeded_construction_then_price_is_reproducible :
  (forall (rng : Type) np_random_seed standard_normal
          num_simulations num_steps (seed : Z) antithetic
          spot strike T r vol ot (g1 g2 : rng),
     price_after_construction rng np_random_seed standard_normal
       num_simulations num_steps (Some seed) antithetic
       spot strike T r vol ot g1 =
     price_after_construction rng np_random_seed standard_normal
       num_simulations num_steps (Some seed) antithetic
       spot strike T r vol ot g2) /\
  (exists (rng : Type) np_random_seed standard_normal
          num_simulations num_steps antithetic
          spot strike T r vol ot (g1 g2 : rng),
     price_after_construction rng np_random_seed standard_normal
       num_simulations num_steps None antithetic
       spot strike T r vol ot g1 <>
     price_after_construction rng np_random_seed standard_normal
       num_simulations num_steps None antithetic
       spot strike T r vol ot g2).
Proof.
  split.
  - intros. reflexivity.
  - exists counter_rng, counter_seed, counter_standard_normal,
      1%Z, 1%Z, false, 100, 1, 1, 0.05, 0.2, "call"%string, 0%nat, 1%nat.
    unfold price_after_construction, init.
    rewrite !counter_price. cbn [fst].
    intro E. injection E as E. exact (counter_prices_differ E).
Qed.

(** C7 (as stated) fails: two pricings by the same seeded instance have
    the same seed, configuration and parameters, but the second continues
    from the generator state left by the first; on the stand-in generator
    their prices differ. *)
Lemma repeated_pricing_differs :
  exists model g0 p1 g1 p2 g2,
    init counter_rng counter_seed 1 1 (Some 42%Z) false 7%nat = (model, g0) /\
    calculate_price counter_rng counter_standard_normal model
      100 1 1 0.05 0.2 "call" g0 = (Ok p1, g1) /\
    calculate_price counter_rng counter_standard_normal model
      100 1 1 0.05 0.2 "call" g1 = (Ok p2, g2) /\
    seed model = Some 42%Z /\
    p1 <> p2.
Proof.
  do 6 eexists. split; [reflexivity|].
  split; [apply counter_price|]. split; [apply counter_price|].
  split; [reflexivity|]. apply counter_prices_differ.
Qed.

(** The standard deviation of batch prices that are not all equal is
    positive. *)
Lemma np_sum_ge_term (l : list R) (x : R) :
  Forall (fun v => 0 <= v) l -> In x l -> x <= np_sum l.
Proof.
  induction 1 as [|v l Hv Hall IH]; intros Hin; [contradiction|].
  change (np_sum (v :: l)) with (v + np_sum l).
  assert (Hs : 0 <= np_sum l).
  { clear IH Hin. induction Hall as [|w l Hw _ IH]; [simpl; lra|].
    change (np_sum (w :: l)) with (w + np_sum l). lra. }
  destruct Hin as [E|Hin]; [subst; lra|]. specialize (IH Hin). lra.
Qed.

Lemma np_std_pos (l : list R) (x y : R) :
  In x l -> In y l -> x <> y -> 0 < np_std l.
Proof.
  intros Hx Hy Hxy. unfold np_std. apply sqrt_lt_R0.
  set (m := np_mean l).
  assert (Hz : exists z, In z l /\ z <> m).
  { destruct (Req_dec x m) as [E|E]; [|exists x; split; assumption].
    exists y. split; [exact Hy|]. intro E'. apply Hxy. congruence. }
  destruct Hz as (z & Hz & Hzm).
  assert (Hterm : (z - m) ^ 2 <= np_sum (map (fun v => (v - m) ^ 2) l)).
  { apply np_sum_ge_term.
    - apply Forall_map, Forall_forall. intros v _. apply pow2_ge_0.
    - apply (in_map (fun v => (v - m) ^ 2)). exact Hz. }
  assert (Hpos : 0 < (z - m) ^ 2).
  { simpl. rewrite Rmult_1_r. apply Rsqr_pos_lt. lra. }
  unfold np_mean at 1. rewrite length_map.
  apply Rdiv_lt_0_compat; [lra|].
  apply lt_0_INR. destruct l; [contradiction | simpl; lia].
Qed.

(** The ten batch prices of a budget of ten one-step paths on the
    stand-in generator. *)
Definition counter_batch_prices : list R :=
  map (fun g => exp (- (0.05) * 1) * (100 * exp (0.03 + 0.2 * INR g) - 1))
    (seq 0 10).

Lemma counter_batch_run (n g : nat) :
  batch_run counter_rng counter_standard_normal (mk_model 1 1 None false)
    100 1 1 0.05 0.2 "call" n g
    (map (fun g => exp (- (0.05) * 1) * (100 * exp (0.03 + 0.2 * INR g) - 1))
       (seq g n))
    (g + n)%nat.
Proof.
  revert g. induction n as [|n IH]; intro g.
  - rewrite Nat.add_0_r. constructor.
  - cbn [seq map]. econstructor; [apply counter_price|].
    replace (g + S n)%nat with (S g + n)%nat by lia. apply IH.
Qed.

(** C4 (as stated) fails for a negative confidence level: the quantile at
    [(1 + level) / 2 < 1/2] is negative (for the standard normal as for the
    stand-in), the margin is negative and the bounds are swapped. *)
Lemma negative_level_inverts_bounds :
  exists result g',
    valid_inputs 100 1 1 0.05 0.2 "call" /\
    calculate_price_with_confidence counter_rng counter_standard_normal
      offset_ppf (mk_model 10 1 None false) 100 1 1 0.05 0.2 "call" (- (0.5))
      0%nat = (Ok result, mk_model 10 1 None false, g') /\
    offset_ppf ((1 + - (0.5)) / 2) < 0 /\
    upper_bound result < price result < lower_bound result.
Proof.
  do 2 eexists. split; [exact valid_call_example|]. split.
  - unfold calculate_price_with_confidence. cbn [num_simulations].
    rewrite (batch_loop counter_rng counter_standard_normal
               (mk_model 10 1 None false) (10 / 10)%Z 100 1 1 0.05 0.2 "call"
               10 0%nat counter_batch_prices 10%nat []
               (counter_batch_run 10 0)).
    cbn [app]. reflexivity.
  - assert (Hz : offset_ppf ((1 + - (0.5)) / 2) < 0)
      by (unfold offset_ppf; lra).
    split; [exact Hz|].
    cbn [upper_bound price lower_bound].
    assert (Hstd : 0 < np_std counter_batch_prices).
    { apply (np_std_pos _
               (exp (- (0.05) * 1) * (100 * exp (0.03 + 0.2 * INR 0) - 1))
               (exp (- (0.05) * 1) * (100 * exp (0.03 + 0.2 * INR 1) - 1))).
      - unfold counter_batch_prices. cbn [seq map]. left. reflexivity.
      - unfold counter_batch_prices. cbn [seq map]. right. left. reflexivity.
      - exact counter_prices_differ. }
    assert (Hse : 0 < np_std counter_batch_prices / sqrt (INR 10)).
    { apply Rdiv_lt_0_compat; [exact Hstd|]. apply sqrt_lt_R0, lt_0_INR. lia. }
    pose proof (Rmult_lt_0_compat _ _ (Ropp_0_gt_lt_contravar _ Hz) Hse) as Hm.
    set (z := offset_ppf ((1 + - (0.5)) / 2)) in *.
    set (se := np_std counter_batch_prices / sqrt (INR 10)) in *.
    split; lra.
Qed.

End MonteCarloProperties.

(** * Further properties of the pricing core *)

(** ** The binomial lattice: calls, parity and scaling *)

Module BinomialTreeLattice.
Import BinomialTree BinomialTreeFacts BinomialTreeProperties.
Local Open Scope R_scope.

(** Facts on the CRR parameters of a valid input. *)
Lemma crr_facts T r vol steps :
  0 < T -> 0 < vol -> (1 <= steps)%Z ->
  let c := crr_parameters T r vol steps in
  0 < crr_dt c /\ 1 < crr_u c /\ crr_u c * crr_d c = 1 /\ 0 < crr_d c /\
  crr_p c * crr_u c + (1 - crr_p c) * crr_d c = exp (r * crr_dt c) /\
  crr_discount c * exp (r * crr_dt c) = 1 /\
  0 < crr_discount c /\
  crr_dt c * IZR steps = T.
Proof.
  intros HT Hvol Hsteps. unfold crr_parameters.
  cbn [crr_dt crr_u crr_d crr_p crr_discount].
  assert (Hn : 0 < IZR steps) by (apply IZR_lt; lia).
  assert (Hdt : 0 < T / IZR steps) by (apply Rdiv_lt_0_compat; assumption).
  set (dt := T / IZR steps) in *.
  assert (Hs : 0 < sqrt dt) by (apply sqrt_lt_R0; exact Hdt).
  assert (Hu : 1 < exp (vol * sqrt dt)).
  { rewrite <- exp_0. apply exp_increasing. apply Rmult_lt_0_compat; lra. }
  set (u := exp (vol * sqrt dt)) in *.
  assert (Hd : 0 < 1 / u) by (apply Rdiv_lt_0_compat; lra).
  assert (Hud : u * (1 / u) = 1) by (field; lra).
  assert (Hdlt : 1 / u < 1).
  { apply Rmult_lt_reg_r with u; [lra|]. rewrite Rmult_comm, Hud. lra. }
  repeat split; try assumption.
  - set (w := 1 / u) in *. set (a := exp (r * dt)).
    assert (HD : 0 < u - w) by lra.
    set (D := u - w) in *.
    replace ((a - w) / D * u + (1 - (a - w) / D) * w)
      with (w + (a - w) / D * D) by (unfold D; ring).
    unfold Rdiv. rewrite Rmult_assoc, Rinv_l by lra. ring.
  - replace (- r * dt) with (- (r * dt)) by ring.
    rewrite <- exp_plus, Rplus_opp_l. apply exp_0.
  - apply exp_pos.
  - unfold dt. field. lra.
Qed.

Lemma call_payoff strike price :
  exercise_payoff "call" strike price = Rmax 0 (price - strike).
Proof.
  unfold exercise_payoff.
  destruct (string_dec "call" "call") as [_|N]; [reflexivity|contradiction].
Qed.

Section Lattice.

Variables (spot strike u d p discount growth : R).
Hypothesis Hspot : 0 < spot.
Hypothesis Hstrike : 0 < strike.
Hypothesis Hu : 0 < u.
Hypothesis Hd : 0 < d.
Hypothesis Hmean : p * u + (1 - p) * d = growth.
Hypothesis Hdisc : discount * growth = 1.
Hypothesis Hdisc_pos : 0 < discount.

Let price (i j : nat) : R := spot * u ^ j * d ^ (i - j).

Lemma price_up i j : (j <= i)%nat -> price (i + 1) (j + 1) = price i j * u.
Proof.
  intro Hj. unfold price.
  replace (i + 1 - (j + 1))%nat with (i - j)%nat by lia.
  replace (j + 1)%nat with (S j) by lia. simpl. ring.
Qed.

Lemma price_down i j : (j <= i)%nat -> price (i + 1) j = price i j * d.
Proof.
  intro Hj. unfold price.
  replace (i + 1 - j)%nat with (S (i - j)) by lia. simpl. ring.
Qed.

Lemma price_pos i j : 0 < price i j.
Proof.
  unfold price. apply Rmult_lt_0_compat; [apply Rmult_lt_0_compat|];
    [exact Hspot | apply pow_lt; exact Hu | apply pow_lt; exact Hd].
Qed.

(** The discounted expectation of the successor prices is the price. *)
Lemma discounted_mean i j :
  (j <= i)%nat ->
  discount * (p * price (i + 1) (j + 1) + (1 - p) * price (i + 1) j) = price i j.
Proof.
  intro Hj. rewrite price_up, price_down by exact Hj.
  replace (p * (price i j * u) + (1 - p) * (price i j * d))
    with (price i j * (p * u + (1 - p) * d)) by ring.
  rewrite Hmean.
  replace (discount * (price i j * growth))
    with (price i j * (discount * growth)) by ring.
  rewrite Hdisc. ring.
Qed.


Hypothesis Hp : 0 <= p <= 1.
Hypothesis Hgrowth : 1 <= growth.

(** With a non-negative rate the continuation value of a call is never
    below its exercise value: the American and the European call agree at
    every node and no node is exercised early. *)
Lemma call_never_exercised k : forall i j,
  (j <= i)%nat ->
  lattice_value true "call" spot strike u d p discount k i j =
  lattice_value false "call" spot strike u d p discount k i j /\
  Rmax 0 (price i j - strike) <=
  lattice_value false "call" spot strike u d p discount k i j.
Proof.
  assert (Hd1 : discount <= 1).
  { assert (discount * 1 <= discount * growth)
      by (apply Rmult_le_compat_l; lra). lra. }
  induction k as [|k IH]; intros i j Hj.
  - cbn [lattice_value]. rewrite call_payoff. fold (price i j). split; lra.
  - cbn [lattice_value]. fold (price i j).
    destruct (IH (i + 1)%nat (j + 1)%nat ltac:(lia)) as [Eup Lup].
    destruct (IH (i + 1)%nat j ltac:(lia)) as [Edown Ldown].
    rewrite Eup, Edown.
    pose proof (discounted_mean i j Hj) as Hm.
    set (cu := lattice_value false "call" spot strike u d p discount k (i + 1) (j + 1)) in *.
    set (cd := lattice_value false "call" spot strike u d p discount k (i + 1) j) in *.
    assert (Hcu0 : 0 <= cu) by (eapply Rle_trans; [apply Rmax_l|exact Lup]).
    assert (Hcd0 : 0 <= cd) by (eapply Rle_trans; [apply Rmax_l|exact Ldown]).
    assert (Hcu1 : price (i + 1) (j + 1) - strike <= cu)
      by (eapply Rle_trans; [apply Rmax_r|exact Lup]).
    assert (Hcd1 : price (i + 1) j - strike <= cd)
      by (eapply Rle_trans; [apply Rmax_r|exact Ldown]).
    assert (Hcont0 : 0 <= discount * (p * cu + (1 - p) * cd)).
    { apply Rmult_le_pos; [lra|].
      apply Rplus_le_le_0_compat; apply Rmult_le_pos; lra. }
    assert (Hcont1 : price i j - strike <= discount * (p * cu + (1 - p) * cd)).
    { apply Rle_trans with
        (discount * (p * (price (i + 1) (j + 1) - strike) +
                     (1 - p) * (price (i + 1) j - strike))).
      - replace (discount * (p * (price (i + 1) (j + 1) - strike) +
                             (1 - p) * (price (i + 1) j - strike)))
          with (discount * (p * price (i + 1) (j + 1) +
                            (1 - p) * price (i + 1) j) - discount * strike)
          by ring.
        rewrite Hm. nra.
      - apply Rmult_le_compat_l; [lra|].
        apply Rplus_le_compat; apply Rmult_le_compat_l; lra. }
    assert (Hmax : Rmax 0 (price i j - strike) <=
                   discount * (p * cu + (1 - p) * cd))
      by (apply Rmax_lub; assumption).
    split.
    + rewrite node_value_continue; [reflexivity|].
      rewrite call_payoff. exact Hmax.
    + unfold node_value. exact Hmax.
Qed.

End Lattice.



Lemma valid_call T r vol spot strike :
  0 < spot -> 0 < strike -> 0 < T -> 0 < vol -> -0.1 <= r <= 0.5 ->
  valid_inputs spot strike T r vol "call".
Proof.
  intros. unfold valid_inputs. repeat split; try assumption; try lra.
  left. reflexivity.
Qed.

Lemma valid_put T r vol spot strike :
  0 < spot -> 0 < strike -> 0 < T -> 0 < vol -> -0.1 <= r <= 0.5 ->
  valid_inputs spot strike T r vol "put".
Proof.
  intros. unfold valid_inputs. repeat split; try assumption; try lra.
  right. reflexivity.
Qed.



(** With a non-negative rate and [r sqrt(dt) <= sigma] (so that [p] is a
    probability), early exercise of a call is never worth more than
    holding it: the American call price equals the European call price. *)
Theorem american_call_equals_european_call :
  forall spot strike T r vol steps,
    0 < spot -> 0 < strike -> 0 < T -> 0 < vol -> 0 <= r <= 0.5 ->
    (1 <= steps)%Z ->
    r * sqrt (T / IZR steps) <= vol ->
    fst (calculate_price (init steps true) spot strike T r vol "call") =
    fst (calculate_price (init steps false) spot strike T r vol "call").
Proof.
  intros spot strike T r vol steps Hs Hk HT Hv Hr Hn Hrv.
  rewrite !calculate_price_init
    by (try (apply valid_call; try assumption; lra); exact Hn).
  f_equal.
  change (BaseModel._get_option_type "call") with "call"%string.
  destruct (crr_facts T r vol steps HT Hv Hn)
    as (Hdt & Hu & Hud & Hd & Hmean & Hdisc & Hdpos & HdtT).
  assert (Hp : 0 <= crr_p (crr_parameters T r vol steps) <= 1).
  { apply crr_p_probability; try assumption. rewrite Rabs_right by lra. exact Hrv. }
  set (c := crr_parameters T r vol steps) in *.
  assert (Hg : 1 <= exp (r * crr_dt c)).
  { rewrite <- exp_0. destruct (Req_dec (r * crr_dt c) 0) as [E|E].
    - rewrite E. lra.
    - left. apply exp_increasing.
      assert (0 <= r * crr_dt c) by (apply Rmult_le_pos; lra). lra. }
  apply (call_never_exercised spot strike (crr_u c) (crr_d c) (crr_p c)
           (crr_discount c) (exp (r * crr_dt c))); try assumption; try lra; lia.
Qed.

Lemma american_call_equals_european_call_witness :
  (0 < 100 /\ 0 < 100 /\ 0 < 1 /\ 0 < 0.2 /\ 0 <= 0.05 <= 0.5 /\
   (1 <= 100)%Z /\ 0.05 * sqrt (1 / IZR 100) <= 0.2) /\
  fst (calculate_price (init 100 true) 100 100 1 0.05 0.2 "call") =
  fst (calculate_price (init 100 false) 100 100 1 0.05 0.2 "call").
Proof.
  assert (H : 0.05 * sqrt (1 / IZR 100) <= 0.2).
  { assert (H1 : sqrt (1 / 100) <= sqrt 1) by (apply sqrt_le_1_alt; lra).
    rewrite sqrt_1 in H1. lra. }
  split; [repeat split; try lra; try lia; exact H|].
  apply (american_call_equals_european_call 100 100 1 0.05 0.2 100);
    try lra; try lia.
Defined.

End BinomialTreeLattice.

(** ** models/binomial_tree.py: the stored trees and the diagnostics *)

Module BinomialTreeDiagnostics.
Import BaseModel BinomialTree.
Local Open Scope R_scope.

(** The dictionary returned by [get_tree_data]. *)
Record TreeData : Type := mk_tree_data {
  td_price_tree : ndarray R;
  td_option_tree : option (ndarray R);
  td_exercise_tree : option (ndarray bool);
  td_num_steps : Z;
  td_american : bool
}.

(** [get_tree_data]. *)
Definition get_tree_data (self : BinomialTreeModel) : option TreeData :=
  match _last_price_tree self with
  | None => None
  | Some price_tree =>
    Some (mk_tree_data price_tree (_last_option_tree self)
            (_last_exercise_tree self) (num_steps self) (american self))
  end.

(** [self.num_steps = steps]. *)
Definition set_num_steps (self : BinomialTreeModel) (steps : Z) : BinomialTreeModel :=
  mk_model steps (american self) (_last_price_tree self)
    (_last_option_tree self) (_last_exercise_tree self).

(** The dictionary returned by [get_convergence_analysis]. *)
Record ConvergenceResult : Type := mk_convergence {
  cv_step_sizes : list Z;
  cv_prices : list R;
  cv_final_price : R;
  cv_convergence : bool
}.

(** One iteration of the loop of [get_convergence_analysis]: the prices so
    far (or the exception being propagated) and the instance. *)
Definition convergence_step
    (spot strike time_to_maturity risk_free_rate volatility : R)
    (option_type : string)
    (st : result (list R) * BinomialTreeModel) (steps : Z)
    : result (list R) * BinomialTreeModel :=
  match st with
  | (Raise e, self) => (Raise e, self)
  | (Ok prices, self) =>
    let self := set_num_steps self steps in
    match calculate_price self spot strike time_to_maturity risk_free_rate
            volatility option_type with
    | (Raise e, self) => (Raise e, self)
    | (Ok price, self) => (Ok (prices ++ [price]), self)
    end
  end.

(** [get_convergence_analysis]; [prices[-1]] raises on an empty list. *)
Definition get_convergence_analysis (self : BinomialTreeModel)
    (spot strike time_to_maturity risk_free_rate volatility : R)
    (option_type : string) (step_sizes : option (list Z))
    : result ConvergenceResult * BinomialTreeModel :=
  let step_sizes :=
    match step_sizes with
    | None => [10; 25; 50; 100; 200; 500]%Z
    | Some l => l
    end in
  let original_steps := num_steps self in
  match fold_left
          (convergence_step spot strike time_to_maturity risk_free_rate
             volatility option_type)
          step_sizes (Ok [], self) with
  | (Raise e, self) => (Raise e, self)
  | (Ok prices, self) =>
    let self := set_num_steps self original_steps in
    match rev prices with
    | [] => (Raise IndexError, self)
    | final_price :: _ =>
      (Ok (mk_convergence step_sizes prices final_price true), self)
    end
  end.

(** Sequencing of calls of [calculate_price] on the same instance. *)
Definition then_price {A : Type} (r : result R * BinomialTreeModel)
    (k : R -> BinomialTreeModel -> result A * BinomialTreeModel)
    : result A * BinomialTreeModel :=
  match r with
  | (Raise e, self) => (Raise e, self)
  | (Ok price, self) => k price self
  end.

(** [calculate_greeks_numerical].  The divisions are reached only after
    the base price was computed, hence with a positive spot and volatility. *)
Definition calculate_greeks_numerical (self : BinomialTreeModel)
    (spot strike time_to_maturity risk_free_rate volatility : R)
    (option_type : string) : result Greeks.GreeksBundle * BinomialTreeModel :=
  let h_spot := spot * 0.01 in
  let h_vol := volatility * 0.01 in
  let h_rate := 0.0001 in
  let h_time := 1 / 365 in
  then_price (calculate_price self spot strike time_to_maturity
                risk_free_rate volatility option_type)
  (fun price self =>
  then_price (calculate_price self (spot + h_spot) strike time_to_maturity
                risk_free_rate volatility option_type)
  (fun price_up self =>
  then_price (calculate_price self (spot - h_spot) strike time_to_maturity
                risk_free_rate volatility option_type)
  (fun price_down self =>
  let delta := (price_up - price_down) / (2 * h_spot) in
  let gamma := (price_up - 2 * price + price_down) / (h_spot ^ 2) in
  then_price
    (if Rltb h_time time_to_maturity then
       then_price (calculate_price self spot strike (time_to_maturity - h_time)
                     risk_free_rate volatility option_type)
         (fun price_time self => (Ok (- (price_time - price) / h_time), self))
     else (Ok 0, self))
  (fun theta self =>
  then_price (calculate_price self spot strike time_to_maturity
                risk_free_rate (volatility + h_vol) option_type)
  (fun price_vol_up self =>
  let vega := (price_vol_up - price) / h_vol in
  then_price (calculate_price self spot strike time_to_maturity
                (risk_free_rate + h_rate) volatility option_type)
  (fun price_rate_up self =>
  let rho := (price_rate_up - price) / h_rate in
  (Ok (Greeks.mk_greeks delta gamma (theta / 365) (vega / 100) (rho / 100)),
   self))))))).


(** *** The stored trees *)

Import BinomialTreeFacts.

(** The trees computed by a successful pricing. *)
Definition priced_trees (am : bool) (option_type : string)
    (spot strike T r vol : R) (steps : Z) : ndarray R * (ndarray R * ndarray bool) :=
  let n := Z.to_nat steps in
  let c := crr_parameters T r vol steps in
  let price_tree := build_price_tree n spot (crr_u c) (crr_d c) in
  (price_tree,
   backward_induction n am option_type strike (crr_p c) (crr_discount c)
     price_tree
     (terminal_values n option_type strike price_tree
        (np_zeros (n + 1) (n + 1) 0),
      np_zeros (n + 1) (n + 1) false)).

Lemma calculate_price_trees self spot strike T r vol ot :
  valid_inputs spot strike T r vol ot ->
  (1 <= num_steps self)%Z ->
  let trees := priced_trees (american self) (_get_option_type ot)
                 spot strike T r vol (num_steps self) in
  calculate_price self spot strike T r vol ot =
  (Ok (cell (fst (snd trees)) 0 0),
   store_trees self (fst trees) (fst (snd trees)) (snd (snd trees))).
Proof.
  intros Hvalid Hsteps trees. unfold calculate_price.
  apply validate_inputs_ok_iff in Hvalid. rewrite Hvalid.
  replace (num_steps self =? 0)%Z with false by (symmetry; apply Z.eqb_neq; lia).
  replace (num_steps self <? -1)%Z with false by (symmetry; apply Z.ltb_ge; lia).
  replace (num_steps self =? -1)%Z with false by (symmetry; apply Z.eqb_neq; lia).
  unfold trees, priced_trees. cbn [fst snd].
  destruct (backward_induction _ _ _ _ _ _ _ _) as [o e]. reflexivity.
Qed.

Lemma calculate_price_invalid self spot strike T r vol ot e :
  validate_inputs spot strike T r vol ot = Raise e ->
  calculate_price self spot strike T r vol ot = (Raise e, self).
Proof. intro H. unfold calculate_price. rewrite H. reflexivity. Qed.

(** Loops of assignments keep the shape of an array. *)
Lemma for_range_shape {A : Type} (f : nat -> ndarray A -> ndarray A) (n : nat)
    (a : ndarray A) :
  (forall k b, nrows (f k b) = nrows b /\ ncols (f k b) = ncols b) ->
  nrows (for_range n f a) = nrows a /\ ncols (for_range n f a) = ncols a.
Proof.
  intro Hf. induction n as [|n IH].
  - rewrite for_range_0. split; reflexivity.
  - rewrite for_range_S. destruct (Hf n (for_range n f a)) as [H1 H2].
    rewrite H1, H2. exact IH.
Qed.

Lemma build_price_tree_shape n spot u d :
  nrows (build_price_tree n spot u d) = (n + 1)%nat /\
  ncols (build_price_tree n spot u d) = (n + 1)%nat.
Proof.
  unfold build_price_tree.
  apply (for_range_shape
           (fun i price_tree =>
              for_range (i + 1)
                (fun j price_tree =>
                   setitem price_tree i j (spot * u ^ j * d ^ (i - j)))
                price_tree) (n + 1) (np_zeros (n + 1) (n + 1) 0)).
  intros k b. apply for_range_shape. intros j b'. split; reflexivity.
Qed.

Lemma for_range_invariant {St : Type} (P : St -> Prop) (f : nat -> St -> St)
    (n : nat) (s : St) :
  P s -> (forall k s', P s' -> P (f k s')) -> P (for_range n f s).
Proof.
  intros Hs Hf. induction n as [|n IH]; [rewrite for_range_0; exact Hs|].
  rewrite for_range_S. apply Hf, IH.
Qed.

Lemma for_range_down_invariant {St : Type} (P : St -> Prop)
    (f : nat -> St -> St) (n : nat) (s : St) :
  P s -> (forall k s', P s' -> P (f k s')) -> P (for_range_down n f s).
Proof.
  intros Hs Hf. revert s Hs. induction n as [|n IH]; intros s Hs.
  - exact Hs.
  - rewrite for_range_down_S. apply IH, Hf, Hs.
Qed.

Lemma terminal_values_shape n ot strike price_tree option_tree :
  nrows (terminal_values n ot strike price_tree option_tree) = nrows option_tree /\
  ncols (terminal_values n ot strike price_tree option_tree) = ncols option_tree.
Proof.
  unfold terminal_values. apply for_range_shape. intros j b. split; reflexivity.
Qed.

(** The shapes of two trees. *)
Definition shape (trees : ndarray R * ndarray bool) : (nat * nat) * (nat * nat) :=
  ((nrows (fst trees), ncols (fst trees)), (nrows (snd trees), ncols (snd trees))).

Lemma backward_node_shape am ot strike p discount price_tree i j trees :
  shape (backward_node am ot strike p discount price_tree i j trees) =
  shape trees.
Proof.
  destruct trees as [o e]. unfold backward_node.
  destruct am; [destruct (Rltb _ _)|]; reflexivity.
Qed.

Lemma backward_induction_shape n am ot strike p discount price_tree trees :
  shape (backward_induction n am ot strike p discount price_tree trees) =
  shape trees.
Proof.
  unfold backward_induction.
  apply (for_range_down_invariant (fun t => shape t = shape trees));
    [reflexivity|].
  intros i t Ht.
  apply (for_range_invariant (fun t => shape t = shape trees)); [exact Ht|].
  intros j t' Ht'. rewrite backward_node_shape. exact Ht'.
Qed.

(** [get_tree_data] returns nothing before the first pricing, keeps
    returning what it returned when a pricing fails validation, and after a
    successful pricing returns the trees of that pricing, all three of
    shape [(n + 1, n + 1)]: a price tree whose root is the spot, whose
    populated nodes are [spot u^j d^(i-j)] and which recombines (an up move
    followed by a down move returns to the same price), an option tree
    whose root is the returned price, and the exercise tree. *)
Theorem tree_data_after_pricing :
  (forall steps am, get_tree_data (init steps am) = None) /\
  (forall self spot strike T r vol ot e,
     validate_inputs spot strike T r vol ot = Raise e ->
     get_tree_data (snd (calculate_price self spot strike T r vol ot)) =
     get_tree_data self) /\
  (forall self spot strike T r vol ot,
     valid_inputs spot strike T r vol ot ->
     (1 <= num_steps self)%Z ->
     let n := Z.to_nat (num_steps self) in
     let c := crr_parameters T r vol (num_steps self) in
     exists price self' price_tree option_tree exercise_tree,
       calculate_price self spot strike T r vol ot = (Ok price, self') /\
       get_tree_data self' =
         Some (mk_tree_data price_tree (Some option_tree) (Some exercise_tree)
                 (num_steps self) (american self)) /\
       nrows price_tree = (n + 1)%nat /\ ncols price_tree = (n + 1)%nat /\
       nrows option_tree = (n + 1)%nat /\ ncols option_tree = (n + 1)%nat /\
       nrows exercise_tree = (n + 1)%nat /\
       ncols exercise_tree = (n + 1)%nat /\
       cell price_tree 0 0 = spot /\
       (forall i j, (i <= n)%nat -> (j <= i)%nat ->
          cell price_tree i j = spot * crr_u c ^ j * crr_d c ^ (i - j)) /\
       (forall i j, (i + 2 <= n)%nat -> (j <= i)%nat ->
          cell price_tree (i + 2) (j + 1) = cell price_tree i j) /\
       cell option_tree 0 0 = price).
Proof.
  split; [reflexivity|]. split.
  - intros self spot strike T r vol ot e He.
    rewrite (calculate_price_invalid _ _ _ _ _ _ _ _ He). reflexivity.
  - intros self spot strike T r vol ot Hv Hs n c.
    rewrite (calculate_price_trees self spot strike T r vol ot Hv Hs).
    unfold priced_trees. cbn [fst snd]. fold n. fold c.
    destruct Hv as (Hspot & Hk & HT & Hvol & Hr & Hot).
    do 5 eexists. split; [reflexivity|]. split; [reflexivity|].
    destruct (build_price_tree_shape n spot (crr_u c) (crr_d c)) as [Hr1 Hr2].
    split; [exact Hr1|]. split; [exact Hr2|].
    pose proof (backward_induction_shape n (american self) (_get_option_type ot)
                  strike (crr_p c) (crr_discount c)
                  (build_price_tree n spot (crr_u c) (crr_d c))
                  (terminal_values n (_get_option_type ot) strike
                     (build_price_tree n spot (crr_u c) (crr_d c))
                     (np_zeros (n + 1) (n + 1) 0),
                   np_zeros (n + 1) (n + 1) false)) as Hshape.
    unfold shape in Hshape. cbn [fst snd] in Hshape.
    destruct (terminal_values_shape n (_get_option_type ot) strike
                (build_price_tree n spot (crr_u c) (crr_d c))
                (np_zeros (n + 1) (n + 1) 0)) as [Ht1 Ht2].
    rewrite Ht1, Ht2 in Hshape. cbn [np_zeros nrows ncols] in Hshape.
    injection Hshape as Ho1 Ho2 He1 He2.
    split; [exact Ho1|]. split; [exact Ho2|].
    split; [exact He1|]. split; [exact He2|].
    assert (Hcell : forall i j, (i <= n)%nat -> (j <= i)%nat ->
              cell (build_price_tree n spot (crr_u c) (crr_d c)) i j =
              spot * crr_u c ^ j * crr_d c ^ (i - j))
      by (intros; apply build_price_tree_cell; assumption).
    split; [rewrite Hcell by lia; cbn [pow Nat.sub]; ring|].
    split; [exact Hcell|]. split; [|reflexivity].
    intros i j Hi Hj. rewrite !Hcell by lia.
    pose proof (BinomialTreeLattice.crr_facts T r vol (num_steps self)
                  HT Hvol Hs) as F.
    cbv zeta in F. fold c in F. destruct F as (_ & _ & Hud & _).
    replace (i + 2 - (j + 1))%nat with (S (i - j)) by lia.
    replace (j + 1)%nat with (S j) by lia. cbn [pow].
    transitivity (spot * crr_u c ^ j * crr_d c ^ (i - j) * (crr_u c * crr_d c));
      [ring | rewrite Hud; ring].
Qed.

Lemma tree_data_after_pricing_witness :
  (valid_inputs 100 100 1 0.05 0.2 "put" /\ (1 <= num_steps (init 3 true))%Z) /\
  exists price self' price_tree option_tree exercise_tree,
    calculate_price (init 3 true) 100 100 1 0.05 0.2 "put" = (Ok price, self') /\
    get_tree_data self' =
      Some (mk_tree_data price_tree (Some option_tree) (Some exercise_tree)
              3 true) /\
    nrows price_tree = 4%nat /\ ncols price_tree = 4%nat /\
    nrows option_tree = 4%nat /\ ncols option_tree = 4%nat /\
    nrows exercise_tree = 4%nat /\ ncols exercise_tree = 4%nat /\
    cell price_tree 0 0 = 100 /\
    (forall i j, (i <= 3)%nat -> (j <= i)%nat ->
       cell price_tree i j =
       100 * crr_u (crr_parameters 1 0.05 0.2 3) ^ j *
       crr_d (crr_parameters 1 0.05 0.2 3) ^ (i - j)) /\
    (forall i j, (i + 2 <= 3)%nat -> (j <= i)%nat ->
       cell price_tree (i + 2) (j + 1) = cell price_tree i j) /\
    cell option_tree 0 0 = price.
Proof.
  assert (Hv : valid_inputs 100 100 1 0.05 0.2 "put")
    by (apply BinomialTreeLattice.valid_put; lra).
  assert (Hs : (1 <= num_steps (init 3 true))%Z) by (cbn; lia).
  split; [split; assumption|].
  exact (proj2 (proj2 tree_data_after_pricing)
           (init 3 true) 100 100 1 0.05 0.2 "put"%string Hv Hs).
Defined.


(** *** The early-exercise flags *)

(** The test of the backward induction at a node. *)
Definition exercises (am : bool) (ot : string) (strike p discount : R)
    (v_up v_down price : R) : bool :=
  am && Rltb (discount * (p * v_up + (1 - p) * v_down))
             (exercise_payoff ot strike price).

Lemma backward_node_exercise_tree am ot strike p discount price_tree i j o e :
  snd (backward_node am ot strike p discount price_tree i j (o, e)) =
  if exercises am ot strike p discount
       (cell o (i + 1) (j + 1)) (cell o (i + 1) j) (cell price_tree i j)
  then setitem e i j true else e.
Proof.
  unfold backward_node, exercises.
  destruct am; [|reflexivity]. cbn [andb].
  destruct (Rltb _ _); reflexivity.
Qed.

Lemma backward_row_flags am ot strike p discount price_tree i m trees i' j' :
  cell (snd (for_range m
               (backward_node am ot strike p discount price_tree i)
               trees)) i' j' =
  if (i' =? i)%nat && (j' <? m)%nat &&
     exercises am ot strike p discount
       (cell (fst trees) (i + 1) (j' + 1)) (cell (fst trees) (i + 1) j')
       (cell price_tree i j')
  then true
  else cell (snd trees) i' j'.
Proof.
  revert i' j'. induction m as [|m IH]; intros i' j'.
  - rewrite for_range_0, andb_false_r. reflexivity.
  - rewrite for_range_S.
    pose proof (backward_row_cell am ot strike p discount price_tree i m trees)
      as Hfst.
    destruct (for_range m _ trees) as [o e] eqn:E.
    rewrite backward_node_exercise_tree. cbn [fst snd] in *.
    rewrite !Hfst.
    replace (i + 1 =? i)%nat with false by (symmetry; apply Nat.eqb_neq; lia).
    cbn [andb].
    destruct (Nat.eqb_spec i' i) as [Hi|Hi]; cbn [andb].
    + subst i'. destruct (Nat.eqb_spec j' m) as [Hj|Hj].
      * subst j'. replace (m <? S m)%nat with true
          by (symmetry; apply Nat.ltb_lt; lia). cbn [andb].
        destruct (exercises _ _ _ _ _ _ _ _) eqn:Ex.
        -- unfold setitem. cbn [cell]. rewrite !Nat.eqb_refl. reflexivity.
        -- rewrite IH. rewrite Nat.eqb_refl, Nat.ltb_irrefl. reflexivity.
      * assert (Hset : forall b : ndarray bool,
                  cell (if exercises am ot strike p discount
                             (cell (fst trees) (i + 1) (m + 1))
                             (cell (fst trees) (i + 1) m) (cell price_tree i m)
                        then setitem b i m true else b) i j' = cell b i j').
        { intro b. destruct (exercises _ _ _ _ _ _ _ _); [|reflexivity].
          unfold setitem. cbn [cell]. rewrite Nat.eqb_refl.
          replace (j' =? m)%nat with false by (symmetry; apply Nat.eqb_neq; lia).
          reflexivity. }
        rewrite Hset, IH. rewrite Nat.eqb_refl. cbn [andb].
        destruct (Nat.ltb_spec j' m), (Nat.ltb_spec j' (S m));
          try reflexivity; lia.
    + assert (Hset : forall b : ndarray bool,
                cell (if exercises am ot strike p discount
                           (cell (fst trees) (i + 1) (m + 1))
                           (cell (fst trees) (i + 1) m) (cell price_tree i m)
                      then setitem b i m true else b) i' j' = cell b i' j').
      { intro b. destruct (exercises _ _ _ _ _ _ _ _); [|reflexivity].
        unfold setitem. cbn [cell].
        replace (i' =? i)%nat with false by (symmetry; apply Nat.eqb_neq; lia).
        reflexivity. }
      rewrite Hset, IH.
      replace (i' =? i)%nat with false by (symmetry; apply Nat.eqb_neq; lia).
      reflexivity.
Qed.

Section Flags.

Variables (n : nat) (am : bool) (ot : string).
Variables (spot strike u d p discount : R).

Let price_tree := build_price_tree n spot u d.
Let V := lattice_value am ot spot strike u d p discount.

(** The flag the backward induction leaves at node [(i, j)]. *)
Definition flag_at (i j : nat) : bool :=
  (i <? n)%nat && (j <=? i)%nat &&
  exercises am ot strike p discount
    (V (n - (i + 1)) (i + 1) (j + 1))%nat (V (n - (i + 1)) (i + 1) j)%nat
    (spot * u ^ j * d ^ (i - j)).

Lemma backward_induction_flags (m : nat) (trees : ndarray R * ndarray bool) :
  (m <= n)%nat ->
  (forall i j, (m <= i <= n)%nat -> (j <= i)%nat ->
     cell (fst trees) i j = V (n - i)%nat i j) ->
  (forall i j, cell (snd trees) i j = (m <=? i)%nat && flag_at i j) ->
  forall i j,
    cell (snd (for_range_down m
                 (fun i trees =>
                    for_range (i + 1)
                      (backward_node am ot strike p discount price_tree i)
                      trees)
                 trees)) i j = flag_at i j.
Proof.
  revert trees. induction m as [|m IH]; intros trees Hm Hrows Hflags i j.
  - unfold for_range_down. simpl. rewrite Hflags. reflexivity.
  - rewrite for_range_down_S. apply IH; try lia.
    + intros i0 j0 Hi0 Hj0. rewrite backward_row_cell.
      destruct (Nat.eqb_spec i0 m) as [E|E]; simpl.
      * subst i0. replace (j0 <? m + 1)%nat with true
          by (symmetry; apply Nat.ltb_lt; lia).
        rewrite !Hrows by lia.
        unfold price_tree. rewrite build_price_tree_cell by lia.
        unfold V. replace (n - m)%nat with (S (n - (m + 1))) by lia. reflexivity.
      * apply Hrows; lia.
    + intros i0 j0. rewrite backward_row_flags, Hflags.
      destruct (Nat.eqb_spec i0 m) as [E|E]; cbn [andb].
      * subst i0.
        replace (S m <=? m)%nat with false by (symmetry; apply Nat.leb_gt; lia).
        rewrite Nat.leb_refl. cbn [andb]. unfold flag_at.
        replace (m <? n)%nat with true by (symmetry; apply Nat.ltb_lt; lia).
        cbn [andb].
        destruct (Nat.leb_spec j0 m) as [Hj|Hj].
        -- replace (j0 <? m + 1)%nat with true
             by (symmetry; apply Nat.ltb_lt; lia). cbn [andb].
           rewrite !Hrows by lia.
           unfold price_tree. rewrite build_price_tree_cell by lia.
           destruct (exercises _ _ _ _ _ _ _ _); reflexivity.
        -- replace (j0 <? m + 1)%nat with false
             by (symmetry; apply Nat.ltb_ge; lia). reflexivity.
      * destruct (Nat.leb_spec (S m) i0), (Nat.leb_spec m i0);
          try reflexivity; lia.
Qed.

Lemma exercise_tree_cell (i j : nat) :
  cell (snd (backward_induction n am ot strike p discount price_tree
               (terminal_values n ot strike price_tree
                  (np_zeros (n + 1) (n + 1) 0),
                np_zeros (n + 1) (n + 1) false))) i j = flag_at i j.
Proof.
  unfold backward_induction. apply backward_induction_flags; try lia.
  - intros i0 j0 Hi0 Hj0. cbn [fst]. rewrite terminal_values_cell.
    assert (i0 = n) by lia. subst i0. rewrite Nat.eqb_refl.
    replace (j0 <? n + 1)%nat with true by (symmetry; apply Nat.ltb_lt; lia).
    simpl. unfold price_tree. rewrite build_price_tree_cell by lia.
    unfold V. rewrite Nat.sub_diag. reflexivity.
  - intros i0 j0. cbn [snd np_zeros cell]. unfold flag_at.
    destruct (Nat.leb_spec n i0); [|reflexivity].
    replace (i0 <? n)%nat with false by (symmetry; apply Nat.ltb_ge; lia).
    reflexivity.
Qed.

End Flags.


(** After a successful pricing the exercise tree flags exactly the nodes
    before expiration, of an American instance, whose exercise value
    exceeds the continuation value computed from the two successor nodes;
    the option value stored at a flagged node is its exercise value.  A
    European instance and the terminal row carry no flag. *)
Theorem exercise_flags_mark_early_exercise :
  forall self spot strike T r vol ot,
    valid_inputs spot strike T r vol ot ->
    (1 <= num_steps self)%Z ->
    let n := Z.to_nat (num_steps self) in
    let c := crr_parameters T r vol (num_steps self) in
    exists price self' price_tree option_tree exercise_tree,
      calculate_price self spot strike T r vol ot = (Ok price, self') /\
      get_tree_data self' =
        Some (mk_tree_data price_tree (Some option_tree) (Some exercise_tree)
                (num_steps self) (american self)) /\
      forall i j,
        (cell exercise_tree i j = true <->
         american self = true /\ (i < n)%nat /\ (j <= i)%nat /\
         crr_discount c *
           (crr_p c * cell option_tree (i + 1) (j + 1) +
            (1 - crr_p c) * cell option_tree (i + 1) j) <
         exercise_payoff (_get_option_type ot) strike (cell price_tree i j)) /\
        (cell exercise_tree i j = true ->
         cell option_tree i j =
         exercise_payoff (_get_option_type ot) strike (cell price_tree i j)).
Proof.
  intros self spot strike T r vol ot Hv Hs n c.
  rewrite (calculate_price_trees self spot strike T r vol ot Hv Hs).
  unfold priced_trees. cbn [fst snd]. fold n. fold c.
  do 5 eexists. split; [reflexivity|]. split; [reflexivity|].
  intros i j. rewrite exercise_tree_cell.
  set (typ := _get_option_type ot).
  set (V := lattice_value (american self) typ spot strike (crr_u c) (crr_d c)
              (crr_p c) (crr_discount c)).
  assert (Hot : forall i0 j0, (i0 <= n)%nat -> (j0 <= i0)%nat ->
            cell (fst (backward_induction n (american self) typ strike
                         (crr_p c) (crr_discount c)
                         (build_price_tree n spot (crr_u c) (crr_d c))
                         (terminal_values n typ strike
                            (build_price_tree n spot (crr_u c) (crr_d c))
                            (np_zeros (n + 1) (n + 1) 0),
                          np_zeros (n + 1) (n + 1) false))) i0 j0 =
            V (n - i0)%nat i0 j0)
    by (intros; apply option_tree_cell; assumption).
  assert (Hflag : flag_at n (american self) typ spot strike (crr_u c) (crr_d c)
                    (crr_p c) (crr_discount c) i j = true <->
                  american self = true /\ (i < n)%nat /\ (j <= i)%nat /\
                  crr_discount c *
                    (crr_p c * V (n - (i + 1))%nat (i + 1)%nat (j + 1)%nat +
                     (1 - crr_p c) * V (n - (i + 1))%nat (i + 1)%nat j) <
                  exercise_payoff typ strike
                    (spot * crr_u c ^ j * crr_d c ^ (i - j))).
  { unfold flag_at, exercises. fold V.
    rewrite !andb_true_iff, Nat.ltb_lt, Nat.leb_le, Rltb_true. tauto. }
  split.
  - rewrite Hflag. split.
    + intros (Ha & Hi & Hj & Hlt). repeat split; try assumption.
      rewrite !Hot by lia. rewrite build_price_tree_cell by lia. exact Hlt.
    + intros (Ha & Hi & Hj & Hlt). repeat split; try assumption.
      rewrite !Hot in Hlt by lia. rewrite build_price_tree_cell in Hlt by lia.
      exact Hlt.
  - intro Hf. apply Hflag in Hf. destruct Hf as (Ha & Hi & Hj & Hlt).
    rewrite Hot by lia. rewrite build_price_tree_cell by lia.
    unfold V. replace (n - i)%nat with (S (n - (i + 1))) by lia.
    cbn [lattice_value]. rewrite Ha.
    apply BinomialTreeProperties.node_value_exercise.
    unfold V in Hlt. rewrite Ha in Hlt. exact Hlt.
Qed.

Lemma exercise_flags_witness :
  (valid_inputs 100 100 1 0.05 0.2 "put" /\ (1 <= num_steps (init 3 true))%Z) /\
  exists price self' price_tree option_tree exercise_tree,
    calculate_price (init 3 true) 100 100 1 0.05 0.2 "put" = (Ok price, self') /\
    get_tree_data self' =
      Some (mk_tree_data price_tree (Some option_tree) (Some exercise_tree)
              3 true) /\
    forall i j,
      (cell exercise_tree i j = true <->
       true = true /\ (i < 3)%nat /\ (j <= i)%nat /\
       crr_discount (crr_parameters 1 0.05 0.2 3) *
         (crr_p (crr_parameters 1 0.05 0.2 3) * cell option_tree (i + 1) (j + 1) +
          (1 - crr_p (crr_parameters 1 0.05 0.2 3)) * cell option_tree (i + 1) j) <
       exercise_payoff (_get_option_type "put") 100 (cell price_tree i j)) /\
      (cell exercise_tree i j = true ->
       cell option_tree i j =
       exercise_payoff (_get_option_type "put") 100 (cell price_tree i j)).
Proof.
  assert (Hv : valid_inputs 100 100 1 0.05 0.2 "put")
    by (apply BinomialTreeLattice.valid_put; lra).
  assert (Hs : (1 <= num_steps (init 3 true))%Z) by (cbn; lia).
  split; [split; assumption|].
  exact (exercise_flags_mark_early_exercise
           (init 3 true) 100 100 1 0.05 0.2 "put"%string Hv Hs).
Defined.


(** *** Repeated pricing: Greeks by finite differences *)

Lemma calculate_price_ok self spot strike T r vol ot :
  valid_inputs spot strike T r vol ot ->
  (1 <= num_steps self)%Z ->
  exists price self',
    calculate_price self spot strike T r vol ot = (Ok price, self') /\
    num_steps self' = num_steps self /\ american self' = american self.
Proof.
  intros Hv Hs.
  rewrite (calculate_price_trees self spot strike T r vol ot Hv Hs).
  do 2 eexists. split; [reflexivity|]. split; reflexivity.
Qed.

Lemma validate_rate_too_high spot strike T r vol ot :
  valid_inputs spot strike T r vol ot -> 0.5 < r + 0.0001 ->
  validate_inputs spot strike T (r + 0.0001) vol ot =
  Raise (ValueError "Risk-free rate must be between -0.1 and 0.5. Got: "
           (PyFloat (r + 0.0001))).
Proof.
  intros (Hs & Hk & HT & Hv & Hr & Hot) Hhigh. unfold validate_inputs.
  replace (Rleb spot 0) with false by (symmetry; apply Rleb_false; lra).
  replace (Rleb strike 0) with false by (symmetry; apply Rleb_false; lra).
  replace (Rleb T 0) with false by (symmetry; apply Rleb_false; lra).
  replace (Rleb vol 0) with false by (symmetry; apply Rleb_false; lra).
  replace (Rltb 0.5 (r + 0.0001)) with true by (symmetry; apply Rltb_true; lra).
  rewrite orb_true_r. reflexivity.
Qed.

(** [calculate_greeks_numerical] on valid inputs and a positive step
    count: it returns the five finite-difference Greeks, with a Theta of
    zero when the maturity does not exceed one day, provided the bumped rate
    [r + 0.0001] is still accepted; for a valid rate above 0.4999 the bumped
    pricing is rejected and the method raises the rate error, naming the
    bumped value. *)
Theorem numerical_greeks_rate_bump :
  forall self spot strike T r vol ot,
    valid_inputs spot strike T r vol ot ->
    (1 <= num_steps self)%Z ->
    (r + 0.0001 <= 0.5 ->
     exists greeks self',
       calculate_greeks_numerical self spot strike T r vol ot =
         (Ok greeks, self') /\
       (T <= 1 / 365 -> Greeks.Theta greeks = 0)) /\
    (0.5 < r + 0.0001 ->
     exists self',
       calculate_greeks_numerical self spot strike T r vol ot =
         (Raise (ValueError "Risk-free rate must be between -0.1 and 0.5. Got: "
                   (PyFloat (r + 0.0001))), self')).
Proof.
  intros self spot strike T r vol ot Hv Hs.
  pose proof Hv as (Hspot & Hk & HT & Hvol & Hr & Hot).
  assert (Vup : valid_inputs (spot + spot * 0.01) strike T r vol ot)
    by (unfold valid_inputs; repeat split; try assumption; lra).
  assert (Vdown : valid_inputs (spot - spot * 0.01) strike T r vol ot)
    by (unfold valid_inputs; repeat split; try assumption; lra).
  assert (Vvol : valid_inputs spot strike T r (vol + vol * 0.01) ot)
    by (unfold valid_inputs; repeat split; try assumption; lra).
  unfold calculate_greeks_numerical.
  destruct (calculate_price_ok self _ _ _ _ _ _ Hv Hs)
    as (p0 & s0 & E0 & N0 & _).
  rewrite E0. cbn [then_price].
  destruct (calculate_price_ok s0 _ _ _ _ _ _ Vup ltac:(lia))
    as (p1 & s1 & E1 & N1 & _).
  rewrite E1. cbn [then_price].
  destruct (calculate_price_ok s1 _ _ _ _ _ _ Vdown ltac:(lia))
    as (p2 & s2 & E2 & N2 & _).
  rewrite E2. cbn [then_price].
  assert (Htheta : exists theta s3,
            (if Rltb (1 / 365) T
             then then_price
                    (calculate_price s2 spot strike (T - 1 / 365) r vol ot)
                    (fun price_time self0 =>
                       (Ok (- (price_time - p0) / (1 / 365)), self0))
             else (Ok 0, s2)) = (Ok theta, s3) /\
            num_steps s3 = num_steps self /\
            (T <= 1 / 365 -> theta = 0)).
  { destruct (Rltb (1 / 365) T) eqn:Et.
    - apply Rltb_true in Et.
      assert (Vt : valid_inputs spot strike (T - 1 / 365) r vol ot)
        by (unfold valid_inputs; repeat split; try assumption; lra).
      destruct (calculate_price_ok s2 _ _ _ _ _ _ Vt ltac:(lia))
        as (p3 & s3 & E3 & N3 & _).
      rewrite E3. cbn [then_price]. do 2 eexists.
      split; [reflexivity|]. split; [lia|]. intro; lra.
    - exists 0, s2. split; [reflexivity|]. split; [lia|]. reflexivity. }
  destruct Htheta as (theta & s3 & E3 & N3 & Hth).
  rewrite E3. cbn [then_price].
  destruct (calculate_price_ok s3 _ _ _ _ _ _ Vvol ltac:(lia))
    as (p4 & s4 & E4 & N4 & _).
  rewrite E4. cbn [then_price].
  split.
  - intro Hlow.
    assert (Vr : valid_inputs spot strike T (r + 0.0001) vol ot)
      by (unfold valid_inputs; repeat split; try assumption; lra).
    destruct (calculate_price_ok s4 _ _ _ _ _ _ Vr ltac:(lia))
      as (p5 & s5 & E5 & N5 & _).
    rewrite E5. cbn [then_price]. do 2 eexists. split; [reflexivity|].
    intro Hshort. cbn [Greeks.Theta]. rewrite (Hth Hshort). lra.
  - intro Hhigh.
    rewrite (calculate_price_invalid s4 _ _ _ _ _ _ _
               (validate_rate_too_high _ _ _ _ _ _ Hv Hhigh)).
    cbn [then_price]. eexists. reflexivity.
Qed.

Lemma numerical_greeks_rate_bump_witness :
  (valid_inputs 100 100 1 0.5 0.2 "call" /\ (1 <= num_steps (init 10 false))%Z /\
   0.5 < 0.5 + 0.0001) /\
  exists self',
    calculate_greeks_numerical (init 10 false) 100 100 1 0.5 0.2 "call" =
      (Raise (ValueError "Risk-free rate must be between -0.1 and 0.5. Got: "
                (PyFloat (0.5 + 0.0001))), self').
Proof.
  assert (Hv : valid_inputs 100 100 1 0.5 0.2 "call")
    by (apply BinomialTreeLattice.valid_call; lra).
  assert (Hs : (1 <= num_steps (init 10 false))%Z) by (cbn; lia).
  assert (Hh : 0.5 < 0.5 + 0.0001) by lra.
  split; [split; [exact Hv | split; [exact Hs | exact Hh]]|].
  exact (proj2 (numerical_greeks_rate_bump (init 10 false) 100 100 1 0.5 0.2
                  "call"%string Hv Hs) Hh).
Defined.


(** *** The convergence analysis *)

Lemma convergence_step_raise spot strike T r vol ot l e self :
  fold_left (convergence_step spot strike T r vol ot) l (Raise e, self) =
  (Raise e, self).
Proof. induction l as [|s l IH]; [reflexivity | exact IH]. Qed.

(** The price obtained with [steps] steps by a new instance. *)
Definition price_with (am : bool) (spot strike T r vol : R) (ot : string)
    (steps : Z) : result R :=
  fst (calculate_price (init steps am) spot strike T r vol ot).

Lemma price_with_set_num_steps self spot strike T r vol ot steps :
  valid_inputs spot strike T r vol ot -> (1 <= steps)%Z ->
  exists price,
    price_with (american self) spot strike T r vol ot steps = Ok price /\
    calculate_price (set_num_steps self steps) spot strike T r vol ot =
    (Ok price,
     store_trees (set_num_steps self steps)
       (fst (priced_trees (american self) (_get_option_type ot)
               spot strike T r vol steps))
       (fst (snd (priced_trees (american self) (_get_option_type ot)
                    spot strike T r vol steps)))
       (snd (snd (priced_trees (american self) (_get_option_type ot)
                    spot strike T r vol steps)))).
Proof.
  intros Hv Hs. eexists. split.
  - unfold price_with.
    rewrite (calculate_price_trees (init steps (american self))
               spot strike T r vol ot Hv Hs).
    reflexivity.
  - rewrite (calculate_price_trees (set_num_steps self steps)
               spot strike T r vol ot Hv Hs).
    reflexivity.
Qed.

(** The loop over positive step counts: one price per step count, and an
    instance that holds the last step count and the trees built with it. *)
Lemma convergence_loop spot strike T r vol ot self :
  valid_inputs spot strike T r vol ot ->
  forall l acc,
    Forall (fun s => (1 <= s)%Z) l ->
    exists prices self',
      fold_left (convergence_step spot strike T r vol ot) l (Ok acc, self) =
        (Ok (acc ++ prices), self') /\
      Forall2 (fun s p => price_with (american self) spot strike T r vol ot s =
                          Ok p) l prices /\
      american self' = american self /\
      (l = [] -> self' = self) /\
      (forall l0 s, l = l0 ++ [s] ->
         num_steps self' = s /\
         _last_price_tree self' =
           Some (fst (priced_trees (american self) (_get_option_type ot)
                        spot strike T r vol s)) /\
         _last_option_tree self' <> None /\
         _last_exercise_tree self' <> None).
Proof.
  intros Hv l. induction l as [|s l IH] using rev_ind; intros acc Hall.
  - exists [], self. cbn [fold_left]. rewrite app_nil_r.
    split; [reflexivity|]. split; [constructor|]. split; [reflexivity|].
    split; [reflexivity|]. intros l0 s E. destruct l0; discriminate E.
  - apply Forall_app in Hall. destruct Hall as [Hl Hs].
    inversion Hs as [|? ? Hs1 _]; subst.
    destruct (IH acc Hl) as (prices & self1 & Hfold & Hprices & Ham & _ & _).
    rewrite fold_left_app, Hfold. cbn [fold_left convergence_step].
    destruct (price_with_set_num_steps self1 spot strike T r vol ot s Hv Hs1)
      as (p & Hp & Hcalc).
    rewrite Hcalc. rewrite Ham in *.
    exists (prices ++ [p]). eexists. split; [rewrite app_assoc; reflexivity|].
    split; [apply Forall2_app; [exact Hprices|]; constructor; [exact Hp|constructor]|].
    split; [exact Ham|].
    split; [intro E; destruct l; discriminate E|].
    intros l0 s0 E. apply app_inj_tail in E. destruct E as [_ <-].
    cbn [store_trees num_steps set_num_steps _last_price_tree _last_option_tree
         _last_exercise_tree].
    repeat split; discriminate.
Qed.



(** When the list holds a step count that is not positive, after positive
    ones, the pricing with it raises, the exception leaves
    [get_convergence_analysis], and the instance keeps that step count: the
    original one is not restored. *)
Theorem convergence_analysis_failure_keeps_steps :
  forall self spot strike T r vol ot sizes bad rest,
    valid_inputs spot strike T r vol ot ->
    Forall (fun s => (1 <= s)%Z) sizes ->
    (bad <= 0)%Z ->
    exists e self',
      get_convergence_analysis self spot strike T r vol ot
        (Some (sizes ++ bad :: rest)) = (Raise e, self') /\
      num_steps self' = bad /\
      (bad = 0%Z -> e = ZeroDivisionError).
Proof.
  intros self spot strike T r vol ot sizes bad rest Hv Hall Hbad.
  destruct (convergence_loop spot strike T r vol ot self Hv sizes [] Hall)
    as (prices & self1 & Hfold & _).
  unfold get_convergence_analysis.
  rewrite fold_left_app, Hfold. cbn [fold_left convergence_step].
  unfold calculate_price.
  pose proof Hv as Hv'. apply validate_inputs_ok_iff in Hv'. rewrite Hv'.
  cbn [num_steps set_num_steps].
  destruct (Z.eqb_spec bad 0) as [E0|E0].
  - rewrite convergence_step_raise. do 2 eexists.
    split; [reflexivity|]. split; [reflexivity|]. reflexivity.
  - destruct (Z.ltb_spec bad (-1)) as [E1|E1].
    + rewrite convergence_step_raise. do 2 eexists.
      split; [reflexivity|]. split; [reflexivity|]. intro; contradiction.
    + replace (bad =? -1)%Z with true by (symmetry; apply Z.eqb_eq; lia).
      rewrite convergence_step_raise. do 2 eexists.
      split; [reflexivity|]. split; [reflexivity|]. intro; contradiction.
Qed.

Lemma convergence_analysis_failure_witness :
  (valid_inputs 100 100 1 0.05 0.2 "call" /\
   Forall (fun s => (1 <= s)%Z) [10]%Z /\ (0 <= 0)%Z) /\
  exists e self',
    get_convergence_analysis (init 100 false) 100 100 1 0.05 0.2 "call"
      (Some ([10] ++ 0 :: [50])%Z) = (Raise e, self') /\
    num_steps self' = 0%Z /\
    (0%Z = 0%Z -> e = ZeroDivisionError).
Proof.
  assert (Hv : valid_inputs 100 100 1 0.05 0.2 "call")
    by (apply BinomialTreeLattice.valid_call; lra).
  assert (Hall : Forall (fun s => (1 <= s)%Z) [10]%Z)
    by (repeat constructor; lia).
  split; [split; [exact Hv | split; [exact Hall | lia]]|].
  apply (convergence_analysis_failure_keeps_steps (init 100 false)
           100 100 1 0.05 0.2 "call"%string [10]%Z 0%Z [50]%Z Hv Hall). lia.
Defined.

End BinomialTreeDiagnostics.

(** ** models/monte_carlo.py: paths, bounds and the convergence analysis *)

Module MonteCarloDiagnostics.
Import BaseModel MonteCarlo MonteCarloProperties.
Local Open Scope R_scope.

(** The dictionary returned by [get_convergence_analysis]. *)
Record ConvergenceResult : Type := mk_convergence {
  cv_simulation_sizes : list Z;
  cv_prices : list R;
  cv_final_price : R;
  cv_convergence : bool
}.

Section Generator.

Variable rng : Type.
Variable standard_normal : rng -> nat -> nat -> (nat -> nat -> R) * rng.

Local Abbreviation calculate_price := (calculate_price rng standard_normal).

(** One iteration of the loop of [get_convergence_analysis]. *)
Definition convergence_step
    (spot strike time_to_maturity risk_free_rate volatility : R)
    (option_type : string)
    (st : result (list R) * MonteCarloModel * rng) (size : Z)
    : result (list R) * MonteCarloModel * rng :=
  match st with
  | (Raise e, self, g) => (Raise e, self, g)
  | (Ok prices, self, g) =>
    let self := set_num_simulations self size in
    match calculate_price self spot strike time_to_maturity risk_free_rate
            volatility option_type g with
    | (Raise e, g') => (Raise e, self, g')
    | (Ok price, g') => (Ok (prices ++ [price]), self, g')
    end
  end.

(** [get_convergence_analysis]; [prices[-1]] raises on an empty list. *)
Definition get_convergence_analysis (self : MonteCarloModel)
    (spot strike time_to_maturity risk_free_rate volatility : R)
    (option_type : string) (simulation_sizes : option (list Z)) (g : rng)
    : result ConvergenceResult * MonteCarloModel * rng :=
  let simulation_sizes :=
    match simulation_sizes with
    | None => [1000; 5000; 10000; 50000; 100000]%Z
    | Some l => l
    end in
  let original_sims := num_simulations self in
  match fold_left
          (convergence_step spot strike time_to_maturity risk_free_rate
             volatility option_type)
          simulation_sizes (Ok [], self, g) with
  | (Raise e, self, g') => (Raise e, self, g')
  | (Ok prices, self, g') =>
    let self := set_num_simulations self original_sims in
    match rev prices with
    | [] => (Raise IndexError, self, g')
    | final_price :: _ =>
      (Ok (mk_convergence simulation_sizes prices final_price true), self, g')
    end
  end.

(** *** The simulated paths *)

(** The price of path [k] after [t] steps. *)
Fixpoint path_value (spot drift diffusion : R) (random_numbers : ndarray R)
    (t k : nat) : R :=
  match t with
  | O => spot
  | S t' =>
    path_value spot drift diffusion random_numbers t' k *
    exp (drift + diffusion * cell random_numbers t' k)
  end.

Lemma simulate_paths_rows steps spot drift diffusion rn m :
  let paths :=
    fold_left
      (fun price_paths t =>
         setrow price_paths t
           (fun k => cell price_paths (t - 1) k *
                     exp (drift + diffusion * cell rn (t - 1) k)))
      (seq 1 m)
      (setrow (np_zeros (steps + 1) (ncols rn) 0) 0 (fun _ => spot)) in
  nrows paths = (steps + 1)%nat /\ ncols paths = ncols rn /\
  forall t k, (t <= m)%nat ->
    cell paths t k = path_value spot drift diffusion rn t k.
Proof.
  induction m as [|m IH]; intro paths.
  - split; [reflexivity|]. split; [reflexivity|].
    intros t k Ht. assert (t = 0)%nat by lia. subst t. reflexivity.
  - unfold paths. rewrite seq_S, fold_left_app. cbn [fold_left Nat.add].
    cbv zeta in IH. destruct IH as (Hr & Hc & Hcell).
    split; [exact Hr|]. split; [exact Hc|].
    intros t k Ht. unfold setrow at 1. cbn [cell].
    destruct (Nat.eqb_spec t (S m)) as [E|E].
    + subst t. replace (S m - 1)%nat with m by lia.
      rewrite Hcell by lia. reflexivity.
    + apply Hcell. lia.
Qed.

Lemma simulate_paths_cell steps spot drift diffusion rn t k :
  (t <= steps)%nat ->
  cell (simulate_paths steps spot drift diffusion rn) t k =
  path_value spot drift diffusion rn t k.
Proof.
  intro Ht. unfold simulate_paths, for_range_from.
  replace (steps + 1 - 1)%nat with steps by lia.
  apply (simulate_paths_rows steps spot drift diffusion rn steps). exact Ht.
Qed.

Lemma simulate_paths_nrows steps spot drift diffusion rn :
  nrows (simulate_paths steps spot drift diffusion rn) = (steps + 1)%nat.
Proof.
  unfold simulate_paths, for_range_from.
  replace (steps + 1 - 1)%nat with steps by lia.
  apply (simulate_paths_rows steps spot drift diffusion rn steps).
Qed.

Lemma path_value_pos spot drift diffusion rn t k :
  0 < spot -> 0 < path_value spot drift diffusion rn t k.
Proof.
  intro Hs. induction t as [|t IH]; cbn [path_value]; [exact Hs|].
  apply Rmult_lt_0_compat; [exact IH | apply exp_pos].
Qed.

(** The antithetic half of the paths mirrors the first half: whatever the
    draws, the terminal prices of path [k] and of its antithetic partner
    [k + m] multiply to [spot^2 exp(2 steps drift)]. *)
Theorem antithetic_paths_mirror :
  forall steps spot drift diffusion (random_numbers : ndarray R) k,
    (k < ncols random_numbers)%nat ->
    let paths := simulate_paths steps spot drift diffusion
                   (concatenate_negated random_numbers) in
    ncols (concatenate_negated random_numbers) =
      (2 * ncols random_numbers)%nat /\
    cell paths steps k * cell paths steps (k + ncols random_numbers) =
    spot ^ 2 * exp (2 * INR steps * drift).
Proof.
  intros steps spot drift diffusion rn k Hk paths.
  split; [unfold concatenate_negated; cbn [ncols]; lia|].
  unfold paths. rewrite !simulate_paths_cell by lia.
  induction steps as [|t IH].
  - cbn [path_value]. simpl. rewrite Rmult_0_r, Rmult_0_l, exp_0. ring.
  - cbn [path_value]. unfold concatenate_negated at 2 4. cbn [cell ncols].
    replace (k <? ncols rn)%nat with true by (symmetry; apply Nat.ltb_lt; lia).
    replace (k + ncols rn <? ncols rn)%nat with false
      by (symmetry; apply Nat.ltb_ge; lia).
    replace (k + ncols rn - ncols rn)%nat with k by lia.
    set (a := path_value spot drift diffusion (concatenate_negated rn) t k) in *.
    set (b := path_value spot drift diffusion (concatenate_negated rn) t
                (k + ncols rn)) in *.
    replace (a * exp (drift + diffusion * cell rn t k) *
             (b * exp (drift + diffusion * - cell rn t k)))
      with (a * b * (exp (drift + diffusion * cell rn t k) *
                     exp (drift + diffusion * - cell rn t k))) by ring.
    rewrite IH, <- exp_plus. rewrite Rmult_assoc, <- exp_plus.
    f_equal. f_equal. rewrite S_INR. ring.
Qed.



(** *** Bounds on the price *)

Lemma simulate_paths_ncols steps spot drift diffusion rn :
  ncols (simulate_paths steps spot drift diffusion rn) = ncols rn.
Proof.
  unfold simulate_paths, for_range_from.
  replace (steps + 1 - 1)%nat with steps by lia.
  apply (simulate_paths_rows steps spot drift diffusion rn steps).
Qed.

Lemma np_sum_bounds (a b : R) (l : list R) :
  Forall (fun x => a <= x <= b) l ->
  a * INR (List.length l) <= np_sum l <= b * INR (List.length l).
Proof.
  induction 1 as [|x l Hx _ IH].
  - simpl. lra.
  - change (np_sum (x :: l)) with (x + np_sum l).
    change (List.length (x :: l)) with (S (List.length l)).
    rewrite S_INR. lra.
Qed.

Lemma np_mean_bounds (a b : R) (l : list R) :
  l <> [] -> Forall (fun x => a <= x <= b) l -> a <= np_mean l <= b.
Proof.
  intros Hne Hall. pose proof (np_sum_bounds a b l Hall) as [Hlo Hhi].
  assert (Hn : 0 < INR (List.length l)).
  { apply lt_0_INR. destruct l; [congruence | simpl; lia]. }
  unfold np_mean, Rdiv. split.
  - apply Rmult_le_reg_r with (INR (List.length l)); [exact Hn|].
    rewrite Rmult_assoc, Rinv_l by lra. lra.
  - apply Rmult_le_reg_r with (INR (List.length l)); [exact Hn|].
    rewrite Rmult_assoc, Rinv_l by lra. lra.
Qed.

Lemma np_mean_nonneg (l : list R) :
  Forall (fun x => 0 <= x) l -> 0 <= np_mean l.
Proof.
  intro Hall. unfold np_mean, Rdiv.
  assert (Hs : 0 <= np_sum l).
  { induction Hall as [|x l Hx _ IH]; [simpl; lra|].
    change (np_sum (x :: l)) with (x + np_sum l). lra. }
  destruct l as [|x l].
  - simpl. lra.
  - apply Rmult_le_pos; [exact Hs|]. left. apply Rinv_0_lt_compat, lt_0_INR.
    simpl. lia.
Qed.

Lemma payoffs_nonneg ot strike l :
  Forall (fun x => 0 <= x) (payoffs ot strike l).
Proof.
  unfold payoffs.
  destruct (string_dec ot "call"); apply Forall_map, Forall_forall;
    intros s _; apply Rmax_r.
Qed.

Lemma put_payoffs_bounds strike l :
  0 < strike -> Forall (fun s => 0 < s) l ->
  Forall (fun x => 0 <= x <= strike) (payoffs "put" strike l).
Proof.
  intros Hk Hall. unfold payoffs.
  destruct (string_dec "put" "call") as [E|_]; [discriminate E|].
  apply Forall_map. apply (Forall_impl _ (P := fun s => 0 < s)); [|exact Hall].
  intros s Hs. split; [apply Rmax_r|]. apply Rmax_lub; lra.
Qed.

(** On valid inputs, with at least one step and one path, the Monte Carlo
    price is never negative, a put is never worth more than the discounted
    strike, and the generator is advanced by exactly one draw of shape
    (steps, paths), whatever the generator returns. *)
Theorem price_bounds :
  forall self spot strike T r vol ot g,
    valid_inputs spot strike T r vol ot ->
    (1 <= num_steps self)%Z -> (1 <= drawn_paths self)%Z ->
    exists p,
      calculate_price self spot strike T r vol ot g =
      (Ok p, snd (standard_normal g (Z.to_nat (num_steps self))
                    (Z.to_nat (drawn_paths self)))) /\
      0 <= p /\
      (lower ot = "put"%string -> p <= strike * exp (- r * T)).
Proof.
  intros self spot strike T r vol ot g Hv Hs Hn.
  unfold MonteCarlo.calculate_price.
  pose proof Hv as Hv'. apply validate_inputs_ok_iff in Hv'. rewrite Hv'.
  destruct Hv as (Hspot & Hk & HT & Hvol & Hr & Hot).
  replace (num_steps self =? 0)%Z with false by (symmetry; apply Z.eqb_neq; lia).
  replace (num_steps self <? 0)%Z with false by (symmetry; apply Z.ltb_ge; lia).
  fold (drawn_paths self).
  replace (drawn_paths self <? 0)%Z with false by (symmetry; apply Z.ltb_ge; lia).
  cbn [orb].
  destruct (standard_normal g _ _) as [z g'] eqn:Ez. cbn [snd].
  set (steps := Z.to_nat (num_steps self)) in *.
  set (rn := if antithetic self
             then concatenate_negated (mk_ndarray steps (Z.to_nat (drawn_paths self)) z)
             else mk_ndarray steps (Z.to_nat (drawn_paths self)) z).
  set (drift := (r - 0.5 * vol ^ 2) * (T / IZR (num_steps self))).
  set (diffusion := vol * sqrt (T / IZR (num_steps self))).
  eexists. split; [reflexivity|].
  rewrite simulate_paths_nrows.
  replace (steps + 1 - 1)%nat with steps by lia.
  set (finals := row (simulate_paths steps spot drift diffusion rn) steps).
  assert (Hcols : (1 <= ncols rn)%nat).
  { unfold rn. destruct (antithetic self); cbn [concatenate_negated ncols]; lia. }
  assert (Hfin : Forall (fun s => 0 < s) finals).
  { unfold finals, row. apply Forall_map, Forall_forall. intros k _.
    rewrite simulate_paths_cell by lia. apply path_value_pos. exact Hspot. }
  assert (Hlen : finals <> []).
  { unfold finals, row. rewrite simulate_paths_ncols.
    destruct (ncols rn) as [|c]; [lia|]. cbn [seq map]. discriminate. }
  pose proof (exp_pos (- r * T)) as He.
  split.
  - apply Rmult_le_pos; [lra|]. apply np_mean_nonneg, payoffs_nonneg.
  - intro Hput.
    assert (Hty : _get_option_type ot = "put"%string).
    { unfold _get_option_type. rewrite Hput. reflexivity. }
    rewrite Hty, (Rmult_comm strike).
    apply Rmult_le_compat_l; [lra|].
    apply (np_mean_bounds 0 strike).
    + unfold payoffs. destruct (string_dec _ _); destruct finals; cbn [map];
        congruence.
    + apply put_payoffs_bounds; assumption.
Qed.




(** *** Failures inside the confidence interval *)

Lemma batch_step_raise b spot strike T r vol ot e self g :
  batch_step rng standard_normal b spot strike T r vol ot (Raise e, self, g) =
  (Raise e, self, g).
Proof. reflexivity. Qed.

Lemma batch_loop_raise b spot strike T r vol ot e self g n :
  for_range n (fun _ => batch_step rng standard_normal b spot strike T r vol ot)
    (Raise e, self, g) = (Raise e, self, g).
Proof.
  induction n as [|n IH]; [apply for_range_0|].
  rewrite for_range_constant_body, batch_step_raise. exact IH.
Qed.

(** When the pricing of the first batch raises (invalid inputs, a zero step
    count, ...), [calculate_price_with_confidence] raises the same exception
    and the instance is left with a tenth of its simulations: the batch size
    is not restored. *)
Theorem confidence_failure_keeps_batch_size :
  forall norm_ppf self spot strike T r vol ot level g e g',
    calculate_price
      (set_num_simulations self (num_simulations self / 10))
      spot strike T r vol ot g = (Raise e, g') ->
    calculate_price_with_confidence rng standard_normal norm_ppf
      self spot strike T r vol ot level g =
    (Raise e, set_num_simulations self (num_simulations self / 10), g').
Proof.
  intros norm_ppf self spot strike T r vol ot level g e g' Hp.
  unfold calculate_price_with_confidence.
  rewrite for_range_constant_body.
  unfold batch_step at 2. rewrite Hp, batch_loop_raise. reflexivity.
Qed.

Lemma monte_carlo_price_invalid self spot strike T r vol ot g e :
  validate_inputs spot strike T r vol ot = Raise e ->
  calculate_price self spot strike T r vol ot g = (Raise e, g).
Proof. intro H. unfold MonteCarlo.calculate_price. rewrite H. reflexivity. Qed.

(** *** The convergence analysis *)

(** Successive pricings with the given simulation counts, each continuing
    from the generator state left by the previous one. *)
Inductive sized_run (self : MonteCarloModel) (spot strike T r vol : R)
    (ot : string) : list Z -> rng -> list R -> rng -> Prop :=
| sized_run_done g : sized_run self spot strike T r vol ot [] g [] g
| sized_run_next n sizes g p g1 ps g2 :
    calculate_price (set_num_simulations self n) spot strike T r vol ot g =
      (Ok p, g1) ->
    sized_run self spot strike T r vol ot sizes g1 ps g2 ->
    sized_run self spot strike T r vol ot (n :: sizes) g (p :: ps) g2.

Lemma sized_run_length self spot strike T r vol ot sizes g ps g' :
  sized_run self spot strike T r vol ot sizes g ps g' ->
  List.length ps = List.length sizes.
Proof. induction 1; simpl; congruence. Qed.

Lemma sized_run_exists self spot strike T r vol ot sizes g :
  valid_inputs spot strike T r vol ot ->
  (1 <= num_steps self)%Z -> Forall (fun n => 0 <= n)%Z sizes ->
  exists ps g', sized_run self spot strike T r vol ot sizes g ps g'.
Proof.
  intros Hv Hs Hall. revert g.
  induction Hall as [|n sizes Hn _ IH]; intro g.
  - exists [], g. constructor.
  - destruct (calculate_price_returns rng standard_normal
                (set_num_simulations self n) spot strike T r vol ot g Hv)
      as (p & g1 & Hp).
    + exact Hs.
    + unfold drawn_paths. cbn [set_num_simulations antithetic num_simulations].
      destruct (antithetic self); [apply Z.div_pos; lia | exact Hn].
    + destruct (IH g1) as (ps & g2 & Hrun).
      exists (p :: ps), g2. econstructor; eassumption.
Qed.

Lemma set_num_simulations_twice self a b :
  set_num_simulations (set_num_simulations self a) b = set_num_simulations self b.
Proof. reflexivity. Qed.

Lemma last_cons_default {A : Type} (x : A) (l : list A) (d d' : A) :
  last (x :: l) d = last (x :: l) d'.
Proof.
  revert x. induction l as [|y l IH]; intro x; [reflexivity|].
  change (last (y :: l) d = last (y :: l) d'). apply IH.
Qed.

Lemma sized_loop self spot strike T r vol ot sizes g ps g' :
  sized_run self spot strike T r vol ot sizes g ps g' ->
  forall acc a,
    fold_left (convergence_step spot strike T r vol ot) sizes
      (Ok acc, set_num_simulations self a, g) =
    (Ok (acc ++ ps), set_num_simulations self (last sizes a), g').
Proof.
  induction 1 as [g|n sizes g p g1 ps g2 Hp Hrun IH]; intros acc a.
  - rewrite app_nil_r. reflexivity.
  - cbn [fold_left]. unfold convergence_step at 2.
    rewrite set_num_simulations_twice, Hp, IH, <- app_assoc.
    destruct sizes as [|z sizes]; [reflexivity|].
    rewrite (last_cons_default z sizes n a). reflexivity.
Qed.

Lemma set_num_simulations_same self :
  set_num_simulations self (num_simulations self) = self.
Proof. destruct self. reflexivity. Qed.

(** On valid inputs, with at least one step and simulation counts that
    each draw at least one path (a count of at least 1, or of at least 2
    with antithetic variates), [get_convergence_analysis] returns one price
    per count, in order, the last of them as final price, and restores the
    instance.  The pricings share the generator: each continues from the
    state left by the previous one, so a price depends on the counts listed
    before it. *)
Theorem convergence_analysis_chains_generator :
  forall self spot strike T r vol ot sizes g,
    valid_inputs spot strike T r vol ot ->
    (1 <= num_steps self)%Z ->
    Forall (fun n => 1 <= drawn_paths (set_num_simulations self n))%Z sizes ->
    sizes <> [] ->
    exists prices g',
      sized_run self spot strike T r vol ot sizes g prices g' /\
      List.length prices = List.length sizes /\
      get_convergence_analysis self spot strike T r vol ot (Some sizes) g =
      (Ok (mk_convergence sizes prices (last prices 0) true), self, g').
Proof.
  intros self spot strike T r vol ot sizes g Hv Hs Hpaths Hne.
  assert (Hall : Forall (fun n => 0 <= n)%Z sizes).
  { eapply Forall_impl; [|exact Hpaths]. cbv beta. intros n Hn.
    unfold drawn_paths in Hn.
    cbn [set_num_simulations antithetic num_simulations] in Hn.
    destruct (antithetic self); [|lia].
    destruct (Z.le_gt_cases 0 n) as [H0|H0]; [exact H0|].
    assert (n / 2 < 0)%Z by (apply Z.div_lt_upper_bound; lia). lia. }
  destruct (sized_run_exists self spot strike T r vol ot sizes g Hv Hs Hall)
    as (ps & g' & Hrun).
  exists ps, g'. split; [exact Hrun|].
  pose proof (sized_run_length _ _ _ _ _ _ _ _ _ _ _ Hrun) as Hlen.
  split; [exact Hlen|].
  unfold get_convergence_analysis.
  rewrite <- (set_num_simulations_same self) at 1.
  rewrite (sized_loop _ _ _ _ _ _ _ _ _ _ _ Hrun). cbn [app].
  rewrite set_num_simulations_twice, set_num_simulations_same.
  destruct ps as [|p ps] using rev_ind.
  - destruct sizes; [congruence | discriminate Hlen].
  - rewrite rev_app_distr. cbn [rev app]. rewrite last_last. reflexivity.
Qed.

(** A negative simulation count met after the counts that price makes
    [get_convergence_analysis] raise, and leaves the instance with that
    count. *)
Theorem convergence_analysis_failure_keeps_size :
  forall self spot strike T r vol ot sizes bad rest g,
    valid_inputs spot strike T r vol ot ->
    (1 <= num_steps self)%Z ->
    Forall (fun n => 0 <= n)%Z sizes -> (bad < 0)%Z ->
    exists g',
      get_convergence_analysis self spot strike T r vol ot
        (Some (sizes ++ bad :: rest)) g =
      (Raise NegativeDimensions, set_num_simulations self bad, g').
Proof.
  intros self spot strike T r vol ot sizes bad rest g Hv Hs Hall Hbad.
  destruct (sized_run_exists self spot strike T r vol ot sizes g Hv Hs Hall)
    as (ps & g' & Hrun).
  exists g'. unfold get_convergence_analysis.
  rewrite fold_left_app.
  rewrite <- (set_num_simulations_same self) at 1.
  rewrite (sized_loop _ _ _ _ _ _ _ _ _ _ _ Hrun). cbn [app fold_left].
  unfold convergence_step at 2. rewrite set_num_simulations_twice.
  assert (Hp : calculate_price (set_num_simulations self bad)
                 spot strike T r vol ot g' = (Raise NegativeDimensions, g')).
  { unfold MonteCarlo.calculate_price.
    apply validate_inputs_ok_iff in Hv. rewrite Hv.
    cbn [set_num_simulations num_steps num_simulations antithetic].
    replace (num_steps self =? 0)%Z with false
      by (symmetry; apply Z.eqb_neq; lia).
    replace (num_steps self <? 0)%Z with false
      by (symmetry; apply Z.ltb_ge; lia).
    replace ((if antithetic self then (bad / 2)%Z else bad) <? 0)%Z with true.
    - reflexivity.
    - symmetry. apply Z.ltb_lt. destruct (antithetic self); [|lia].
      apply Z.div_lt_upper_bound; lia. }
  rewrite Hp.
  assert (Hrest : forall l e s gg,
            fold_left (convergence_step spot strike T r vol ot) l
              (Raise e, s, gg) = (Raise e, s, gg)).
  { induction l as [|x l IH]; intros; [reflexivity | apply IH]. }
  rewrite Hrest. reflexivity.
Qed.

End Generator.

Lemma antithetic_paths_mirror_witness :
  (1 < ncols (mk_ndarray 2 3 (fun t k => INR (t + k))))%nat /\
  let paths := simulate_paths 2 100 0.03 0.2
                 (concatenate_negated (mk_ndarray 2 3 (fun t k => INR (t + k)))) in
  ncols (concatenate_negated (mk_ndarray 2 3 (fun t k => INR (t + k)))) =
    (2 * ncols (mk_ndarray 2 3 (fun t k => INR (t + k))))%nat /\
  cell paths 2 1 *
  cell paths 2 (1 + ncols (mk_ndarray 2 3 (fun t k => INR (t + k)))) =
  100 ^ 2 * exp (2 * INR 2 * 0.03).
Proof.
  assert (H : (1 < ncols (mk_ndarray 2 3 (fun t k => INR (t + k))))%nat)
    by (cbn; lia).
  split; [exact H|].
  exact (antithetic_paths_mirror 2 100 0.03 0.2
           (mk_ndarray 2 3 (fun t k => INR (t + k))) 1%nat H).
Defined.

Lemma valid_put_inputs : valid_inputs 100 100 1 0.05 0.2 "Put".
Proof. unfold valid_inputs. repeat split; try lra. right. reflexivity. Qed.

Lemma price_bounds_witness :
  (valid_inputs 100 100 1 0.05 0.2 "Put" /\
   (1 <= num_steps (mk_model 4 2 None true))%Z /\
   (1 <= drawn_paths (mk_model 4 2 None true))%Z) /\
  exists p,
    calculate_price counter_rng counter_standard_normal
      (mk_model 4 2 None true) 100 100 1 0.05 0.2 "Put" 0%nat =
    (Ok p, snd (counter_standard_normal 0%nat
                  (Z.to_nat (num_steps (mk_model 4 2 None true)))
                  (Z.to_nat (drawn_paths (mk_model 4 2 None true))))) /\
    0 <= p /\
    (lower "Put" = "put"%string -> p <= 100 * exp (- (0.05) * 1)).
Proof.
  assert (Hs : (1 <= num_steps (mk_model 4 2 None true))%Z) by (cbn; lia).
  assert (Hn : (1 <= drawn_paths (mk_model 4 2 None true))%Z)
    by (vm_compute; discriminate).
  split; [split; [exact valid_put_inputs | split; [exact Hs | exact Hn]]|].
  exact (price_bounds counter_rng counter_standard_normal
           (mk_model 4 2 None true) 100 100 1 0.05 0.2 "Put" 0%nat
           valid_put_inputs Hs Hn).
Defined.

Lemma confidence_failure_witness :
  calculate_price counter_rng counter_standard_normal
    (set_num_simulations (mk_model 1000 50 None true) (1000 / 10))
    (-1) 100 1 0.05 0.2 "call" 0%nat =
  (Raise (ValueError "Spot price must be positive. Got: " (PyFloat (-1))), 0%nat) /\
  calculate_price_with_confidence counter_rng counter_standard_normal offset_ppf
    (mk_model 1000 50 None true) (-1) 100 1 0.05 0.2 "call" 0.95 0%nat =
  (Raise (ValueError "Spot price must be positive. Got: " (PyFloat (-1))),
   set_num_simulations (mk_model 1000 50 None true) (1000 / 10), 0%nat).
Proof.
  assert (H : calculate_price counter_rng counter_standard_normal
                (set_num_simulations (mk_model 1000 50 None true) (1000 / 10))
                (-1) 100 1 0.05 0.2 "call" 0%nat =
              (Raise (ValueError "Spot price must be positive. Got: "
                        (PyFloat (-1))), 0%nat)).
  { apply monte_carlo_price_invalid. unfold validate_inputs.
    replace (Rleb (-1) 0) with true by (symmetry; apply Rleb_true; lra).
    reflexivity. }
  split; [exact H|].
  exact (confidence_failure_keeps_batch_size counter_rng counter_standard_normal
           offset_ppf (mk_model 1000 50 None true) (-1) 100 1 0.05 0.2 "call"
           0.95 0%nat _ 0%nat H).
Defined.

Lemma convergence_analysis_chains_witness :
  (valid_inputs 100 100 1 0.05 0.2 "Put" /\
   (1 <= num_steps (mk_model 1000 2 None false))%Z /\
   Forall (fun n => 1 <= drawn_paths
                          (set_num_simulations (mk_model 1000 2 None false) n))%Z
     [4; 8]%Z /\
   [4; 8]%Z <> []) /\
  exists prices g',
    sized_run counter_rng counter_standard_normal
      (mk_model 1000 2 None false) 100 100 1 0.05 0.2 "Put" [4; 8]%Z 0%nat
      prices g' /\
    List.length prices = List.length [4; 8]%Z /\
    get_convergence_analysis counter_rng counter_standard_normal
      (mk_model 1000 2 None false) 100 100 1 0.05 0.2 "Put" (Some [4; 8]%Z) 0%nat =
    (Ok (mk_convergence [4; 8]%Z prices (last prices 0) true),
     mk_model 1000 2 None false, g').
Proof.
  assert (Hs : (1 <= num_steps (mk_model 1000 2 None false))%Z) by (cbn; lia).
  assert (Hall : Forall (fun n => 1 <= drawn_paths
                            (set_num_simulations (mk_model 1000 2 None false) n))%Z
                   [4; 8]%Z)
    by (repeat constructor; cbn; lia).
  assert (Hne : [4; 8]%Z <> []) by discriminate.
  split; [split; [exact valid_put_inputs |
                  split; [exact Hs | split; [exact Hall | exact Hne]]]|].
  exact (convergence_analysis_chains_generator counter_rng counter_standard_normal
           (mk_model 1000 2 None false) 100 100 1 0.05 0.2 "Put" [4; 8]%Z 0%nat
           valid_put_inputs Hs Hall Hne).
Defined.

Lemma convergence_analysis_size_witness :
  (valid_inputs 100 100 1 0.05 0.2 "Put" /\
   (1 <= num_steps (mk_model 1000 2 None false))%Z /\
   Forall (fun n => 0 <= n)%Z [4]%Z /\ (-5 < 0)%Z) /\
  exists g',
    get_convergence_analysis counter_rng counter_standard_normal
      (mk_model 1000 2 None false) 100 100 1 0.05 0.2 "Put"
      (Some ([4] ++ -5 :: [8])%Z) 0%nat =
    (Raise NegativeDimensions,
     set_num_simulations (mk_model 1000 2 None false) (-5), g').
Proof.
  assert (Hs : (1 <= num_steps (mk_model 1000 2 None false))%Z) by (cbn; lia).
  assert (Hall : Forall (fun n => 0 <= n)%Z [4]%Z) by (repeat constructor; lia).
  assert (Hb : (-5 < 0)%Z) by lia.
  split; [split; [exact valid_put_inputs |
                  split; [exact Hs | split; [exact Hall | exact Hb]]]|].
  exact (convergence_analysis_failure_keeps_size counter_rng
           counter_standard_normal (mk_model 1000 2 None false)
           100 100 1 0.05 0.2 "Put" [4]%Z (-5)%Z [8]%Z 0%nat
           valid_put_inputs Hs Hall Hb).
Defined.

End MonteCarloDiagnostics.

(** ** strategies/options.py: analysis of the strategies of [StrategyFactory] *)

Module StrategyAnalysis.
Import Strategy StrategyProperties.
Local Open Scope Q_scope.

(** A Python float that may be [float('inf')]. *)
Inductive pyfloat : Type :=
| Finite (q : Q)
| Infinity.

(** [OptionStrategy.risk_reward_ratio]. *)
Definition risk_reward_ratio (legs : list OptionLeg) : result pyfloat :=
  max_prof <- max_profit legs ;;
  max_loss <- max_loss legs ;;
  let max_loss := Qabs max_loss in
  if Qeq_bool max_prof 0 then Ok Infinity
  else Ok (Finite (max_loss / max_prof)).

(** [OptionStrategy]: a name and its legs. *)
Record OptionStrategy : Type := mk_strategy {
  name : string;
  legs : list OptionLeg
}.

(** [StrategyFactory].  The premium of a leg is the Black-Scholes price for
    the market data held by the factory; the strategies are analysed over
    the rationals, so the pricing method is a parameter of the factory. *)
Section Factory.

Variable _calculate_premium : string -> Q -> result Q.

Definition bull_call_spread (lower_strike upper_strike : Q) : result OptionStrategy :=
  p <- _calculate_premium "call" lower_strike ;;
  let long_call := mk_leg "call" lower_strike "long" 1 p in
  p <- _calculate_premium "call" upper_strike ;;
  let short_call := mk_leg "call" upper_strike "short" 1 p in
  Ok (mk_strategy "Bull Call Spread" [long_call; short_call]).

Definition bear_put_spread (lower_strike upper_strike : Q) : result OptionStrategy :=
  p <- _calculate_premium "put" upper_strike ;;
  let long_put := mk_leg "put" upper_strike "long" 1 p in
  p <- _calculate_premium "put" lower_strike ;;
  let short_put := mk_leg "put" lower_strike "short" 1 p in
  Ok (mk_strategy "Bear Put Spread" [long_put; short_put]).

Definition bull_put_spread (lower_strike upper_strike : Q) : result OptionStrategy :=
  p <- _calculate_premium "put" upper_strike ;;
  let short_put := mk_leg "put" upper_strike "short" 1 p in
  p <- _calculate_premium "put" lower_strike ;;
  let long_put := mk_leg "put" lower_strike "long" 1 p in
  Ok (mk_strategy "Bull Put Spread" [short_put; long_put]).

Definition bear_call_spread (lower_strike upper_strike : Q) : result OptionStrategy :=
  p <- _calculate_premium "call" lower_strike ;;
  let short_call := mk_leg "call" lower_strike "short" 1 p in
  p <- _calculate_premium "call" upper_strike ;;
  let long_call := mk_leg "call" upper_strike "long" 1 p in
  Ok (mk_strategy "Bear Call Spread" [short_call; long_call]).

Definition long_straddle (strike : Q) : result OptionStrategy :=
  p <- _calculate_premium "call" strike ;;
  let long_call := mk_leg "call" strike "long" 1 p in
  p <- _calculate_premium "put" strike ;;
  let long_put := mk_leg "put" strike "long" 1 p in
  Ok (mk_strategy "Long Straddle" [long_call; long_put]).

Definition short_straddle (strike : Q) : result OptionStrategy :=
  p <- _calculate_premium "call" strike ;;
  let short_call := mk_leg "call" strike "short" 1 p in
  p <- _calculate_premium "put" strike ;;
  let short_put := mk_leg "put" strike "short" 1 p in
  Ok (mk_strategy "Short Straddle" [short_call; short_put]).

Definition long_strangle (call_strike put_strike : Q) : result OptionStrategy :=
  p <- _calculate_premium "call" call_strike ;;
  let long_call := mk_leg "call" call_strike "long" 1 p in
  p <- _calculate_premium "put" put_strike ;;
  let long_put := mk_leg "put" put_strike "long" 1 p in
  Ok (mk_strategy "Long Strangle" [long_call; long_put]).

Definition short_strangle (call_strike put_strike : Q) : result OptionStrategy :=
  p <- _calculate_premium "call" call_strike ;;
  let short_call := mk_leg "call" call_strike "short" 1 p in
  p <- _calculate_premium "put" put_strike ;;
  let short_put := mk_leg "put" put_strike "short" 1 p in
  Ok (mk_strategy "Short Strangle" [short_call; short_put]).

Definition butterfly_spread (lower_strike middle_strike upper_strike : Q)
    (option_type : string) : result OptionStrategy :=
  if string_dec option_type "call" then
    p1 <- _calculate_premium "call" lower_strike ;;
    p2 <- _calculate_premium "call" middle_strike ;;
    p3 <- _calculate_premium "call" upper_strike ;;
    Ok (mk_strategy "Call Butterfly Spread"
          [mk_leg "call" lower_strike "long" 1 p1;
           mk_leg "call" middle_strike "short" 2 p2;
           mk_leg "call" upper_strike "long" 1 p3])
  else
    p1 <- _calculate_premium "put" lower_strike ;;
    p2 <- _calculate_premium "put" middle_strike ;;
    p3 <- _calculate_premium "put" upper_strike ;;
    Ok (mk_strategy "Put Butterfly Spread"
          [mk_leg "put" lower_strike "long" 1 p1;
           mk_leg "put" middle_strike "short" 2 p2;
           mk_leg "put" upper_strike "long" 1 p3]).

Definition iron_condor
    (put_lower_strike put_upper_strike call_lower_strike call_upper_strike : Q)
    : result OptionStrategy :=
  p1 <- _calculate_premium "put" put_lower_strike ;;
  p2 <- _calculate_premium "put" put_upper_strike ;;
  p3 <- _calculate_premium "call" call_lower_strike ;;
  p4 <- _calculate_premium "call" call_upper_strike ;;
  Ok (mk_strategy "Iron Condor"
        [mk_leg "put" put_lower_strike "long" 1 p1;
         mk_leg "put" put_upper_strike "short" 1 p2;
         mk_leg "call" call_lower_strike "short" 1 p3;
         mk_leg "call" call_upper_strike "long" 1 p4]).

Definition iron_butterfly (lower_strike middle_strike upper_strike : Q)
    : result OptionStrategy :=
  p1 <- _calculate_premium "put" lower_strike ;;
  p2 <- _calculate_premium "put" middle_strike ;;
  p3 <- _calculate_premium "call" middle_strike ;;
  p4 <- _calculate_premium "call" upper_strike ;;
  Ok (mk_strategy "Iron Butterfly"
        [mk_leg "put" lower_strike "long" 1 p1;
         mk_leg "put" middle_strike "short" 1 p2;
         mk_leg "call" middle_strike "short" 1 p3;
         mk_leg "call" upper_strike "long" 1 p4]).

End Factory.

(** *** Payoff and premium *)

Definition intrinsic (leg : OptionLeg) (s : Q) : Q :=
  if string_dec (option_type leg) "call" then Qmax (s - strike leg) 0
  else Qmax (strike leg - s) 0.

Lemma intrinsic_nonneg leg s : 0 <= intrinsic leg s.
Proof. unfold intrinsic. destruct (string_dec _ _); apply Q.le_max_r. Qed.

(** The premium a leg adds to [net_premium]. *)
Definition leg_premium (leg : OptionLeg) : Q :=
  if string_dec (position leg) "long" then
    - (premium leg * inject_Z (quantity leg))
  else premium leg * inject_Z (quantity leg).

Lemma payoff_split leg s :
  payoff leg s ==
  leg_premium leg +
  (if string_dec (position leg) "long" then intrinsic leg s else - intrinsic leg s) *
  inject_Z (quantity leg).
Proof.
  unfold payoff, leg_premium, intrinsic.
  destruct (string_dec (position leg) "long"); ring.
Qed.

Lemma net_premium_fold legs a :
  fold_left
    (fun net leg =>
       if string_dec (position leg) "long" then
         net - premium leg * inject_Z (quantity leg)
       else
         net + premium leg * inject_Z (quantity leg)) legs a ==
  a + net_premium legs.
Proof.
  unfold net_premium. revert a.
  induction legs as [|leg legs IH]; intro a; cbn [fold_left]; [ring|].
  rewrite IH, (IH (if string_dec _ _ then _ else _)).
  destruct (string_dec (position leg) "long"); ring.
Qed.

Lemma net_premium_cons leg legs :
  net_premium (leg :: legs) == leg_premium leg + net_premium legs.
Proof.
  unfold net_premium at 1. cbn [fold_left]. rewrite net_premium_fold.
  unfold leg_premium. destruct (string_dec (position leg) "long"); ring.
Qed.

Lemma total_nil s : total [] s = 0.
Proof. reflexivity. Qed.

Lemma total_worthless legs s :
  (forall leg, In leg legs ->
     if string_dec (option_type leg) "call" then s <= strike leg
     else strike leg <= s) ->
  total legs s == net_premium legs.
Proof.
  intro Hout.
  induction legs as [|leg legs IH]; [reflexivity|].
  rewrite total_cons, net_premium_cons, IH
    by (intros l Hl; apply Hout; right; exact Hl).
  rewrite payoff_split.
  assert (Hz : intrinsic leg s == 0).
  { specialize (Hout leg (or_introl eq_refl)). unfold intrinsic.
    destruct (string_dec (option_type leg) "call");
      apply Q.max_r; lra. }
  destruct (string_dec (position leg) "long"); rewrite Hz; ring.
Qed.

(** At a spot where every leg expires worthless the strategy pays its net
    premium. *)
Theorem worthless_legs_pay_net_premium :
  forall legs s,
    (forall leg, In leg legs ->
       if string_dec (option_type leg) "call" then s <= strike leg
       else strike leg <= s) ->
    exists v, calculate_payoff legs [s] = [v] /\ v == net_premium legs.
Proof.
  intros legs s Hout. exists (total legs s).
  split; [apply calculate_payoff_single | apply total_worthless, Hout].
Qed.

Lemma worthless_legs_witness :
  (forall leg,
     In leg [mk_leg "put" 95 "long" 1 3.5; mk_leg "call" 105 "long" 1 8] ->
     if string_dec (option_type leg) "call" then 100 <= strike leg
     else strike leg <= 100) /\
  exists v,
    calculate_payoff
      [mk_leg "put" 95 "long" 1 3.5; mk_leg "call" 105 "long" 1 8] [100] = [v] /\
    v == net_premium [mk_leg "put" 95 "long" 1 3.5; mk_leg "call" 105 "long" 1 8].
Proof.
  assert (H : forall leg,
     In leg [mk_leg "put" 95 "long" 1 3.5; mk_leg "call" 105 "long" 1 8] ->
     if string_dec (option_type leg) "call" then 100 <= strike leg
     else strike leg <= 100).
  { intros leg [E|[E|[]]]; subst leg; cbn; discriminate. }
  split; [exact H|].
  exact (worthless_legs_pay_net_premium _ 100 H).
Defined.


(** *** Extremes and break-even points over the samples *)

Lemma extremes_over_samples legs :
  legs <> [] ->
  exists lo hi M m,
    strike_bounds legs lo hi /\
    max_profit legs = Ok M /\
    max_loss legs = Ok m /\
    (exists k, (k < 1000)%nat /\ M = total legs (sample lo hi k)) /\
    (exists k, (k < 1000)%nat /\ m = total legs (sample lo hi k)) /\
    (forall k, (k < 1000)%nat -> m <= total legs (sample lo hi k) <= M) /\
    break_even_points legs =
    Ok (map (break_even_at legs lo hi)
          (filter (crossingb legs lo hi) (seq 0 999))).
Proof.
  intros Hne.
  destruct (analysis_range_samples legs Hne)
    as (lo & hi & spots & Hb & Hr & Hlen & Hnth).
  exists lo, hi.
  exists (np_max (calculate_payoff legs spots)),
         (np_min (calculate_payoff legs spots)).
  assert (Hpne : calculate_payoff legs spots <> []).
  { intro E. apply (f_equal (@List.length Q)) in E.
    rewrite calculate_payoff_length, Hlen in E. discriminate E. }
  destruct (np_max_spec _ Hpne) as [HMin HMle].
  destruct (np_min_spec _ Hpne) as [Hmin Hmle].
  assert (Hsample : forall k, (k < 1000)%nat ->
            nth k (calculate_payoff legs spots) 0 = total legs (sample lo hi k)).
  { intros k Hk. rewrite calculate_payoff_nth by lia. rewrite Hnth by exact Hk.
    reflexivity. }
  assert (Hat : forall y, In y (calculate_payoff legs spots) ->
            exists k, (k < 1000)%nat /\ y = total legs (sample lo hi k)).
  { intros y Hy. destruct (In_nth _ _ 0 Hy) as (k & Hk & E).
    rewrite calculate_payoff_length, Hlen in Hk.
    exists k. split; [exact Hk|]. rewrite <- E. apply Hsample. exact Hk. }
  split; [exact Hb|].
  unfold max_profit, max_loss, break_even_points. rewrite Hr. cbn [bind].
  split; [reflexivity|]. split; [reflexivity|].
  split; [apply Hat; exact HMin|]. split; [apply Hat; exact Hmin|].
  split.
  - intros k Hk. rewrite <- Hsample by exact Hk.
    assert (Hin : In (nth k (calculate_payoff legs spots) 0)
                     (calculate_payoff legs spots)).
    { apply nth_In. rewrite calculate_payoff_length, Hlen. exact Hk. }
    split; [apply Hmle | apply HMle]; exact Hin.
  - f_equal.
    rewrite scan_break_evens_filter, calculate_payoff_length, Hlen.
    change (1000 - 1)%nat with 999%nat.
    rewrite (filter_ext_in (sign_change (calculate_payoff legs spots))
               (crossingb legs lo hi)).
    + apply map_ext_in. intros i Hi. apply filter_In in Hi.
      destruct Hi as [Hi _]. apply in_seq in Hi.
      unfold interpolate, break_even_at.
      rewrite !Hsample, !Hnth by lia. reflexivity.
    + intros i Hi. apply in_seq in Hi. unfold sign_change, crossingb.
      rewrite !Hsample by lia. reflexivity.
Qed.

(** When the payoffs at the samples stay between [a] and [b] and both are
    met at a sample, they are the reported extremes. *)
Lemma extremes_pinned legs (a b : Q) :
  legs <> [] ->
  (forall lo hi, strike_bounds legs lo hi ->
     (forall k, (k < 1000)%nat -> a <= total legs (sample lo hi k) <= b) /\
     (exists i, (i < 1000)%nat /\ total legs (sample lo hi i) == a) /\
     (exists j, (j < 1000)%nat /\ total legs (sample lo hi j) == b)) ->
  exists M m,
    max_profit legs = Ok M /\ max_loss legs = Ok m /\ M == b /\ m == a.
Proof.
  intros Hne Hpin.
  destruct (extremes_over_samples legs Hne)
    as (lo & hi & M & m & Hb & HM & Hm & (kM & HkM & EM) & (km & Hkm & Em) & Hall & _).
  destruct (Hpin lo hi Hb) as (Hbnd & (i & Hi & Ea) & (j & Hj & Eb)).
  exists M, m. split; [exact HM|]. split; [exact Hm|].
  pose proof (Hbnd kM HkM) as H1. pose proof (Hbnd km Hkm) as H2.
  pose proof (Hall i Hi) as H3. pose proof (Hall j Hj) as H4.
  rewrite <- EM in H1. rewrite <- Em in H2.
  split; lra.
Qed.


(** *** Long-only and short-only strategies *)

Lemma long_only_payoff legs s :
  (forall leg, In leg legs ->
     position leg = "long"%string /\ (0 <= quantity leg)%Z) ->
  net_premium legs <= total legs s.
Proof.
  intro Hlong.
  induction legs as [|leg legs IH]; [cbn; lra|].
  rewrite total_cons, net_premium_cons, payoff_split.
  destruct (Hlong leg (or_introl eq_refl)) as [Hp Hq].
  destruct (string_dec (position leg) "long") as [_|N]; [|congruence].
  assert (H0 : 0 <= intrinsic leg s * inject_Z (quantity leg)).
  { apply Qmult_le_0_compat; [apply intrinsic_nonneg|].
    change 0 with (inject_Z 0). rewrite <- Zle_Qle. exact Hq. }
  assert (IH' : net_premium legs <= total legs s)
    by (apply IH; intros l Hl; apply Hlong; right; exact Hl).
  lra.
Qed.

Lemma short_only_payoff legs s :
  (forall leg, In leg legs ->
     position leg <> "long"%string /\ (0 <= quantity leg)%Z) ->
  total legs s <= net_premium legs.
Proof.
  intro Hshort.
  induction legs as [|leg legs IH]; [cbn; lra|].
  rewrite total_cons, net_premium_cons, payoff_split.
  destruct (Hshort leg (or_introl eq_refl)) as [Hp Hq].
  destruct (string_dec (position leg) "long") as [E|_]; [congruence|].
  assert (H0 : 0 <= intrinsic leg s * inject_Z (quantity leg)).
  { apply Qmult_le_0_compat; [apply intrinsic_nonneg|].
    change 0 with (inject_Z 0). rewrite <- Zle_Qle. exact Hq. }
  assert (IH' : total legs s <= net_premium legs)
    by (apply IH; intros l Hl; apply Hshort; right; exact Hl).
  lra.
Qed.

(** A strategy that only buys options never pays less than its (negative)
    net premium: the reported maximum loss is bounded by the premium paid. *)
Theorem long_only_loss_is_limited :
  forall legs,
    legs <> [] ->
    (forall leg, In leg legs ->
       position leg = "long"%string /\ (0 <= quantity leg)%Z) ->
    (forall spots, Forall (fun v => net_premium legs <= v)
                     (calculate_payoff legs spots)) /\
    exists m, max_loss legs = Ok m /\ net_premium legs <= m.
Proof.
  intros legs Hne Hlong. split.
  - intro spots. unfold calculate_payoff. apply Forall_map, Forall_forall.
    intros s _. apply (long_only_payoff legs s Hlong).
  - destruct (extremes_over_samples legs Hne)
      as (lo & hi & M & m & _ & _ & Hm & _ & (k & _ & Em) & _).
    exists m. split; [exact Hm|]. rewrite Em. apply long_only_payoff, Hlong.
Qed.

(** A strategy that only writes options never pays more than its net
    premium: the reported maximum profit is bounded by the premium received. *)
Theorem short_only_profit_is_limited :
  forall legs,
    legs <> [] ->
    (forall leg, In leg legs ->
       position leg <> "long"%string /\ (0 <= quantity leg)%Z) ->
    (forall spots, Forall (fun v => v <= net_premium legs)
                     (calculate_payoff legs spots)) /\
    exists M, max_profit legs = Ok M /\ M <= net_premium legs.
Proof.
  intros legs Hne Hshort. split.
  - intro spots. unfold calculate_payoff. apply Forall_map, Forall_forall.
    intros s _. apply (short_only_payoff legs s Hshort).
  - destruct (extremes_over_samples legs Hne)
      as (lo & hi & M & m & _ & HM & _ & (k & _ & EM) & _).
    exists M. split; [exact HM|]. rewrite EM. apply short_only_payoff, Hshort.
Qed.


(** *** Payoffs of explicit legs *)

Lemma payoff_long_call K n p s :
  payoff (mk_leg "call" K "long" n p) s = (Qmax (s - K) 0 - p) * inject_Z n.
Proof. reflexivity. Qed.

Lemma payoff_short_call K n p s :
  payoff (mk_leg "call" K "short" n p) s = (p - Qmax (s - K) 0) * inject_Z n.
Proof. reflexivity. Qed.

Lemma payoff_long_put K n p s :
  payoff (mk_leg "put" K "long" n p) s = (Qmax (K - s) 0 - p) * inject_Z n.
Proof. reflexivity. Qed.

Lemma payoff_short_put K n p s :
  payoff (mk_leg "put" K "short" n p) s = (p - Qmax (K - s) 0) * inject_Z n.
Proof. reflexivity. Qed.

Lemma leg_premium_long ot K n p :
  leg_premium (mk_leg ot K "long" n p) = - (p * inject_Z n).
Proof. reflexivity. Qed.

Lemma leg_premium_short ot K n p :
  leg_premium (mk_leg ot K "short" n p) = p * inject_Z n.
Proof. reflexivity. Qed.

Lemma net_premium_nil : net_premium [] = 0.
Proof. reflexivity. Qed.

Ltac leg_simpl :=
  rewrite ?total_cons, ?total_nil, ?net_premium_cons, ?net_premium_nil,
    ?payoff_long_call, ?payoff_short_call, ?payoff_long_put, ?payoff_short_put,
    ?leg_premium_long, ?leg_premium_short;
  change (inject_Z 1) with 1; change (inject_Z 2) with 2.

Ltac max_cases :=
  repeat match goal with
         | |- context [Qmax ?a ?b] =>
           let H := fresh "Hmax" in
           let E := fresh "Emax" in
           destruct (Q.max_spec a b) as [[H E]|[H E]]; rewrite E
         end.

(** *** The ends of the analysis range *)

Lemma first_sample_below legs lo hi K :
  strike_bounds legs lo hi -> In K (map strike legs) -> 0.01 <= K ->
  sample lo hi 0 <= K.
Proof.
  intros Hb HK H0. pose proof (strike_bounds_le legs lo hi Hb) as Hle.
  destruct Hb as (_ & Hlo & _ & _). specialize (Hlo K HK).
  rewrite sample_first. unfold range_start. apply Q.max_lub; lra.
Qed.

Lemma last_sample_above legs lo hi K :
  strike_bounds legs lo hi -> In K (map strike legs) ->
  K <= sample lo hi 999.
Proof.
  intros Hb HK. pose proof (strike_bounds_le legs lo hi Hb) as Hle.
  destruct Hb as (_ & _ & _ & Hhi). specialize (Hhi K HK).
  rewrite sample_last. unfold range_stop. lra.
Qed.

(** *** Vertical spreads *)

Section Analysis.

Variable _calculate_premium : string -> Q -> result Q.

(** The two debit spreads: the reported maximum profit is the strike
    difference plus the net premium and the reported maximum loss is the
    net premium (the premium paid). *)
Theorem debit_spreads_are_limited :
  forall K1 K2 c1 c2 p1 p2,
    0.01 <= K1 -> K1 <= K2 ->
    _calculate_premium "call" K1 = Ok c1 ->
    _calculate_premium "call" K2 = Ok c2 ->
    _calculate_premium "put" K1 = Ok p1 ->
    _calculate_premium "put" K2 = Ok p2 ->
    exists bull bear Mc mc Mp mp,
      bull_call_spread _calculate_premium K1 K2 = Ok bull /\
      bear_put_spread _calculate_premium K1 K2 = Ok bear /\
      net_premium (legs bull) == c2 - c1 /\
      net_premium (legs bear) == p1 - p2 /\
      max_profit (legs bull) = Ok Mc /\ Mc == K2 - K1 + (c2 - c1) /\
      max_loss (legs bull) = Ok mc /\ mc == c2 - c1 /\
      max_profit (legs bear) = Ok Mp /\ Mp == K2 - K1 + (p1 - p2) /\
      max_loss (legs bear) = Ok mp /\ mp == p1 - p2.
Proof.
  intros K1 K2 c1 c2 p1 p2 H0 H12 Ec1 Ec2 Ep1 Ep2.
  unfold bull_call_spread, bear_put_spread.
  rewrite Ec1, Ec2, Ep1, Ep2. cbn [bind].
  set (bull := [mk_leg "call" K1 "long" 1 c1; mk_leg "call" K2 "short" 1 c2]).
  set (bear := [mk_leg "put" K2 "long" 1 p2; mk_leg "put" K1 "short" 1 p1]).
  assert (Hbull : exists M m, max_profit bull = Ok M /\ max_loss bull = Ok m /\
                    M == K2 - K1 + (c2 - c1) /\ m == c2 - c1).
  { apply extremes_pinned; [discriminate|]. intros lo hi Hb.
    assert (Hnet : forall s, c2 - c1 <= total bull s <= K2 - K1 + (c2 - c1)).
    { intro s. unfold bull. leg_simpl. split; max_cases; lra. }
    split; [intros k _; apply Hnet|]. split.
    - exists 0%nat. split; [lia|].
      assert (Hs : sample lo hi 0 <= K1)
        by (apply (first_sample_below bull); [exact Hb | left; reflexivity | exact H0]).
      revert Hs. generalize (sample lo hi 0). intros s Hs.
      unfold bull. leg_simpl. max_cases; lra.
    - exists 999%nat. split; [lia|].
      assert (Hs : K2 <= sample lo hi 999)
        by (apply (last_sample_above bull); [exact Hb | right; left; reflexivity]).
      revert Hs. generalize (sample lo hi 999). intros s Hs.
      unfold bull. leg_simpl. max_cases; lra. }
  assert (Hbear : exists M m, max_profit bear = Ok M /\ max_loss bear = Ok m /\
                    M == K2 - K1 + (p1 - p2) /\ m == p1 - p2).
  { apply extremes_pinned; [discriminate|]. intros lo hi Hb.
    assert (Hnet : forall s, p1 - p2 <= total bear s <= K2 - K1 + (p1 - p2)).
    { intro s. unfold bear. leg_simpl. split; max_cases; lra. }
    split; [intros k _; apply Hnet|]. split.
    - exists 999%nat. split; [lia|].
      assert (Hs : K2 <= sample lo hi 999)
        by (apply (last_sample_above bear); [exact Hb | left; reflexivity]).
      revert Hs. generalize (sample lo hi 999). intros s Hs.
      unfold bear. leg_simpl. max_cases; lra.
    - exists 0%nat. split; [lia|].
      assert (Hs : sample lo hi 0 <= K1)
        by (apply (first_sample_below bear); [exact Hb | right; left; reflexivity | exact H0]).
      revert Hs. generalize (sample lo hi 0). intros s Hs.
      unfold bear. leg_simpl. max_cases; lra. }
  destruct Hbull as (Mc & mc & HMc & Hmc & EMc & Emc).
  destruct Hbear as (Mp & mp & HMp & Hmp & EMp & Emp).
  exists (mk_strategy "Bull Call Spread" bull), (mk_strategy "Bear Put Spread" bear),
    Mc, mc, Mp, mp.
  cbn [legs].
  split; [reflexivity|]. split; [reflexivity|].
  split; [unfold bull; leg_simpl; lra|].
  split; [unfold bear; leg_simpl; lra|].
  repeat split; assumption.
Qed.


(** The two credit spreads: the reported maximum profit is the net premium
    (the premium received) and the reported maximum loss is the net premium
    less the strike difference. *)
Theorem credit_spreads_are_limited :
  forall K1 K2 c1 c2 p1 p2,
    0.01 <= K1 -> K1 <= K2 ->
    _calculate_premium "call" K1 = Ok c1 ->
    _calculate_premium "call" K2 = Ok c2 ->
    _calculate_premium "put" K1 = Ok p1 ->
    _calculate_premium "put" K2 = Ok p2 ->
    exists bull bear Mp mp Mc mc,
      bull_put_spread _calculate_premium K1 K2 = Ok bull /\
      bear_call_spread _calculate_premium K1 K2 = Ok bear /\
      net_premium (legs bull) == p2 - p1 /\
      net_premium (legs bear) == c1 - c2 /\
      max_profit (legs bull) = Ok Mp /\ Mp == p2 - p1 /\
      max_loss (legs bull) = Ok mp /\ mp == p2 - p1 - (K2 - K1) /\
      max_profit (legs bear) = Ok Mc /\ Mc == c1 - c2 /\
      max_loss (legs bear) = Ok mc /\ mc == c1 - c2 - (K2 - K1).
Proof.
  intros K1 K2 c1 c2 p1 p2 H0 H12 Ec1 Ec2 Ep1 Ep2.
  unfold bull_put_spread, bear_call_spread.
  rewrite Ec1, Ec2, Ep1, Ep2. cbn [bind].
  set (bull := [mk_leg "put" K2 "short" 1 p2; mk_leg "put" K1 "long" 1 p1]).
  set (bear := [mk_leg "call" K1 "short" 1 c1; mk_leg "call" K2 "long" 1 c2]).
  assert (Hbull : exists M m, max_profit bull = Ok M /\ max_loss bull = Ok m /\
                    M == p2 - p1 /\ m == p2 - p1 - (K2 - K1)).
  { apply extremes_pinned; [discriminate|]. intros lo hi Hb.
    assert (Hnet : forall s, p2 - p1 - (K2 - K1) <= total bull s <= p2 - p1).
    { intro s. unfold bull. leg_simpl. split; max_cases; lra. }
    split; [intros k _; apply Hnet|]. split.
    - exists 0%nat. split; [lia|].
      assert (Hs : sample lo hi 0 <= K1)
        by (apply (first_sample_below bull); [exact Hb | right; left; reflexivity | exact H0]).
      revert Hs. generalize (sample lo hi 0). intros s Hs.
      unfold bull. leg_simpl. max_cases; lra.
    - exists 999%nat. split; [lia|].
      assert (Hs : K2 <= sample lo hi 999)
        by (apply (last_sample_above bull); [exact Hb | left; reflexivity]).
      revert Hs. generalize (sample lo hi 999). intros s Hs.
      unfold bull. leg_simpl. max_cases; lra. }
  assert (Hbear : exists M m, max_profit bear = Ok M /\ max_loss bear = Ok m /\
                    M == c1 - c2 /\ m == c1 - c2 - (K2 - K1)).
  { apply extremes_pinned; [discriminate|]. intros lo hi Hb.
    assert (Hnet : forall s, c1 - c2 - (K2 - K1) <= total bear s <= c1 - c2).
    { intro s. unfold bear. leg_simpl. split; max_cases; lra. }
    split; [intros k _; apply Hnet|]. split.
    - exists 999%nat. split; [lia|].
      assert (Hs : K2 <= sample lo hi 999)
        by (apply (last_sample_above bear); [exact Hb | right; left; reflexivity]).
      revert Hs. generalize (sample lo hi 999). intros s Hs.
      unfold bear. leg_simpl. max_cases; lra.
    - exists 0%nat. split; [lia|].
      assert (Hs : sample lo hi 0 <= K1)
        by (apply (first_sample_below bear); [exact Hb | left; reflexivity | exact H0]).
      revert Hs. generalize (sample lo hi 0). intros s Hs.
      unfold bear. leg_simpl. max_cases; lra. }
  destruct Hbull as (Mp & mp & HMp & Hmp & EMp & Emp).
  destruct Hbear as (Mc & mc & HMc & Hmc & EMc & Emc).
  exists (mk_strategy "Bull Put Spread" bull), (mk_strategy "Bear Call Spread" bear),
    Mp, mp, Mc, mc.
  cbn [legs].
  split; [reflexivity|]. split; [reflexivity|].
  split; [unfold bull; leg_simpl; lra|].
  split; [unfold bear; leg_simpl; lra|].
  repeat split; assumption.
Qed.

(** *** Single-strike strategies *)

Lemma sample_collapsed (K : Q) (k : nat) : 0.01 <= K -> sample K K k == K.
Proof.
  intro H0. unfold sample.
  assert (Hs : range_start K K == K).
  { unfold range_start. rewrite Q.max_l by lra. ring. }
  assert (He : range_stop K K == K) by (unfold range_stop; ring).
  rewrite Hs, He. field.
Qed.

Lemma filter_none {A : Type} (f : A -> bool) (l : list A) :
  (forall x, In x l -> f x = false) -> filter f l = [].
Proof.
  induction l as [|x l IH]; intro H; [reflexivity|].
  cbn [filter]. rewrite (H x (or_introl eq_refl)).
  apply IH. intros y Hy. apply H. right. exact Hy.
Qed.

(** When every leg has the same strike the analysis range is a single point. *)
Lemma single_strike_collapse legs (K : Q) :
  legs <> [] -> (forall leg, In leg legs -> strike leg = K) -> 0.01 <= K ->
  exists M m,
    max_profit legs = Ok M /\ max_loss legs = Ok m /\
    M == net_premium legs /\ m == net_premium legs /\
    break_even_points legs = Ok [].
Proof.
  intros Hne HK H0.
  destruct (extremes_over_samples legs Hne)
    as (lo & hi & M & m & Hb & HM & Hm & (kM & _ & EM) & (km & _ & Em) & _ & Hbe).
  assert (Hstrike : forall x, In x (map strike legs) -> x = K).
  { intros x Hx. apply in_map_iff in Hx. destruct Hx as (leg & E & Hin).
    rewrite <- E. apply HK, Hin. }
  destruct Hb as (Hlo & _ & Hhi & _).
  apply Hstrike in Hlo, Hhi. subst lo hi.
  assert (Hflat : forall k, total legs (sample K K k) == net_premium legs).
  { intro k. pose proof (sample_collapsed K k H0) as Hs.
    apply total_worthless. intros leg Hin. rewrite (HK leg Hin).
    destruct (string_dec _ _); lra. }
  exists M, m. split; [exact HM|]. split; [exact Hm|].
  split; [rewrite EM; apply Hflat|]. split; [rewrite Em; apply Hflat|].
  rewrite Hbe, filter_none; [reflexivity|].
  intros i _. unfold crossingb.
  destruct (Qlt_le_dec _ 0) as [Hneg|_]; [|reflexivity].
  rewrite !Hflat in Hneg. exfalso. nra.
Qed.

(** A straddle has one strike, so its analysis range is the single spot
    [strike]: the reported extremes are both the net premium, no break-even
    point is reported, and the risk/reward ratio of a long straddle with a
    positive total premium is [-1]. *)
Theorem straddle_analysis_collapses :
  forall K c p,
    0.01 <= K ->
    _calculate_premium "call" K = Ok c ->
    _calculate_premium "put" K = Ok p ->
    0 < c + p ->
    exists long short M m M' m' ratio ratio',
      long_straddle _calculate_premium K = Ok long /\
      short_straddle _calculate_premium K = Ok short /\
      max_profit (legs long) = Ok M /\ M == - (c + p) /\
      max_loss (legs long) = Ok m /\ m == - (c + p) /\
      break_even_points (legs long) = Ok [] /\
      risk_reward_ratio (legs long) = Ok (Finite ratio) /\ ratio == - 1 /\
      max_profit (legs short) = Ok M' /\ M' == c + p /\
      max_loss (legs short) = Ok m' /\ m' == c + p /\
      break_even_points (legs short) = Ok [] /\
      risk_reward_ratio (legs short) = Ok (Finite ratio') /\ ratio' == 1.
Proof.
  intros K c p H0 Ec Ep Hpos.
  unfold long_straddle, short_straddle. rewrite Ec, Ep. cbn [bind].
  set (long := [mk_leg "call" K "long" 1 c; mk_leg "put" K "long" 1 p]).
  set (short := [mk_leg "call" K "short" 1 c; mk_leg "put" K "short" 1 p]).
  destruct (single_strike_collapse long K) as (M & m & HM & Hm & EM & Em & Hbe);
    [discriminate | intros leg [E|[E|[]]]; subst leg; reflexivity | exact H0 |].
  destruct (single_strike_collapse short K) as (M' & m' & HM' & Hm' & EM' & Em' & Hbe');
    [discriminate | intros leg [E|[E|[]]]; subst leg; reflexivity | exact H0 |].
  assert (Hnl : net_premium long == - (c + p)) by (unfold long; leg_simpl; lra).
  assert (Hns : net_premium short == c + p) by (unfold short; leg_simpl; lra).
  rewrite Hnl in EM, Em. rewrite Hns in EM', Em'.
  exists (mk_strategy "Long Straddle" long), (mk_strategy "Short Straddle" short),
    M, m, M', m', (Qabs m / M), (Qabs m' / M').
  cbn [legs].
  assert (HMz : Qeq_bool M 0 = false).
  { destruct (Qeq_bool M 0) eqn:E; [|reflexivity].
    apply Qeq_bool_iff in E. lra. }
  assert (HMz' : Qeq_bool M' 0 = false).
  { destruct (Qeq_bool M' 0) eqn:E; [|reflexivity].
    apply Qeq_bool_iff in E. lra. }
  split; [reflexivity|]. split; [reflexivity|].
  split; [exact HM|]. split; [exact EM|].
  split; [exact Hm|]. split; [exact Em|].
  split; [exact Hbe|].
  split; [unfold risk_reward_ratio; rewrite HM, Hm; cbn [bind]; rewrite HMz; reflexivity|].
  split.
  { rewrite (Qabs_neg m) by lra. rewrite EM, Em. field. lra. }
  split; [exact HM'|]. split; [exact EM'|].
  split; [exact Hm'|]. split; [exact Em'|].
  split; [exact Hbe'|].
  split; [unfold risk_reward_ratio; rewrite HM', Hm'; cbn [bind]; rewrite HMz'; reflexivity|].
  rewrite (Qabs_pos m') by lra. rewrite EM', Em'. field. lra.
Qed.

(** *** Iron condor and iron butterfly *)

(** The iron condor pays, at every spot, what its bull put spread and its
    bear call spread pay together, and so do the net premiums. *)
Theorem iron_condor_is_two_spreads :
  forall K1 K2 K3 K4 p1 p2 c3 c4,
    _calculate_premium "put" K1 = Ok p1 ->
    _calculate_premium "put" K2 = Ok p2 ->
    _calculate_premium "call" K3 = Ok c3 ->
    _calculate_premium "call" K4 = Ok c4 ->
    exists condor puts calls,
      iron_condor _calculate_premium K1 K2 K3 K4 = Ok condor /\
      bull_put_spread _calculate_premium K1 K2 = Ok puts /\
      bear_call_spread _calculate_premium K3 K4 = Ok calls /\
      net_premium (legs condor) ==
        net_premium (legs puts) + net_premium (legs calls) /\
      forall s a b c,
        calculate_payoff (legs condor) [s] = [a] ->
        calculate_payoff (legs puts) [s] = [b] ->
        calculate_payoff (legs calls) [s] = [c] ->
        a == b + c.
Proof.
  intros K1 K2 K3 K4 p1 p2 c3 c4 E1 E2 E3 E4.
  unfold iron_condor, bull_put_spread, bear_call_spread.
  rewrite E1, E2, E3, E4. cbn [bind].
  do 3 eexists. split; [reflexivity|]. split; [reflexivity|].
  split; [reflexivity|]. cbn [legs]. split.
  - leg_simpl. ring.
  - intros s a b c Ha Hb Hc. rewrite calculate_payoff_single in Ha, Hb, Hc.
    injection Ha as <-. injection Hb as <-. injection Hc as <-.
    leg_simpl. ring.
Qed.

(** The iron butterfly pays, at every spot, what the short straddle at the
    middle strike and the long strangle at the outer strikes pay together,
    and so do the net premiums. *)
Theorem iron_butterfly_is_straddle_and_strangle :
  forall K1 K2 K3 p1 p2 c2 c3,
    _calculate_premium "put" K1 = Ok p1 ->
    _calculate_premium "put" K2 = Ok p2 ->
    _calculate_premium "call" K2 = Ok c2 ->
    _calculate_premium "call" K3 = Ok c3 ->
    exists fly straddle strangle,
      iron_butterfly _calculate_premium K1 K2 K3 = Ok fly /\
      short_straddle _calculate_premium K2 = Ok straddle /\
      long_strangle _calculate_premium K3 K1 = Ok strangle /\
      net_premium (legs fly) ==
        net_premium (legs straddle) + net_premium (legs strangle) /\
      forall s a b c,
        calculate_payoff (legs fly) [s] = [a] ->
        calculate_payoff (legs straddle) [s] = [b] ->
        calculate_payoff (legs strangle) [s] = [c] ->
        a == b + c.
Proof.
  intros K1 K2 K3 p1 p2 c2 c3 E1 E2 E3 E4.
  unfold iron_butterfly, short_straddle, long_strangle.
  rewrite E1, E2, E3, E4. cbn [bind].
  do 3 eexists. split; [reflexivity|]. split; [reflexivity|].
  split; [reflexivity|]. cbn [legs]. split.
  - leg_simpl. ring.
  - intros s a b c Ha Hb Hc. rewrite calculate_payoff_single in Ha, Hb, Hc.
    injection Ha as <-. injection Hb as <-. injection Hc as <-.
    leg_simpl. ring.
Qed.


(** *** Butterfly spread *)

Lemma butterfly_samples legs (K1 K2 K3 : Q) lo hi :
  map strike legs = [K1; K2; K3] ->
  K1 < K2 -> K3 - K2 == K2 - K1 -> 0.01 <= K1 - (K2 - K1) ->
  strike_bounds legs lo hi ->
  sample lo hi 0 <= K1 /\ K3 <= sample lo hi 999 /\
  sample lo hi 499 == K2 - (2 # 999) * (K2 - K1) /\
  sample lo hi 500 == K2 + (2 # 999) * (K2 - K1) /\
  (forall k, (k <= 499)%nat -> sample lo hi k <= sample lo hi 499) /\
  (forall k, (500 <= k)%nat -> sample lo hi 500 <= sample lo hi k).
Proof.
  intros Hst H12 Hsym H0 Hb.
  assert (Hfirst : sample lo hi 0 <= K1).
  { apply (first_sample_below legs); [exact Hb | rewrite Hst; left; reflexivity | lra]. }
  assert (Hlast : K3 <= sample lo hi 999).
  { apply (last_sample_above legs); [exact Hb|].
    rewrite Hst. right; right; left; reflexivity. }
  destruct Hb as (Hlo & Hlo_le & Hhi & Hhi_le). rewrite Hst in *.
  assert (Elo : lo = K1).
  { pose proof (Hlo_le K1 (or_introl eq_refl)) as H1.
    destruct Hlo as [E|[E|[E|[]]]]; [congruence | subst lo; lra | subst lo; lra]. }
  assert (Ehi : hi = K3).
  { pose proof (Hhi_le K3 (or_intror (or_intror (or_introl eq_refl)))) as H3.
    destruct Hhi as [E|[E|[E|[]]]]; [subst hi; lra | subst hi; lra | congruence]. }
  subst lo hi.
  assert (Hs : range_start K1 K3 == K1 - (K2 - K1)).
  { unfold range_start. rewrite Q.max_l by lra. lra. }
  assert (He : range_stop K1 K3 == K3 + (K2 - K1)) by (unfold range_stop; lra).
  split; [exact Hfirst|]. split; [exact Hlast|].
  split.
  { unfold sample. rewrite Hs, He.
    change (inject_Z (Z.of_nat 499)) with 499.
    unfold Qdiv. change (/ 999) with (1 # 999). lra. }
  split.
  { unfold sample. rewrite Hs, He.
    change (inject_Z (Z.of_nat 500)) with 500.
    unfold Qdiv. change (/ 999) with (1 # 999). lra. }
  split; intros k Hk; apply sample_le; try lia; rewrite Hs, He; lra.
Qed.

(** A symmetric butterfly pays most at its middle strike, which is the
    midpoint of the analysis range and lies halfway between two of the 1000
    samples: the reported maximum profit falls short of the payoff at the
    middle strike by 2/999 of the wing width.  The reported maximum loss is
    the net premium. *)
Theorem butterfly_profit_is_underestimated :
  forall ot K1 K2 K3 p1 p2 p3,
    let kind := if string_dec ot "call" then "call"%string else "put"%string in
    K1 < K2 -> K3 - K2 == K2 - K1 -> 0.01 <= K1 - (K2 - K1) ->
    _calculate_premium kind K1 = Ok p1 ->
    _calculate_premium kind K2 = Ok p2 ->
    _calculate_premium kind K3 = Ok p3 ->
    exists fly M m at_middle,
      butterfly_spread _calculate_premium K1 K2 K3 ot = Ok fly /\
      net_premium (legs fly) == 2 * p2 - p1 - p3 /\
      max_profit (legs fly) = Ok M /\
      M == net_premium (legs fly) + (997 # 999) * (K2 - K1) /\
      max_loss (legs fly) = Ok m /\ m == net_premium (legs fly) /\
      calculate_payoff (legs fly) [K2] = [at_middle] /\
      at_middle == net_premium (legs fly) + (K2 - K1).
Proof.
  intros ot K1 K2 K3 p1 p2 p3 kind H12 Hsym H0 E1 E2 E3.
  unfold butterfly_spread. subst kind.
  destruct (string_dec ot "call") as [Hot|Hot];
    rewrite E1, E2, E3; cbn [bind].
  - set (fly := [mk_leg "call" K1 "long" 1 p1; mk_leg "call" K2 "short" 2 p2;
                 mk_leg "call" K3 "long" 1 p3]).
    assert (Hnet : net_premium fly == 2 * p2 - p1 - p3)
      by (unfold fly; leg_simpl; lra).
    assert (Hext : exists M m, max_profit fly = Ok M /\ max_loss fly = Ok m /\
               M == net_premium fly + (997 # 999) * (K2 - K1) /\
               m == net_premium fly).
    { apply extremes_pinned; [discriminate|]. intros lo hi Hb.
      destruct (butterfly_samples fly K1 K2 K3 lo hi eq_refl H12 Hsym H0 Hb)
        as (Hfirst & Hlast & E499 & E500 & Hlow & Hhigh).
      split; [|split].
      + intros k Hk. rewrite Hnet.
        destruct (Nat.le_gt_cases k 499) as [Hk'|Hk'].
        * pose proof (Hlow k Hk') as Hs. rewrite E499 in Hs.
          revert Hs. generalize (sample lo hi k). intros s Hs.
          unfold fly. leg_simpl. split; max_cases; lra.
        * assert (Hk2 : (500 <= k)%nat) by lia.
          pose proof (Hhigh k Hk2) as Hs. rewrite E500 in Hs.
          revert Hs. generalize (sample lo hi k). intros s Hs.
          unfold fly. leg_simpl. split; max_cases; lra.
      + exists 0%nat. split; [lia|]. rewrite Hnet.
        revert Hfirst. generalize (sample lo hi 0). intros s Hs.
        unfold fly. leg_simpl. max_cases; lra.
      + exists 499%nat. split; [lia|]. rewrite Hnet.
        revert E499. generalize (sample lo hi 499). intros s Hs.
        unfold fly. leg_simpl. max_cases; lra. }
    destruct Hext as (M & m & HM & Hm & EM & Em).
    exists (mk_strategy "Call Butterfly Spread" fly), M, m, (total fly K2).
    cbn [legs]. split; [reflexivity|]. split; [exact Hnet|].
    split; [exact HM|]. split; [exact EM|]. split; [exact Hm|].
    split; [exact Em|]. split; [apply calculate_payoff_single|].
    rewrite Hnet. unfold fly. leg_simpl. max_cases; lra.
  - set (fly := [mk_leg "put" K1 "long" 1 p1; mk_leg "put" K2 "short" 2 p2;
                 mk_leg "put" K3 "long" 1 p3]).
    assert (Hnet : net_premium fly == 2 * p2 - p1 - p3)
      by (unfold fly; leg_simpl; lra).
    assert (Hext : exists M m, max_profit fly = Ok M /\ max_loss fly = Ok m /\
               M == net_premium fly + (997 # 999) * (K2 - K1) /\
               m == net_premium fly).
    { apply extremes_pinned; [discriminate|]. intros lo hi Hb.
      destruct (butterfly_samples fly K1 K2 K3 lo hi eq_refl H12 Hsym H0 Hb)
        as (Hfirst & Hlast & E499 & E500 & Hlow & Hhigh).
      split; [|split].
      + intros k Hk. rewrite Hnet.
        destruct (Nat.le_gt_cases k 499) as [Hk'|Hk'].
        * pose proof (Hlow k Hk') as Hs. rewrite E499 in Hs.
          revert Hs. generalize (sample lo hi k). intros s Hs.
          unfold fly. leg_simpl. split; max_cases; lra.
        * assert (Hk2 : (500 <= k)%nat) by lia.
          pose proof (Hhigh k Hk2) as Hs. rewrite E500 in Hs.
          revert Hs. generalize (sample lo hi k). intros s Hs.
          unfold fly. leg_simpl. split; max_cases; lra.
      + exists 0%nat. split; [lia|]. rewrite Hnet.
        revert Hfirst. generalize (sample lo hi 0). intros s Hs.
        unfold fly. leg_simpl. max_cases; lra.
      + exists 500%nat. split; [lia|]. rewrite Hnet.
        revert E500. generalize (sample lo hi 500). intros s Hs.
        unfold fly. leg_simpl. max_cases; lra. }
    destruct Hext as (M & m & HM & Hm & EM & Em).
    exists (mk_strategy "Put Butterfly Spread" fly), M, m, (total fly K2).
    cbn [legs]. split; [reflexivity|]. split; [exact Hnet|].
    split; [exact HM|]. split; [exact EM|]. split; [exact Hm|].
    split; [exact Em|]. split; [apply calculate_payoff_single|].
    rewrite Hnet. unfold fly. leg_simpl. max_cases; lra.
Qed.

End Analysis.

(** *** Examples *)

(** A stand-in quote: 7.5 for a call and 6 for a put, at every strike. *)
Definition quoted_premium (option_type : string) (strike : Q) : result Q :=
  Ok (if string_dec option_type "call" then 7.5 else 6).

Lemma long_only_witness :
  ([mk_leg "put" 95 "long" 1 3.5; mk_leg "call" 105 "long" 2 8] <> [] /\
   (forall leg,
      In leg [mk_leg "put" 95 "long" 1 3.5; mk_leg "call" 105 "long" 2 8] ->
      position leg = "long"%string /\ (0 <= quantity leg)%Z)) /\
  (forall spots,
     Forall (fun v =>
               net_premium [mk_leg "put" 95 "long" 1 3.5;
                            mk_leg "call" 105 "long" 2 8] <= v)
       (calculate_payoff [mk_leg "put" 95 "long" 1 3.5;
                          mk_leg "call" 105 "long" 2 8] spots)) /\
  exists m,
    max_loss [mk_leg "put" 95 "long" 1 3.5; mk_leg "call" 105 "long" 2 8] = Ok m /\
    net_premium [mk_leg "put" 95 "long" 1 3.5; mk_leg "call" 105 "long" 2 8] <= m.
Proof.
  assert (Hne : [mk_leg "put" 95 "long" 1 3.5; mk_leg "call" 105 "long" 2 8] <> [])
    by discriminate.
  assert (Hlong : forall leg,
            In leg [mk_leg "put" 95 "long" 1 3.5; mk_leg "call" 105 "long" 2 8] ->
            position leg = "long"%string /\ (0 <= quantity leg)%Z).
  { intros leg [E|[E|[]]]; subst leg; cbn; split; (reflexivity || lia). }
  split; [split; [exact Hne | exact Hlong]|].
  exact (long_only_loss_is_limited _ Hne Hlong).
Defined.

Lemma short_only_witness :
  ([mk_leg "put" 95 "short" 1 3.5; mk_leg "call" 105 "short" 2 8] <> [] /\
   (forall leg,
      In leg [mk_leg "put" 95 "short" 1 3.5; mk_leg "call" 105 "short" 2 8] ->
      position leg <> "long"%string /\ (0 <= quantity leg)%Z)) /\
  (forall spots,
     Forall (fun v =>
               v <= net_premium [mk_leg "put" 95 "short" 1 3.5;
                                 mk_leg "call" 105 "short" 2 8])
       (calculate_payoff [mk_leg "put" 95 "short" 1 3.5;
                          mk_leg "call" 105 "short" 2 8] spots)) /\
  exists M,
    max_profit [mk_leg "put" 95 "short" 1 3.5; mk_leg "call" 105 "short" 2 8] = Ok M /\
    M <= net_premium [mk_leg "put" 95 "short" 1 3.5; mk_leg "call" 105 "short" 2 8].
Proof.
  assert (Hne : [mk_leg "put" 95 "short" 1 3.5; mk_leg "call" 105 "short" 2 8] <> [])
    by discriminate.
  assert (Hshort : forall leg,
            In leg [mk_leg "put" 95 "short" 1 3.5; mk_leg "call" 105 "short" 2 8] ->
            position leg <> "long"%string /\ (0 <= quantity leg)%Z).
  { intros leg [E|[E|[]]]; subst leg; cbn; split; (discriminate || lia). }
  split; [split; [exact Hne | exact Hshort]|].
  exact (short_only_profit_is_limited _ Hne Hshort).
Defined.

Lemma debit_spreads_witness :
  (0.01 <= 95 /\ 95 <= 105 /\
   quoted_premium "call" 95 = Ok 7.5 /\ quoted_premium "call" 105 = Ok 7.5 /\
   quoted_premium "put" 95 = Ok 6 /\ quoted_premium "put" 105 = Ok 6) /\
  exists bull bear Mc mc Mp mp,
    bull_call_spread quoted_premium 95 105 = Ok bull /\
    bear_put_spread quoted_premium 95 105 = Ok bear /\
    net_premium (legs bull) == 7.5 - 7.5 /\
    net_premium (legs bear) == 6 - 6 /\
    max_profit (legs bull) = Ok Mc /\ Mc == 105 - 95 + (7.5 - 7.5) /\
    max_loss (legs bull) = Ok mc /\ mc == 7.5 - 7.5 /\
    max_profit (legs bear) = Ok Mp /\ Mp == 105 - 95 + (6 - 6) /\
    max_loss (legs bear) = Ok mp /\ mp == 6 - 6.
Proof.
  assert (H0 : 0.01 <= 95) by lra.
  assert (H12 : 95 <= 105) by lra.
  split; [repeat split; try reflexivity; lra|].
  exact (debit_spreads_are_limited quoted_premium 95 105 7.5 7.5 6 6 H0 H12
           eq_refl eq_refl eq_refl eq_refl).
Defined.

Lemma credit_spreads_witness :
  (0.01 <= 95 /\ 95 <= 105 /\
   quoted_premium "call" 95 = Ok 7.5 /\ quoted_premium "call" 105 = Ok 7.5 /\
   quoted_premium "put" 95 = Ok 6 /\ quoted_premium "put" 105 = Ok 6) /\
  exists bull bear Mp mp Mc mc,
    bull_put_spread quoted_premium 95 105 = Ok bull /\
    bear_call_spread quoted_premium 95 105 = Ok bear /\
    net_premium (legs bull) == 6 - 6 /\
    net_premium (legs bear) == 7.5 - 7.5 /\
    max_profit (legs bull) = Ok Mp /\ Mp == 6 - 6 /\
    max_loss (legs bull) = Ok mp /\ mp == 6 - 6 - (105 - 95) /\
    max_profit (legs bear) = Ok Mc /\ Mc == 7.5 - 7.5 /\
    max_loss (legs bear) = Ok mc /\ mc == 7.5 - 7.5 - (105 - 95).
Proof.
  assert (H0 : 0.01 <= 95) by lra.
  assert (H12 : 95 <= 105) by lra.
  split; [repeat split; try reflexivity; lra|].
  exact (credit_spreads_are_limited quoted_premium 95 105 7.5 7.5 6 6 H0 H12
           eq_refl eq_refl eq_refl eq_refl).
Defined.

Lemma straddle_witness :
  (0.01 <= 100 /\
   quoted_premium "call" 100 = Ok 7.5 /\ quoted_premium "put" 100 = Ok 6 /\
   0 < 7.5 + 6) /\
  exists long short M m M' m' ratio ratio',
    long_straddle quoted_premium 100 = Ok long /\
    short_straddle quoted_premium 100 = Ok short /\
    max_profit (legs long) = Ok M /\ M == - (7.5 + 6) /\
    max_loss (legs long) = Ok m /\ m == - (7.5 + 6) /\
    break_even_points (legs long) = Ok [] /\
    risk_reward_ratio (legs long) = Ok (Finite ratio) /\ ratio == - 1 /\
    max_profit (legs short) = Ok M' /\ M' == 7.5 + 6 /\
    max_loss (legs short) = Ok m' /\ m' == 7.5 + 6 /\
    break_even_points (legs short) = Ok [] /\
    risk_reward_ratio (legs short) = Ok (Finite ratio') /\ ratio' == 1.
Proof.
  assert (H0 : 0.01 <= 100) by lra.
  assert (Hpos : 0 < 7.5 + 6) by lra.
  split; [repeat split; try reflexivity; lra|].
  exact (straddle_analysis_collapses quoted_premium 100 7.5 6 H0
           eq_refl eq_refl Hpos).
Defined.

Lemma iron_condor_witness :
  (quoted_premium "put" 90 = Ok 6 /\ quoted_premium "put" 95 = Ok 6 /\
   quoted_premium "call" 105 = Ok 7.5 /\ quoted_premium "call" 110 = Ok 7.5) /\
  exists condor puts calls,
    iron_condor quoted_premium 90 95 105 110 = Ok condor /\
    bull_put_spread quoted_premium 90 95 = Ok puts /\
    bear_call_spread quoted_premium 105 110 = Ok calls /\
    net_premium (legs condor) ==
      net_premium (legs puts) + net_premium (legs calls) /\
    forall s a b c,
      calculate_payoff (legs condor) [s] = [a] ->
      calculate_payoff (legs puts) [s] = [b] ->
      calculate_payoff (legs calls) [s] = [c] ->
      a == b + c.
Proof.
  split; [repeat split; reflexivity|].
  exact (iron_condor_is_two_spreads quoted_premium 90 95 105 110 6 6 7.5 7.5
           eq_refl eq_refl eq_refl eq_refl).
Defined.

Lemma iron_butterfly_witness :
  (quoted_premium "put" 90 = Ok 6 /\ quoted_premium "put" 100 = Ok 6 /\
   quoted_premium "call" 100 = Ok 7.5 /\ quoted_premium "call" 110 = Ok 7.5) /\
  exists fly straddle strangle,
    iron_butterfly quoted_premium 90 100 110 = Ok fly /\
    short_straddle quoted_premium 100 = Ok straddle /\
    long_strangle quoted_premium 110 90 = Ok strangle /\
    net_premium (legs fly) ==
      net_premium (legs straddle) + net_premium (legs strangle) /\
    forall s a b c,
      calculate_payoff (legs fly) [s] = [a] ->
      calculate_payoff (legs straddle) [s] = [b] ->
      calculate_payoff (legs strangle) [s] = [c] ->
      a == b + c.
Proof.
  split; [repeat split; reflexivity|].
  exact (iron_butterfly_is_straddle_and_strangle quoted_premium 90 100 110
           6 6 7.5 7.5 eq_refl eq_refl eq_refl eq_refl).
Defined.

Lemma butterfly_witness :
  (90 < 100 /\ 110 - 100 == 100 - 90 /\ 0.01 <= 90 - (100 - 90) /\
   quoted_premium "call" 90 = Ok 7.5 /\ quoted_premium "call" 100 = Ok 7.5 /\
   quoted_premium "call" 110 = Ok 7.5) /\
  exists fly M m at_middle,
    butterfly_spread quoted_premium 90 100 110 "call" = Ok fly /\
    net_premium (legs fly) == 2 * 7.5 - 7.5 - 7.5 /\
    max_profit (legs fly) = Ok M /\
    M == net_premium (legs fly) + (997 # 999) * (100 - 90) /\
    max_loss (legs fly) = Ok m /\ m == net_premium (legs fly) /\
    calculate_payoff (legs fly) [100] = [at_middle] /\
    at_middle == net_premium (legs fly) + (100 - 90).
Proof.
  assert (H12 : 90 < 100) by lra.
  assert (Hsym : 110 - 100 == 100 - 90) by lra.
  assert (H0 : 0.01 <= 90 - (100 - 90)) by lra.
  split; [repeat split; try reflexivity; lra|].
  exact (butterfly_profit_is_underestimated quoted_premium "call" 90 100 110
           7.5 7.5 7.5 H12 Hsym H0 eq_refl eq_refl eq_refl).
Defined.


End StrategyAnalysis.

(** ** calculations/greeks.py: relations between the Greeks *)

Module GreeksRelations.
Import Greeks.
Local Open Scope R_scope.

Lemma norm_pdf_pos (x : R) : 0 < norm_pdf x.
Proof.
  unfold norm_pdf. apply Rdiv_lt_0_compat; [apply exp_pos|].
  apply sqrt_lt_R0. pose proof PI_RGT_0. lra.
Qed.

(** The bundle, with [d1] and [d2] named. *)
Lemma calculate_all_greeks_bundle spot strike T r vol ot :
  strike <> 0 ->
  let d1 := (ln (spot / strike) + (r + 0.5 * vol ^ 2) * T) / (vol * sqrt T) in
  let d2 := d1 - vol * sqrt T in
  calculate_all_greeks spot strike T r vol ot =
  Ok (if string_dec (lower ot) "call" then
        mk_greeks (norm_cdf d1)
          (norm_pdf d1 / (spot * vol * sqrt T))
          ((- (spot * norm_pdf d1 * vol) / (2 * sqrt T) -
            r * strike * exp (- r * T) * norm_cdf d2) / 365)
          (spot * norm_pdf d1 * sqrt T / 100)
          (strike * T * exp (- r * T) * norm_cdf d2 / 100)
      else
        mk_greeks (norm_cdf d1 - 1)
          (norm_pdf d1 / (spot * vol * sqrt T))
          ((- (spot * norm_pdf d1 * vol) / (2 * sqrt T) +
            r * strike * exp (- r * T) * norm_cdf (- d2)) / 365)
          (spot * norm_pdf d1 * sqrt T / 100)
          (- strike * T * exp (- r * T) * norm_cdf (- d2) / 100)).
Proof.
  intros Hk d1 d2.
  unfold calculate_all_greeks, delta, gamma, theta, vega, rho, _calculate_d1.
  destruct (Req_dec_T strike 0) as [E|_]; [contradiction|]. cbn [bind].
  destruct (string_dec (lower ot) "call"); reflexivity.
Qed.

(** For a positive spot, strike, maturity and volatility (where the
    calculator returns numbers), the Greeks of a call and of a put on the
    same parameters differ by the Greeks of the forward
    [spot - strike exp(-r T)]: the deltas differ by 1, gamma and vega agree,
    the rhos differ by [strike T exp(-r T) / 100] and the daily thetas by
    [- r strike exp(-r T) / 365]. *)
Theorem greeks_put_call_relations :
  forall spot strike T r vol ot_call ot_put,
    0 < spot -> 0 < strike -> 0 < T -> 0 < vol ->
    lower ot_call = "call"%string -> lower ot_put <> "call"%string ->
    exists c p,
      calculate_all_greeks spot strike T r vol ot_call = Ok c /\
      calculate_all_greeks spot strike T r vol ot_put = Ok p /\
      Delta c - Delta p = 1 /\
      Gamma c = Gamma p /\
      Vega c = Vega p /\
      Rho c - Rho p = strike * T * exp (- r * T) / 100 /\
      Theta c - Theta p = - (r * strike * exp (- r * T)) / 365.
Proof.
  intros spot strike T r vol ot_call ot_put Hs Hk HT Hv Hc Hp.
  rewrite !calculate_all_greeks_bundle by lra.
  destruct (string_dec (lower ot_call) "call") as [_|N]; [|contradiction].
  destruct (string_dec (lower ot_put) "call") as [E|_]; [contradiction|].
  do 2 eexists. split; [reflexivity|]. split; [reflexivity|].
  cbn [Delta Gamma Theta Vega Rho].
  set (d1 := (ln (spot / strike) + (r + 0.5 * vol ^ 2) * T) / (vol * sqrt T)).
  set (d2 := d1 - vol * sqrt T).
  rewrite (norm_cdf_symmetry d2).
  split; [ring|]. split; [reflexivity|]. split; [reflexivity|].
  split; unfold Rdiv; ring.
Qed.

Lemma greeks_put_call_witness :
  (0 < 100 /\ 0 < 100 /\ 0 < 1 /\ 0 < 0.2 /\
   lower "Call" = "call"%string /\ lower "put" <> "call"%string) /\
  exists c p,
    calculate_all_greeks 100 100 1 0.05 0.2 "Call" = Ok c /\
    calculate_all_greeks 100 100 1 0.05 0.2 "put" = Ok p /\
    Delta c - Delta p = 1 /\
    Gamma c = Gamma p /\
    Vega c = Vega p /\
    Rho c - Rho p = 100 * 1 * exp (- (0.05) * 1) / 100 /\
    Theta c - Theta p = - (0.05 * 100 * exp (- (0.05) * 1)) / 365.
Proof.
  assert (Hs : 0 < 100) by lra.
  assert (HT : 0 < 1) by lra.
  assert (Hv : 0 < 0.2) by lra.
  assert (Hc : lower "Call" = "call"%string) by reflexivity.
  assert (Hp : lower "put" <> "call"%string) by discriminate.
  split; [split; [exact Hs | split; [exact Hs | split; [exact HT |
            split; [exact Hv | split; [exact Hc | exact Hp]]]]]|].
  exact (greeks_put_call_relations 100 100 1 0.05 0.2 "Call" "put"
           Hs Hs HT Hv Hc Hp).
Defined.

(** For a positive spot, strike, maturity and volatility, gamma and vega
    are never negative and vega is gamma scaled by [spot^2 vol T / 100]. *)
Theorem gamma_and_vega_are_nonnegative :
  forall spot strike T r vol ot,
    0 < spot -> 0 < strike -> 0 < T -> 0 < vol ->
    exists g,
      calculate_all_greeks spot strike T r vol ot = Ok g /\
      0 <= Gamma g /\ 0 <= Vega g /\
      Vega g = Gamma g * (spot ^ 2 * vol * T) / 100.
Proof.
  intros spot strike T r vol ot Hs Hk HT Hv.
  rewrite calculate_all_greeks_bundle by lra.
  set (d1 := (ln (spot / strike) + (r + 0.5 * vol ^ 2) * T) / (vol * sqrt T)).
  pose proof (norm_pdf_pos d1) as Hpdf.
  pose proof (sqrt_lt_R0 T HT) as Hsq.
  pose proof (sqrt_sqrt T (Rlt_le _ _ HT)) as Hsqsq.
  assert (Hden : 0 < spot * vol * sqrt T).
  { apply Rmult_lt_0_compat; [apply Rmult_lt_0_compat|]; assumption. }
  eexists. split; [reflexivity|].
  destruct (string_dec (lower ot) "call"); cbn [Gamma Vega].
  - split; [left; apply Rdiv_lt_0_compat; assumption|].
    split.
    + left. apply Rdiv_lt_0_compat; [|lra].
      apply Rmult_lt_0_compat; [apply Rmult_lt_0_compat|]; assumption.
    + replace (spot ^ 2 * vol * T) with (spot ^ 2 * vol * (sqrt T * sqrt T))
        by (rewrite Hsqsq; reflexivity).
      field. repeat split; lra.
  - split; [left; apply Rdiv_lt_0_compat; assumption|].
    split.
    + left. apply Rdiv_lt_0_compat; [|lra].
      apply Rmult_lt_0_compat; [apply Rmult_lt_0_compat|]; assumption.
    + replace (spot ^ 2 * vol * T) with (spot ^ 2 * vol * (sqrt T * sqrt T))
        by (rewrite Hsqsq; reflexivity).
      field. repeat split; lra.
Qed.

Lemma gamma_and_vega_witness :
  (0 < 100 /\ 0 < 95 /\ 0 < 1 /\ 0 < 0.2) /\
  exists g,
    calculate_all_greeks 100 95 1 0.05 0.2 "put" = Ok g /\
    0 <= Gamma g /\ 0 <= Vega g /\
    Vega g = Gamma g * (100 ^ 2 * 0.2 * 1) / 100.
Proof.
  assert (Hs : 0 < 100) by lra.
  assert (Hk : 0 < 95) by lra.
  assert (HT : 0 < 1) by lra.
  assert (Hv : 0 < 0.2) by lra.
  split; [split; [exact Hs | split; [exact Hk | split; [exact HT | exact Hv]]]|].
  exact (gamma_and_vega_are_nonnegative 100 95 1 0.05 0.2 "put" Hs Hk HT Hv).
Defined.

End GreeksRelations.

(** ** The three pricers are homogeneous in spot and strike *)

Module ScaleInvariance.
Import BaseModel.
Local Open Scope R_scope.

Lemma valid_inputs_scale spot strike T r vol ot (c : R) :
  valid_inputs spot strike T r vol ot -> 0 < c ->
  valid_inputs (c * spot) (c * strike) T r vol ot.
Proof.
  intros (Hs & Hk & HT & Hv & Hr & Hot) Hc.
  repeat split; try assumption; try lra; apply Rmult_lt_0_compat; assumption.
Qed.

(** *** Black-Scholes *)

(** Quoting spot and strike in another unit rescales the Black-Scholes
    price by the same factor. *)
Theorem black_scholes_price_is_homogeneous :
  forall spot strike T r vol ot c,
    valid_inputs spot strike T r vol ot -> 0 < c ->
    exists price,
      BlackScholes.calculate_price spot strike T r vol ot = Ok price /\
      BlackScholes.calculate_price (c * spot) (c * strike) T r vol ot =
      Ok (c * price).
Proof.
  intros spot strike T r vol ot c Hv Hc.
  pose proof (valid_inputs_scale spot strike T r vol ot c Hv Hc) as Hv'.
  rewrite (BlackScholesProperties.calculate_price_closed_form _ _ _ _ _ _ Hv).
  rewrite (BlackScholesProperties.calculate_price_closed_form _ _ _ _ _ _ Hv').
  destruct Hv as (Hs & Hk & _).
  replace (c * spot / (c * strike)) with (spot / strike) by (field; lra).
  eexists. split; [reflexivity|]. f_equal.
  destruct (string_dec (lower ot) "call"); ring.
Qed.

Lemma black_scholes_homogeneous_witness :
  (valid_inputs 100 95 1 0.05 0.2 "call" /\ 0 < 100) /\
  exists price,
    BlackScholes.calculate_price 100 95 1 0.05 0.2 "call" = Ok price /\
    BlackScholes.calculate_price (100 * 100) (100 * 95) 1 0.05 0.2 "call" =
    Ok (100 * price).
Proof.
  assert (Hv : valid_inputs 100 95 1 0.05 0.2 "call").
  { unfold valid_inputs. repeat split; try lra. left. reflexivity. }
  assert (Hc : 0 < 100) by lra.
  split; [split; [exact Hv | exact Hc]|].
  exact (black_scholes_price_is_homogeneous 100 95 1 0.05 0.2 "call" 100 Hv Hc).
Defined.

(** *** Binomial tree *)







(** *** Monte Carlo *)

Lemma np_sum_scale (c : R) (l : list R) :
  np_sum (map (Rmult c) l) = c * np_sum l.
Proof.
  induction l as [|x l IH]; [simpl; ring|].
  cbn [map]. change (np_sum (c * x :: map (Rmult c) l))
    with (c * x + np_sum (map (Rmult c) l)).
  change (np_sum (x :: l)) with (x + np_sum l). rewrite IH. ring.
Qed.

Lemma np_mean_scale (c : R) (l : list R) :
  np_mean (map (Rmult c) l) = c * np_mean l.
Proof.
  unfold np_mean. rewrite np_sum_scale, length_map. unfold Rdiv. ring.
Qed.

Lemma path_value_scale spot drift diffusion rn (c : R) t k :
  MonteCarloDiagnostics.path_value (c * spot) drift diffusion rn t k =
  c * MonteCarloDiagnostics.path_value spot drift diffusion rn t k.
Proof.
  induction t as [|t IH]; cbn [MonteCarloDiagnostics.path_value];
    [reflexivity|].
  rewrite IH. ring.
Qed.

Lemma payoffs_scale ot strike (c : R) (l : list R) :
  0 < c ->
  MonteCarlo.payoffs ot (c * strike) (map (Rmult c) l) =
  map (Rmult c) (MonteCarlo.payoffs ot strike l).
Proof.
  intro Hc. unfold MonteCarlo.payoffs.
  destruct (string_dec ot "call"); rewrite !map_map; apply map_ext; intro s.
  - replace (c * s - c * strike) with (c * (s - strike)) by ring.
    replace 0 with (c * 0) at 1 by ring. apply RmaxRmult. lra.
  - replace (c * strike - c * s) with (c * (strike - s)) by ring.
    replace 0 with (c * 0) at 1 by ring. apply RmaxRmult. lra.
Qed.

Section Generator.

Variable rng : Type.
Variable standard_normal : rng -> nat -> nat -> (nat -> nat -> R) * rng.

(** From the same generator state, quoting spot and strike in another unit
    rescales the Monte Carlo price by the same factor and leaves the
    generator in the same state. *)
Theorem monte_carlo_price_is_homogeneous :
  forall self spot strike T r vol ot c g,
    valid_inputs spot strike T r vol ot ->
    (1 <= MonteCarlo.num_steps self)%Z ->
    (1 <= MonteCarloProperties.drawn_paths self)%Z ->
    0 < c ->
    exists price g',
      MonteCarlo.calculate_price rng standard_normal self
        spot strike T r vol ot g = (Ok price, g') /\
      MonteCarlo.calculate_price rng standard_normal self
        (c * spot) (c * strike) T r vol ot g = (Ok (c * price), g').
Proof.
  intros self spot strike T r vol ot c g Hv Hs Hn Hc.
  pose proof (valid_inputs_scale spot strike T r vol ot c Hv Hc) as Hv'.
  unfold MonteCarlo.calculate_price.
  apply validate_inputs_ok_iff in Hv, Hv'. rewrite Hv, Hv'.
  replace (MonteCarlo.num_steps self =? 0)%Z with false
    by (symmetry; apply Z.eqb_neq; lia).
  replace (MonteCarlo.num_steps self <? 0)%Z with false
    by (symmetry; apply Z.ltb_ge; lia).
  fold (MonteCarloProperties.drawn_paths self).
  replace (MonteCarloProperties.drawn_paths self <? 0)%Z with false
    by (symmetry; apply Z.ltb_ge; lia).
  cbn [orb].
  destruct (standard_normal g _ _) as [z g'].
  do 2 eexists. split; [reflexivity|]. f_equal. f_equal.
  rewrite !MonteCarloDiagnostics.simulate_paths_nrows.
  unfold row. rewrite !MonteCarloDiagnostics.simulate_paths_ncols.
  match goal with
  | |- context [MonteCarlo.simulate_paths ?st (c * spot) ?dr ?di ?rn] =>
    set (rnd := rn); set (drift := dr); set (diffusion := di); set (steps := st)
  end.
  replace (steps + 1 - 1)%nat with steps by lia.
  assert (Hrow :
    map (cell (MonteCarlo.simulate_paths steps (c * spot) drift diffusion rnd) steps)
        (seq 0 (ncols rnd)) =
    map (Rmult c)
      (map (cell (MonteCarlo.simulate_paths steps spot drift diffusion rnd) steps)
         (seq 0 (ncols rnd)))).
  { rewrite map_map. apply map_ext. intro k.
    rewrite !MonteCarloDiagnostics.simulate_paths_cell by lia.
    apply path_value_scale. }
  rewrite Hrow, payoffs_scale, np_mean_scale by exact Hc. ring.
Qed.

End Generator.

Lemma monte_carlo_homogeneous_witness :
  (valid_inputs 100 95 1 0.05 0.2 "put" /\
   (1 <= MonteCarlo.num_steps (MonteCarlo.mk_model 8 2 None true))%Z /\
   (1 <= MonteCarloProperties.drawn_paths (MonteCarlo.mk_model 8 2 None true))%Z /\
   0 < 100) /\
  exists price g',
    MonteCarlo.calculate_price MonteCarloProperties.counter_rng
      MonteCarloProperties.counter_standard_normal
      (MonteCarlo.mk_model 8 2 None true) 100 95 1 0.05 0.2 "put" 0%nat =
    (Ok price, g') /\
    MonteCarlo.calculate_price MonteCarloProperties.counter_rng
      MonteCarloProperties.counter_standard_normal
      (MonteCarlo.mk_model 8 2 None true) (100 * 100) (100 * 95) 1 0.05 0.2
      "put" 0%nat = (Ok (100 * price), g').
Proof.
  assert (Hv : valid_inputs 100 95 1 0.05 0.2 "put").
  { unfold valid_inputs. repeat split; try lra. right. reflexivity. }
  assert (Hs : (1 <= MonteCarlo.num_steps (MonteCarlo.mk_model 8 2 None true))%Z)
    by (cbn; lia).
  assert (Hn : (1 <= MonteCarloProperties.drawn_paths
                       (MonteCarlo.mk_model 8 2 None true))%Z)
    by (vm_compute; discriminate).
  assert (Hc : 0 < 100) by lra.
  split; [split; [exact Hv | split; [exact Hs | split; [exact Hn | exact Hc]]]|].
  exact (monte_carlo_price_is_homogeneous MonteCarloProperties.counter_rng
           MonteCarloProperties.counter_standard_normal
           (MonteCarlo.mk_model 8 2 None true) 100 95 1 0.05 0.2 "put" 100 0%nat
           Hv Hs Hn Hc).
Defined.

End ScaleInvariance.

(** ** The Black-Scholes price and the Greeks *)

Module PriceAndGreeks.
Import BaseModel BlackScholes.
Local Open Scope R_scope.

(** [BlackScholesModel.get_d1_d2]: no validation is performed. *)
Definition get_d1_d2
    (spot strike time_to_maturity risk_free_rate volatility : R)
    : result (R * R) :=
  d1 <- _calculate_d1 spot strike time_to_maturity risk_free_rate volatility ;;
  let d2 := _calculate_d2 d1 volatility time_to_maturity in
  Ok (d1, d2).

(** On valid inputs the Black-Scholes price, the delta and the rho computed
    by the Greeks calculator and the pair returned by [get_d1_d2] fit
    together: delta is [N(d1)] for a call and [N(d1) - 1] for a put, and the
    price is [spot * delta - 100 * rho / T]. *)
Theorem price_from_delta_and_rho :
  forall spot strike T r vol ot,
    valid_inputs spot strike T r vol ot ->
    exists price g d1 d2,
      calculate_price spot strike T r vol ot = Ok price /\
      Greeks.calculate_all_greeks spot strike T r vol ot = Ok g /\
      get_d1_d2 spot strike T r vol = Ok (d1, d2) /\
      d2 = d1 - vol * sqrt T /\
      Greeks.Delta g =
        (if string_dec (lower ot) "call" then norm_cdf d1 else norm_cdf d1 - 1) /\
      price = spot * Greeks.Delta g - 100 * Greeks.Rho g / T.
Proof.
  intros spot strike T r vol ot Hv.
  rewrite (BlackScholesProperties.calculate_price_closed_form _ _ _ _ _ _ Hv).
  destruct Hv as (Hs & Hk & HT & Hvol & Hr & Hot).
  rewrite GreeksRelations.calculate_all_greeks_bundle by lra.
  unfold get_d1_d2, _calculate_d1, _calculate_d2.
  destruct (Req_dec_T strike 0) as [E|_]; [lra|]. cbn [bind].
  set (d1 := (ln (spot / strike) + (r + 0.5 * vol ^ 2) * T) / (vol * sqrt T)).
  set (d2 := d1 - vol * sqrt T).
  do 4 eexists. split; [reflexivity|]. split; [reflexivity|].
  split; [reflexivity|]. split; [reflexivity|].
  destruct (string_dec (lower ot) "call"); cbn [Greeks.Delta Greeks.Rho].
  - split; [reflexivity|]. field. lra.
  - split; [reflexivity|]. rewrite (norm_cdf_symmetry d1). field. lra.
Qed.

Lemma price_from_delta_and_rho_witness :
  valid_inputs 100 95 1 0.05 0.2 "put" /\
  exists price g d1 d2,
    calculate_price 100 95 1 0.05 0.2 "put" = Ok price /\
    Greeks.calculate_all_greeks 100 95 1 0.05 0.2 "put" = Ok g /\
    get_d1_d2 100 95 1 0.05 0.2 = Ok (d1, d2) /\
    d2 = d1 - 0.2 * sqrt 1 /\
    Greeks.Delta g =
      (if string_dec (lower "put") "call" then norm_cdf d1 else norm_cdf d1 - 1) /\
    price = 100 * Greeks.Delta g - 100 * Greeks.Rho g / 1.
Proof.
  assert (Hv : valid_inputs 100 95 1 0.05 0.2 "put").
  { unfold valid_inputs. repeat split; try lra. right. reflexivity. }
  split; [exact Hv|].
  exact (price_from_delta_and_rho 100 95 1 0.05 0.2 "put" Hv).
Defined.

End PriceAndGreeks.
